(** * Bank cashier simulation (src/case_study/app.py)

    A shallow embedding of the SimPy program [app.py]: the arrival
    generator [setup], the [customer] process and [run_simulation], run on a
    model of the parts of the SimPy kernel the program uses (the event heap
    of [Environment], [Timeout], [Process] and the FIFO [Resource]).

    Numbers.  Python floats are idealised as rationals [Q]; every equation
    between times is stated with [==] ([Qeq]).

    Randomness.  The module-level generator of Python's [random] is a
    parameter: [random_stream seed k] is the k-th output of
    [random.random()] after [random.seed(seed)], and [math_log] stands for
    [math.log].  [random.uniform] and [random.expovariate] are written out
    from these as CPython defines them. *)

From Stdlib Require Import QArith Qminmax Lqa Lia ZArith List Bool Sorted.
From stdpp Require Import base list.
Import ListNotations.

Open Scope Q_scope.

(* ------------------------------------------------------------------ *)
(** ** Parameters (lines 10-14) *)

Record config := {
  RANDOM_SEED  : Z;
  CUSTOMERS    : Z;
  INTERVAL     : Q;
  SERVICE_TIME : Q * Q;
  CASHIERS     : Z
}.

(** The values the program is shipped with. *)
Definition app_config : config :=
  {| RANDOM_SEED := 42; CUSTOMERS := 50; INTERVAL := 5;
     SERVICE_TIME := (3, 7); CASHIERS := 2 |}.

(** Python's [random] module, as far as the program uses it. *)
Record PyRandom := {
  random_stream : Z -> nat -> Q;
  math_log      : Q -> Q
}.

(** What the program relies on: [random()] lies in [0, 1) and the
    logarithm of a number in (0, 1] is not positive. *)
Record PyRandomOK (R : PyRandom) : Prop := {
  random_unit : forall seed k, 0 <= random_stream R seed k < 1;
  log_nonpos  : forall x, 0 < x -> x <= 1 -> math_log R x <= 0
}.

(** Exceptions that can leave [run_simulation]. *)
Inductive exn := ValueError | ZeroDivisionError | StatisticsError.

(* ------------------------------------------------------------------ *)
(** ** The SimPy kernel: events and the event heap *)

Inductive pid := Setup | Customer (p : nat).

(** The events the program creates.  Every [Timeout] is yielded by the
    process that created it, so it is named after that process; a
    [Request]/[Release] is named after the customer that issued it;
    [ProcessEnd p exc] is the [Process] event of [p] itself, triggered when
    its generator returns ([exc = None]) or raises. *)
Inductive event :=
  | Initialize (p : pid)
  | Timeout (p : pid)
  | Request (c : nat)
  | Release (c : nat)
  | ProcessEnd (p : pid) (exc : option exn).

Definition URGENT : nat := 0.
Definition NORMAL : nat := 1.

(** A heap item [(time, priority, eid, event)]. *)
Record item := {
  at_time  : Q;
  priority : nat;
  eid      : nat;
  ev       : event
}.

Definition Qltb (x y : Q) : bool :=
  match x ?= y with Lt => true | _ => false end.

(** Tuple comparison of heap items (the event itself is never reached:
    event ids are distinct). *)
Definition key_lt (a b : item) : bool :=
  match at_time a ?= at_time b with
  | Lt => true
  | Gt => false
  | Eq => (priority a <? priority b)%nat
          || ((priority a =? priority b)%nat && (eid a <? eid b)%nat)
  end.

(** [heappush]: the heap is kept as the list of its items in increasing
    key order, so that [heappop] takes the head. *)
Fixpoint heappush (x : item) (q : list item) : list item :=
  match q with
  | [] => [x]
  | y :: q' => if key_lt x y then x :: q else y :: heappush x q'
  end.

(** The generator frame of a customer: where it is suspended and the local
    [arrive] it holds. *)
Inductive frame :=
  | AtStart
  | AtRequest (arrive : Q)
  | AtService (arrive : Q)
  | Returned.

(** The generator frame of [setup]: not started, suspended at line 44 in
    iteration [i], or returned. *)
Inductive setup_frame :=
  | SetupStart
  | SetupLoop (i : nat)
  | SetupReturned.

(** Observations: what the program does, in the order it does it.  The
    trace is not read by the program. *)
Inductive obs :=
  | Spawned  (p : nat) (t : Q)
  | Delayed  (d : Q) (t : Q)
  | Arrived  (p : nat) (t : Q)
  | Enqueued (p : nat) (t : Q)
  | Granted  (p : nat) (t : Q)
  | Waited   (p : nat) (w : Q)
  | Released (p : nat) (t : Q).

Record state := {
  now           : Q;
  next_eid      : nat;
  queue         : list item;
  rng           : nat;
  setup_gen     : setup_frame;
  procs         : list frame;
  users         : list nat;
  put_queue     : list nat;
  wait_times    : list Q;
  service_times : list Q;
  busy_time     : Q;
  trace         : list obs
}.

Definition set_clock (t : Q) (q : list item) (s : state) : state :=
  {| now := t; next_eid := next_eid s; queue := q; rng := rng s;
     setup_gen := setup_gen s; procs := procs s; users := users s;
     put_queue := put_queue s; wait_times := wait_times s;
     service_times := service_times s; busy_time := busy_time s;
     trace := trace s |}.

Definition set_rng (k : nat) (s : state) : state :=
  {| now := now s; next_eid := next_eid s; queue := queue s; rng := k;
     setup_gen := setup_gen s; procs := procs s; users := users s;
     put_queue := put_queue s; wait_times := wait_times s;
     service_times := service_times s; busy_time := busy_time s;
     trace := trace s |}.

Definition set_setup (g : setup_frame) (s : state) : state :=
  {| now := now s; next_eid := next_eid s; queue := queue s; rng := rng s;
     setup_gen := g; procs := procs s; users := users s;
     put_queue := put_queue s; wait_times := wait_times s;
     service_times := service_times s; busy_time := busy_time s;
     trace := trace s |}.

Definition set_procs (ps : list frame) (s : state) : state :=
  {| now := now s; next_eid := next_eid s; queue := queue s; rng := rng s;
     setup_gen := setup_gen s; procs := ps; users := users s;
     put_queue := put_queue s; wait_times := wait_times s;
     service_times := service_times s; busy_time := busy_time s;
     trace := trace s |}.

Definition set_bank (us pq : list nat) (s : state) : state :=
  {| now := now s; next_eid := next_eid s; queue := queue s; rng := rng s;
     setup_gen := setup_gen s; procs := procs s; users := us;
     put_queue := pq; wait_times := wait_times s;
     service_times := service_times s; busy_time := busy_time s;
     trace := trace s |}.

Definition set_stats (ws ss : list Q) (b : Q) (s : state) : state :=
  {| now := now s; next_eid := next_eid s; queue := queue s; rng := rng s;
     setup_gen := setup_gen s; procs := procs s; users := users s;
     put_queue := put_queue s; wait_times := ws;
     service_times := ss; busy_time := b;
     trace := trace s |}.

Definition observe (o : obs) (s : state) : state :=
  {| now := now s; next_eid := next_eid s; queue := queue s; rng := rng s;
     setup_gen := setup_gen s; procs := procs s; users := users s;
     put_queue := put_queue s; wait_times := wait_times s;
     service_times := service_times s; busy_time := busy_time s;
     trace := trace s ++ [o] |}.

(** [Environment.schedule(event, priority, delay)]. *)
Definition schedule (e : event) (prio : nat) (delay : Q) (s : state) : state :=
  {| now := now s; next_eid := S (next_eid s);
     queue := heappush {| at_time := now s + delay; priority := prio;
                          eid := next_eid s; ev := e |} (queue s);
     rng := rng s;
     setup_gen := setup_gen s; procs := procs s; users := users s;
     put_queue := put_queue s; wait_times := wait_times s;
     service_times := service_times s; busy_time := busy_time s;
     trace := trace s |}.

(** A generator that returns or raises: [Process._resume] triggers the
    process event and schedules it. *)
Definition finish (p : pid) (exc : option exn) (s : state) : state :=
  schedule (ProcessEnd p exc) NORMAL 0 s.

(* ------------------------------------------------------------------ *)
(** ** The program *)

Section Program.

Variable R : PyRandom.
Variable cfg : config.

(** [random.random()] on the module-level generator. *)
Definition random (s : state) : Q * state :=
  (random_stream R (RANDOM_SEED cfg) (rng s), set_rng (S (rng s)) s).

(** [random.uniform(a, b)] is [a + (b - a) * random()]. *)
Definition uniform (a b : Q) (s : state) : Q * state :=
  let (u, s') := random s in (a + (b - a) * u, s').

(** [random.expovariate(lambd)] is [-log(1.0 - random()) / lambd]. *)
Definition expovariate (lambd : Q) (s : state) : Q * state :=
  let (u, s') := random s in (- math_log R (1 - u) / lambd, s').

(** [Resource._trigger_put]: [_do_put] is tried on the head of the put
    queue; it returns [None], so the loop stops after one request.  A grant
    appends the request to [users], stamps [usage_since = now] and
    triggers the request event. *)
Definition trigger_put (s : state) : state :=
  match put_queue s with
  | [] => s
  | c :: rest =>
      if (Z.of_nat (length (users s)) <? CASHIERS cfg)%Z
      then schedule (Request c) NORMAL 0
             (observe (Granted c (now s))
                (set_bank (users s ++ [c]) rest s))
      else s
  end.

(** [bank.request()]: the request joins the put queue, then
    [_trigger_put]. *)
Definition request (c : nat) (s : state) : state :=
  trigger_put
    (observe (Enqueued c (now s))
       (set_bank (users s) (put_queue s ++ [c]) s)).

(** [list.remove]: the first occurrence. *)
Fixpoint list_remove (c : nat) (l : list nat) : list nat :=
  match l with
  | [] => []
  | x :: l' => if (x =? c)%nat then l' else x :: list_remove c l'
  end.

(** [bank.release(req)], called when the [with] block is left:
    [_do_get] removes the request from [users] and triggers the release
    event, whose callback is [_trigger_put]. *)
Definition release (c : nat) (s : state) : state :=
  schedule (Release c) NORMAL 0
    (observe (Released c (now s))
       (set_bank (list_remove c (users s)) (put_queue s) s)).

(** [customer], lines 21-25: started by its [Initialize] event. *)
Definition customer_start (c : nat) (s : state) : state :=
  let arrive := now s in
  let s1 := observe (Arrived c arrive) s in
  let s2 := request c s1 in
  set_procs (<[c := AtRequest arrive]> (procs s2)) s2.

(** [customer], lines 26-33: resumed by its request event. *)
Definition customer_granted (c : nat) (arrive : Q) (s : state) : state :=
  let wait := now s - arrive in
  let s1 := observe (Waited c wait) s in
  let '(service_duration, s2) :=
    uniform (fst (SERVICE_TIME cfg)) (snd (SERVICE_TIME cfg)) s1 in
  let s3 := set_stats (wait_times s2 ++ [wait])
                      (service_times s2 ++ [service_duration])
                      (busy_time s2 + service_duration) s2 in
  if Qltb service_duration 0
  then (* Timeout raises ValueError; the [with] block releases *)
    finish (Customer c) (Some ValueError)
      (release c (set_procs (<[c := Returned]> (procs s3)) s3))
  else
    schedule (Timeout (Customer c)) NORMAL service_duration
      (set_procs (<[c := AtService arrive]> (procs s3)) s3).

(** [customer], after line 33: resumed by its timeout; the [with] block
    releases the unit and the generator returns. *)
Definition customer_leave (c : nat) (s : state) : state :=
  let s1 := release c s in
  finish (Customer c) None
    (set_procs (<[c := Returned]> (procs s1)) s1).

(** [setup], lines 42-44: the loop from the head of iteration [i].  A
    customer is known by its place in the process table (the name
    "Customer i+1" is only printed). *)
Definition setup_loop (i : nat) (s : state) : state :=
  if (Z.of_nat i <? CUSTOMERS cfg)%Z then
    let c := length (procs s) in
    let s1 := schedule (Initialize (Customer c)) URGENT 0
                (observe (Spawned c (now s))
                   (set_procs (procs s ++ [AtStart]) s)) in
    if Qeq_bool (INTERVAL cfg) 0
    then finish Setup (Some ZeroDivisionError) (set_setup SetupReturned s1)
    else
      let '(d, s2) := expovariate (1 / INTERVAL cfg) s1 in
      if Qltb d 0
      then finish Setup (Some ValueError) (set_setup SetupReturned s2)
      else schedule (Timeout Setup) NORMAL d
             (observe (Delayed d (now s2)) (set_setup (SetupLoop i) s2))
  else finish Setup None (set_setup SetupReturned s).

(** [setup], line 41, then the loop: [simpy.Resource] refuses a capacity
    that is not positive. *)
Definition setup_start (s : state) : state :=
  if (CASHIERS cfg <=? 0)%Z
  then finish Setup (Some ValueError) (set_setup SetupReturned s)
  else setup_loop 0 s.

(** One [Environment.step()]: the least item is popped, the clock moves
    to its time and its callbacks run.  A timeout or an [Initialize]
    resumes its process; a request event resumes the customer that yielded
    it (its other callback, [_trigger_get], finds no pending release); a
    release event runs [_trigger_put]; the event of a process that
    returned has no callback, and that of a process that raised makes
    [step] raise.  [Stuck] stands for an event whose process is not
    suspended where the event expects it. *)
Inductive outcome :=
  | Next (s : state)
  | Raise (e : exn) (s : state)
  | EmptySchedule
  | Stuck.

Definition step (s : state) : outcome :=
  match queue s with
  | [] => EmptySchedule
  | x :: q =>
      let s0 := set_clock (at_time x) q s in
      match ev x with
      | Initialize Setup =>
          match setup_gen s0 with
          | SetupStart => Next (setup_start s0)
          | _ => Stuck
          end
      | Timeout Setup =>
          match setup_gen s0 with
          | SetupLoop i => Next (setup_loop (S i) s0)
          | _ => Stuck
          end
      | Initialize (Customer c) =>
          match procs s0 !! c with
          | Some AtStart => Next (customer_start c s0)
          | _ => Stuck
          end
      | Request c =>
          match procs s0 !! c with
          | Some (AtRequest arrive) => Next (customer_granted c arrive s0)
          | _ => Stuck
          end
      | Timeout (Customer c) =>
          match procs s0 !! c with
          | Some (AtService _) => Next (customer_leave c s0)
          | _ => Stuck
          end
      | Release _ => Next (trigger_put s0)
      | ProcessEnd _ None => Next s0
      | ProcessEnd _ (Some e) => Raise e s0
      end
  end.

(** Lines 51-58: seed, fresh environment, empty statistics, and the
    [setup] process waiting for its [Initialize] event. *)
Definition empty_state : state :=
  {| now := 0; next_eid := 0%nat; queue := []; rng := 0%nat;
     setup_gen := SetupStart; procs := []; users := []; put_queue := [];
     wait_times := []; service_times := []; busy_time := 0; trace := [] |}.

Definition initial : state :=
  schedule (Initialize Setup) URGENT 0 empty_state.

(** [env.run()]: step until the schedule is empty. *)
Inductive run_result :=
  | Idle (s : state)
  | Crashed (e : exn) (s : state)
  | OutOfFuel
  | Wedged.

Fixpoint env_run (fuel : nat) (s : state) : run_result :=
  match fuel with
  | O => OutOfFuel
  | S fuel' =>
      match step s with
      | Next s' => env_run fuel' s'
      | Raise e s' => Crashed e s'
      | EmptySchedule => Idle s
      | Stuck => Wedged
      end
  end.

(** The state after [k] steps, if the run gets that far. *)
Fixpoint after (k : nat) (s : state) : option state :=
  match k with
  | O => Some s
  | S k' =>
      match step s with
      | Next s' => after k' s'
      | _ => None
      end
  end.

Fixpoint Qsum (l : list Q) : Q :=
  match l with
  | [] => 0
  | x :: l' => x + Qsum l'
  end.

Definition Qlen (l : list Q) : Q := inject_Z (Z.of_nat (length l)).

(** The figures of lines 64-67 and the raw sequences. *)
Record summary := {
  entities_served : Z;
  avg_wait        : Q;
  avg_service     : Q;
  total_time      : Q;
  utilization     : Q;
  waits           : list Q;
  services        : list Q
}.

Inductive result :=
  | Done (r : summary)
  | Failed (e : exn)
  | Timeout_fuel
  | Impossible.

(** Lines 64-67; [statistics.mean] raises on an empty sequence and the
    division raises on a zero divisor. *)
Definition report (s : state) : result :=
  match wait_times s, service_times s with
  | [], _ | _, [] => Failed StatisticsError
  | _, _ =>
      let total := now s in
      let denom := total * inject_Z (CASHIERS cfg) in
      if Qeq_bool denom 0 then Failed ZeroDivisionError
      else Done {| entities_served := CUSTOMERS cfg;
                   avg_wait := Qsum (wait_times s) / Qlen (wait_times s);
                   avg_service :=
                     Qsum (service_times s) / Qlen (service_times s);
                   total_time := total;
                   utilization := busy_time s / denom * 100;
                   waits := wait_times s;
                   services := service_times s |}
  end.

Definition run_simulation (fuel : nat) : result :=
  match env_run fuel initial with
  | Idle s => report s
  | Crashed e _ => Failed e
  | OutOfFuel => Timeout_fuel
  | Wedged => Impossible
  end.

(** States the run passes through. *)
Inductive reachable : state -> Prop :=
  | reach_initial : reachable initial
  | reach_step s s' : reachable s -> step s = Next s' -> reachable s'.

End Program.

(* ------------------------------------------------------------------ *)
(** ** Properties of runs: definitions *)

Definition time_le (a b : item) : Prop := at_time a <= at_time b.

(** The heap lists its items by increasing time and holds no item of the
    past. *)
Definition clock_ok (s : state) : Prop :=
  StronglySorted time_le (queue s) /\
  Forall (fun x => now s <= at_time x) (queue s).

(** Events on the heap. *)
Definition evs (s : state) : list event := map ev (queue s).

(** The customers of the trace, by kind of observation. *)
Definition enqueued_of (o : obs) : option nat :=
  match o with Enqueued p _ => Some p | _ => None end.

Definition granted_of (o : obs) : option nat :=
  match o with Granted p _ => Some p | _ => None end.

Definition released_of (o : obs) : option nat :=
  match o with Released p _ => Some p | _ => None end.

(** The order in which requests joined the put queue, and the order in
    which requests were granted. *)
Definition enqueue_order (tr : list obs) : list nat := omap enqueued_of tr.
Definition grant_order (tr : list obs) : list nat := omap granted_of tr.
Definition release_order (tr : list obs) : list nat := omap released_of tr.

(** Requests are granted in the order they were enqueued: what was
    enqueued is what was granted followed by what still waits. *)
Definition fifo_ok (s : state) : Prop :=
  enqueue_order (trace s) = grant_order (trace s) ++ put_queue s.

(** The process an event belongs to. *)
Definition owner (e : event) : pid :=
  match e with
  | Initialize p | Timeout p | ProcessEnd p _ => p
  | Request c | Release c => Customer c
  end.

(** What an event on the heap says about its process: where the generator
    is suspended, and for a granted request that it holds a unit. *)
Definition ev_ok (g : setup_frame) (ps : list frame) (us : list nat)
    (e : event) : Prop :=
  match e with
  | Initialize Setup => g = SetupStart
  | Timeout Setup => exists i, g = SetupLoop i
  | ProcessEnd Setup _ => g = SetupReturned
  | Initialize (Customer c) => ps !! c = Some AtStart
  | Request c => (exists a, ps !! c = Some (AtRequest a)) /\ c ∈ us
  | Timeout (Customer c) => (exists a, ps !! c = Some (AtService a)) /\ c ∈ us
  | Release c | ProcessEnd (Customer c) _ => ps !! c = Some Returned
  end.

(** What lies on the heap agrees with where the generators are suspended
    and with the books of the resource.  The property reads the events on
    the heap [E], the frames and the two lists of the resource. *)
Record wf_view (cap : Z) (E : list event) (g : setup_frame)
    (ps : list frame) (us pq : list nat) : Prop := {
  wf_nodup : NoDup E;
  wf_evs : forall e, e ∈ E -> ev_ok g ps us e;
  wf_users_nodup : NoDup us;
  wf_users :
    forall c, c ∈ us -> Request c ∈ E \/ Timeout (Customer c) ∈ E;
  wf_waiting_nodup : NoDup pq;
  wf_waiting :
    forall c, c ∈ pq -> (exists a, ps !! c = Some (AtRequest a)) /\ c ∉ us;
  wf_capacity : us = [] \/ (Z.of_nat (length us) <= cap)%Z
}.

Definition wf (cfg : config) (s : state) : Prop :=
  wf_view (CASHIERS cfg) (evs s) (setup_gen s) (procs s) (users s)
    (put_queue s).

(** The time an observation was made at ([Waited] carries a duration). *)
Definition obs_time (o : obs) : option Q :=
  match o with
  | Spawned _ t | Delayed _ t | Arrived _ t | Enqueued _ t | Granted _ t
  | Released _ t => Some t
  | Waited _ _ => None
  end.

Definition not_after (n : Q) (o : obs) : Prop :=
  match obs_time o with Some t => t <= n | None => True end.

(** Nothing in the trace was observed after [now]. *)
Definition past_ok (s : state) : Prop := Forall (not_after (now s)) (trace s).

(** The grants of the trace, in order: who was granted, and when. *)
Definition grant_of (o : obs) : option (nat * Q) :=
  match o with Granted p t => Some (p, t) | _ => None end.

Definition grants (tr : list obs) : list (nat * Q) := omap grant_of tr.

Definition grants_sorted (s : state) : Prop :=
  StronglySorted (fun a b : nat * Q => snd a <= snd b) (grants (trace s)).

(** Units granted and not yet released, read off the trace. *)
Definition held (tr : list obs) : Z :=
  Z.of_nat (length (grant_order tr)) - Z.of_nat (length (release_order tr)).

Definition count_ok (s : state) : Prop :=
  length (grant_order (trace s)) =
  (length (release_order (trace s)) + length (users s))%nat.

(** The observations that concern customer [c]. *)
Definition about (c : nat) (o : obs) : bool :=
  match o with
  | Spawned p _ | Arrived p _ | Enqueued p _ | Granted p _ | Waited p _
  | Released p _ => (p =? c)%nat
  | Delayed _ _ => false
  end.

Definition history (c : nat) (tr : list obs) : list obs :=
  List.filter (about c) tr.

(** The life of a customer so far, by the frame of its generator: the
    arrival time is the local [arrive]; a granted request lies on the heap
    at the time of the grant; the wait is the grant minus the arrival. *)
Definition hist_ok (Q : list item) (pq : list nat) (h : list obs)
    (c : nat) (f : frame) : Prop :=
  match f with
  | AtStart => exists t0, h = [Spawned c t0]
  | AtRequest a =>
      exists t0,
        (c ∈ pq /\ h = [Spawned c t0; Arrived c a; Enqueued c a]) \/
        (c ∉ pq /\ exists g,
           h = [Spawned c t0; Arrived c a; Enqueued c a; Granted c g] /\
           forall x, x ∈ Q -> ev x = Request c -> at_time x == g)
  | AtService a =>
      exists t0 g w,
        h = [Spawned c t0; Arrived c a; Enqueued c a; Granted c g;
             Waited c w] /\ w == g - a
  | Returned =>
      exists t0 a g w r,
        h = [Spawned c t0; Arrived c a; Enqueued c a; Granted c g;
             Waited c w; Released c r] /\ w == g - a
  end.

Definition hist_inv (s : state) : Prop :=
  (forall c f, procs s !! c = Some f ->
     hist_ok (queue s) (put_queue s) (history c (trace s)) c f) /\
  (forall c, (length (procs s) <= c)%nat -> history c (trace s) = []).

Definition waited_of (o : obs) : option Q :=
  match o with Waited _ w => Some w | _ => None end.

(** [customer_start], with the frame written before [_trigger_put]
    runs (which does not read it). *)
Definition enqueued (c : nat) (s : state) : state :=
  set_procs (<[c := AtRequest (now s)]> (procs s))
    (observe (Enqueued c (now s))
       (set_bank (users s) (put_queue s ++ [c])
          (observe (Arrived c (now s)) s))).

(** The statistics agree with the trace and with each other; waits are
    not negative and services lie between the two bounds. *)
Record stats_ok (cfg : config) (s : state) : Prop := {
  stats_waits : wait_times s = omap waited_of (trace s);
  stats_busy : busy_time s == Qsum (service_times s);
  stats_waits_nonneg : Forall (fun w => 0 <= w) (wait_times s);
  stats_services :
    Forall (fun x =>
              Qmin (fst (SERVICE_TIME cfg)) (snd (SERVICE_TIME cfg)) <= x /\
              x <= Qmax (fst (SERVICE_TIME cfg)) (snd (SERVICE_TIME cfg)))
      (service_times s)
}.

(** A configuration the program runs to the end on: positive capacity,
    count and mean interval, positive service bounds (in either order). *)
Record valid (cfg : config) : Prop := {
  valid_cashiers  : (1 <= CASHIERS cfg)%Z;
  valid_customers : (1 <= CUSTOMERS cfg)%Z;
  valid_interval  : 0 < INTERVAL cfg;
  valid_service_lo : 0 < fst (SERVICE_TIME cfg);
  valid_service_hi : 0 < snd (SERVICE_TIME cfg)
}.

(** No process has raised. *)
Definition no_crash (s : state) : Prop :=
  forall p e, ProcessEnd p (Some e) ∉ evs s.

(** Every generator that has not returned waits for something: an event
    on the heap, or a place in the put queue. *)
Definition frame_live (E : list event) (pq : list nat) (c : nat)
    (f : frame) : Prop :=
  match f with
  | AtStart => Initialize (Customer c) ∈ E
  | AtRequest _ => c ∈ pq \/ Request c ∈ E
  | AtService _ => Timeout (Customer c) ∈ E
  | Returned => True
  end.

Record live (cfg : config) (s : state) : Prop := {
  live_start : setup_gen s = SetupStart ->
    Initialize Setup ∈ evs s /\ procs s = [];
  live_loop : forall i, setup_gen s = SetupLoop i ->
    Timeout Setup ∈ evs s /\ length (procs s) = S i /\
    (Z.of_nat i < CUSTOMERS cfg)%Z;
  live_returned : setup_gen s = SetupReturned ->
    Z.of_nat (length (procs s)) = CUSTOMERS cfg;
  live_frames : forall c f, procs s !! c = Some f ->
    frame_live (evs s) (put_queue s) c f
}.

Definition is_release (e : event) : bool :=
  match e with Release _ => true | _ => false end.

(** While a request waits, every unit is in use or about to be handed
    over by a release event. *)
Definition pressure (cfg : config) (s : state) : Prop :=
  put_queue s <> [] ->
  (CASHIERS cfg <=
   Z.of_nat (length (users s) + length (List.filter is_release (evs s))))%Z.

(** Events a generator will still schedule, by frame; with the events on
    the heap and the requests in the put queue this bounds the steps
    left. *)
Definition pot (f : frame) : nat :=
  match f with
  | AtStart => 4
  | AtRequest _ => 3
  | AtService _ => 2
  | Returned => 0
  end.

Definition setup_pot (g : setup_frame) (n : nat) : nat :=
  match g with
  | SetupStart => 6 * n + 1
  | SetupLoop i => 6 * (n - S i) + 1
  | SetupReturned => 0
  end.

Definition wsum (w : frame -> nat) (ps : list frame) : nat :=
  list_sum (map w ps).

Definition steps_left (cfg : config) (s : state) : nat :=
  length (queue s) + setup_pot (setup_gen s) (Z.to_nat (CUSTOMERS cfg)) +
  wsum pot (procs s) + length (put_queue s).

(** Customers that have recorded their wait. *)
Definition served (f : frame) : nat :=
  match f with
  | AtStart | AtRequest _ => 0
  | AtService _ | Returned => 1
  end.

Definition served_ok (s : state) : Prop :=
  length (wait_times s) = wsum served (procs s) /\
  length (service_times s) = length (wait_times s).

(** Customers in service: their timeouts on the heap. *)
Definition is_service (e : event) : bool :=
  match e with Timeout (Customer _) => true | _ => false end.

Definition is_granted (e : event) : bool :=
  match e with Request _ => true | _ => false end.

Definition count (f : event -> bool) (E : list event) : nat :=
  length (List.filter f E).

(** Every unit in use belongs to a request that is granted and not yet
    processed, or to a customer in service. *)
Definition inuse_ok (s : state) : Prop :=
  (count is_service (evs s) + count is_granted (evs s))%nat =
  length (users s).

(** Service time still to be spent by the customers in service. *)
Fixpoint inflight (n : Q) (q : list item) : Q :=
  match q with
  | [] => 0
  | x :: q' =>
      (if is_service (ev x) then at_time x - n else 0) + inflight n q'
  end.

(** The busy time is covered by the server-time elapsed and the service
    time still to be spent. *)
Definition load_ok (cfg : config) (s : state) : Prop :=
  busy_time s <=
  inject_Z (CASHIERS cfg) * now s + inflight (now s) (queue s).

(** The observations of the arrival generator. *)
Definition is_gen (o : obs) : bool :=
  match o with Spawned _ _ | Delayed _ _ => true | _ => false end.

Definition gen_events (tr : list obs) : list obs := List.filter is_gen tr.

Definition delay_of (o : obs) : option Q :=
  match o with Delayed d _ => Some d | _ => None end.

Definition delays (tr : list obs) : list Q := omap delay_of tr.

(** The generator's own clock: the sum of the delays drawn so far. *)
Definition gen_clock (tr : list obs) : Q := Qsum (delays tr).

(** The latest release so far (0 before the first). *)
Definition later (m : Q) (o : obs) : Q :=
  match o with Released _ t => Qmax m t | _ => m end.

Definition last_departure (tr : list obs) : Q := fold_left later tr 0.

(** A delay drawn by [random.expovariate(1.0 / interval)]. *)
Definition expo_draw (R : PyRandom) (cfg : config) (d : Q) : Prop :=
  exists k,
    d = - math_log R (1 - random_stream R (RANDOM_SEED cfg) k) /
        (1 / INTERVAL cfg).

(** What the generator does, in order: customer 0 is spawned at time 0,
    then a delay is drawn and awaited; customer [n] is spawned when the
    delay drawn after customer [n - 1] has passed, and again a delay is
    drawn and awaited.  [arrivals l n t]: [l] holds [n] such rounds and
    the last delay ends at [t]. *)
Inductive arrivals (R : PyRandom) (cfg : config) :
    list obs -> nat -> Q -> Prop :=
  | arrivals_nil : arrivals R cfg [] 0 0
  | arrivals_snoc l n t t' d :
      arrivals R cfg l n t -> t' == t -> 0 <= d -> expo_draw R cfg d ->
      arrivals R cfg (l ++ [Spawned n t'; Delayed d t']) (S n) (t' + d).

(** Events whose time is not bounded by what has happened: the timeouts
    (and the start of [setup]). *)
Definition is_future (e : event) : bool :=
  match e with
  | Initialize Setup | Timeout _ => true
  | _ => false
  end.

Definition is_setup_wait (e : event) : bool :=
  match e with
  | Initialize Setup | Timeout Setup => true
  | _ => false
  end.

Record gen_ok (R : PyRandom) (cfg : config) (s : state) : Prop := {
  gen_shape :
    exists t, arrivals R cfg (gen_events (trace s)) (length (procs s)) t /\
              t == gen_clock (trace s);
  gen_wait :
    forall x, x ∈ queue s -> is_setup_wait (ev x) = true ->
      at_time x == gen_clock (trace s);
  gen_bound :
    forall x, x ∈ queue s -> is_future (ev x) = false ->
      at_time x <= Qmax (gen_clock (trace s)) (last_departure (trace s));
  gen_now :
    now s <= Qmax (gen_clock (trace s)) (last_departure (trace s));
  gen_dep : last_departure (trace s) <= now s;
  gen_done :
    (exists x, x ∈ queue s /\ is_setup_wait (ev x) = true) \/
    gen_clock (trace s) <= now s
}.

(** Fuel for a whole run: six events per customer, two of [setup], and
    the step that finds the schedule empty. *)
Definition enough (cfg : config) (fuel : nat) : Prop :=
  (6 * Z.to_nat (CUSTOMERS cfg) + 2 < fuel)%nat.

(** *** Scenarios without randomness

    A generator whose [random()] is always 1/2, with a stand-in for the
    logarithm that is -1 at 1/2: every inter-arrival delay is then
    [INTERVAL] and every service lasts the midpoint of [SERVICE_TIME]. *)
Definition steady_random : PyRandom :=
  {| random_stream := fun _ _ => 1 # 2;
     math_log := fun x => 2 * (x - 1) |}.

(** Capacity 1, three customers arriving at 0, 1 and 2, each served for
    3 time units. *)
Definition three_customers : config :=
  {| RANDOM_SEED := 42; CUSTOMERS := 3; INTERVAL := 1;
     SERVICE_TIME := (3, 3); CASHIERS := 1 |}.

(** The scenario after twelve events: the first customer has left, the
    second is being served, the third waits. *)
Definition three_customers_midway : state :=
  match after steady_random three_customers 12
          (initial) with
  | Some s => s
  | None => initial
  end.

(** The generator finishes long after its only customer has left. *)
Definition late_generator : config :=
  {| RANDOM_SEED := 42; CUSTOMERS := 1; INTERVAL := 10;
     SERVICE_TIME := (3, 3); CASHIERS := 1 |}.

(** Service bounds given as (max, min). *)
Definition swapped_bounds : config :=
  {| RANDOM_SEED := 42; CUSTOMERS := 3; INTERVAL := 1;
     SERVICE_TIME := (7, 3); CASHIERS := 1 |}.

(** The shipped configuration after its first event. *)
Definition first_round : state :=
  match after steady_random app_config 1 initial with
  | Some s => s
  | None => initial
  end.

Definition arrived_of (o : obs) : option Q :=
  match o with Arrived _ t => Some t | _ => None end.

Definition arrival_times (tr : list obs) : list Q := omap arrived_of tr.

(** *** The specification's wording, where the program differs *)

(** "Every spawned entity's arrival is preceded by a drawn delay." *)
Definition delay_before_every_spawn (tr : list obs) : Prop :=
  forall l1 p t l2, tr = l1 ++ Spawned p t :: l2 ->
    exists d t', Delayed d t' ∈ l1.

(** "Non-positive capacity, non-positive count, non-positive interval,
    malformed distribution parameters such as min > max." *)
Definition invalid_configuration (cfg : config) : Prop :=
  (CASHIERS cfg <= 0)%Z \/ (CUSTOMERS cfg <= 0)%Z \/ INTERVAL cfg <= 0 \/
  snd (SERVICE_TIME cfg) < fst (SERVICE_TIME cfg).


(* ------------------------------------------------------------------ *)
(** ** Further properties of runs: definitions *)


(** The priority an event is scheduled with: only [Initialize] is
    urgent. *)
Definition prio_of (e : event) : nat :=
  match e with Initialize _ => URGENT | _ => NORMAL end.

Definition is_timeout (e : event) : bool :=
  match e with Timeout _ => true | _ => false end.

(** Every item on the heap carries the priority of its event and an id
    below the next one, and every event scheduled without delay lies at
    the present time. *)
Definition heap_view (n : Q) (k : nat) (hp : list item) : Prop :=
  Forall (fun x => priority x = prio_of (ev x) /\ (eid x < k)%nat /\
                   (is_timeout (ev x) = false -> at_time x == n)) hp.

Definition heap_ok (s : state) : Prop :=
  heap_view (now s) (next_eid s) (queue s).

(** Every customer created so far has started, in the order of
    creation ... *)
Definition settled (ps : list frame) (enq : list nat) : Prop :=
  enq = seq 0 (length ps) /\ AtStart ∉ ps.

(** ... except the one created last, whose [Initialize] event is then the
    next event. *)
Definition arrive_view (hp : list item) (ps : list frame) (enq : list nat) :
    Prop :=
  settled ps enq \/
  exists x q ps', hp = x :: q /\ ps = ps' ++ [AtStart] /\
    ev x = Initialize (Customer (length ps')) /\ settled ps' enq.

Definition arrive_ok (s : state) : Prop :=
  arrive_view (queue s) (procs s) (enqueue_order (trace s)).

Definition req_of (e : event) : option nat :=
  match e with Request c => Some c | _ => None end.

Definition waiter_of (o : obs) : option nat :=
  match o with Waited p _ => Some p | _ => None end.

(** The order in which customers recorded their wait. *)
Definition wait_order (tr : list obs) : list nat := omap waiter_of tr.

(** The customers granted so far are those that recorded their wait
    followed by those whose request event is on the heap, in heap order. *)
Definition req_ok (s : state) : Prop :=
  grant_order (trace s) = wait_order (trace s) ++ omap req_of (evs s).

Definition wait_of (o : obs) : option (nat * Q) :=
  match o with Waited p w => Some (p, w) | _ => None end.

(** The waits of the trace, in order: who waited, and how long. *)
Definition waits_of (tr : list obs) : list (nat * Q) := omap wait_of tr.

(** The whole record of a customer, of which its history is a prefix. *)
Definition record (c : nat) (t0 a g w r : Q) : list obs :=
  [Spawned c t0; Arrived c a; Enqueued c a; Granted c g; Waited c w;
   Released c r].




(** A customer arrives at the time it was created: its [Initialize] event
    is the next event after the one that created it. *)
Definition spawn_ok (s : state) : Prop :=
  (forall c t0 a, Spawned c t0 ∈ trace s -> Arrived c a ∈ trace s -> a == t0) /\
  (forall c t0, procs s !! c = Some AtStart -> Spawned c t0 ∈ trace s ->
     t0 == now s).

Definition is_entry (o : obs) : bool :=
  match o with Spawned _ _ | Arrived _ _ => true | _ => false end.

(** The state of the module-level generator: every delay and every
    service time took one number of the stream. *)
Definition draws_ok (s : state) : Prop :=
  rng s = (length (delays (trace s)) + length (service_times s))%nat.

(** A release event lies on the heap at the time of the release. *)
Definition handover_ok (s : state) : Prop :=
  forall y c, y ∈ queue s -> ev y = Release c ->
    exists r, Released c r ∈ trace s /\ r == at_time y.



(** A unit is granted not before its customer arrives, and then or at the
    instant of a release. *)
Definition cause_ok (s : state) : Prop :=
  forall c a g, Arrived c a ∈ trace s -> Granted c g ∈ trace s ->
    a <= g /\ (g == a \/ exists c' r, Released c' r ∈ trace s /\ r == g).

(** The scenario of three customers and one cashier when the run has
    ended. *)
Definition three_customers_end : state :=
  match env_run steady_random three_customers 21 initial with
  | Idle s => s
  | _ => initial
  end.



(** Customers that [setup] has created and that have not run yet. *)
Definition unstarted (f : frame) : nat :=
  match f with
  | AtStart => 1%nat
  | _ => 0%nat
  end.

(** *** Service bounds below zero

    The same configuration with other service bounds: [setup] and the
    resource do not read [SERVICE_TIME]. *)
Definition with_service (st : Q * Q) (cfg : config) : config :=
  {| RANDOM_SEED := RANDOM_SEED cfg; CUSTOMERS := CUSTOMERS cfg;
     INTERVAL := INTERVAL cfg; SERVICE_TIME := st;
     CASHIERS := CASHIERS cfg |}.

(** Every process that raised, raised [ValueError]. *)
Definition only_value_errors (s : state) : Prop :=
  forall p e, ProcessEnd p (Some e) ∈ evs s -> e = ValueError.

(** No customer is in service, and the event of one that has returned is
    on the heap with its exception. *)
Definition frame_failed (E : list event) (c : nat) (f : frame) : Prop :=
  match f with
  | AtStart | AtRequest _ => True
  | AtService _ => False
  | Returned => ProcessEnd (Customer c) (Some ValueError) ∈ E
  end.

Definition failed_ok (s : state) : Prop :=
  forall c f, procs s !! c = Some f -> frame_failed (evs s) c f.

Record failing (cfg : config) (s : state) : Prop := {
  failing_wf : wf cfg s;
  failing_live : live cfg s;
  failing_pressure : pressure cfg s;
  failing_errors : only_value_errors s;
  failing_frames : failed_ok s
}.

(** Three customers whose service would last between -3 and -1. *)
Definition negative_service : config :=
  {| RANDOM_SEED := 42; CUSTOMERS := 3; INTERVAL := 1;
     SERVICE_TIME := (-3, -1); CASHIERS := 1 |}.

(* ------------------------------------------------------------------ *)
(** ** The event heap *)

Lemma Qltb_false x y : Qltb x y = false -> y <= x.
Proof.
  unfold Qltb. destruct (x ?= y) eqn:E; try discriminate; intros _.
  - apply Qeq_alt in E. lra.
  - apply Qgt_alt in E. lra.
Qed.

Lemma Qltb_true x y : Qltb x y = true -> x < y.
Proof.
  unfold Qltb. destruct (x ?= y) eqn:E; try discriminate; intros _.
  by apply Qlt_alt in E.
Qed.

Lemma heappush_perm x q : heappush x q ≡ₚ x :: q.
Proof.
  induction q as [|y q IH]; simpl; [done|].
  destruct (key_lt x y); [done|].
  rewrite IH. apply Permutation_swap.
Qed.

Lemma elem_of_heappush y x q : y ∈ heappush x q <-> y = x \/ y ∈ q.
Proof. rewrite heappush_perm. apply elem_of_cons. Qed.

Lemma key_lt_time x y : key_lt x y = true -> at_time x <= at_time y.
Proof.
  unfold key_lt.
  destruct (at_time x ?= at_time y) eqn:E; intros H; try discriminate.
  - apply Qeq_alt in E. lra.
  - apply Qlt_alt in E. lra.
Qed.

Lemma key_lt_time_false x y : key_lt x y = false -> at_time y <= at_time x.
Proof.
  unfold key_lt.
  destruct (at_time x ?= at_time y) eqn:E; intros H; try discriminate.
  - apply Qeq_alt in E. lra.
  - apply Qgt_alt in E. lra.
Qed.

Lemma heappush_sorted x q :
  StronglySorted time_le q -> StronglySorted time_le (heappush x q).
Proof.
  induction 1 as [|y q Hq IH Hy]; simpl.
  - repeat constructor.
  - destruct (key_lt x y) eqn:E.
    + constructor; [by constructor|].
      apply key_lt_time in E. constructor; [done|].
      eapply Forall_impl; [exact Hy|]. unfold time_le. intros z Hz. lra.
    + constructor; [done|]. rewrite heappush_perm. constructor; [|done].
      by apply key_lt_time_false.
Qed.

Lemma elem_of_map_heappush e x q :
  e ∈ map ev (heappush x q) <-> e = ev x \/ e ∈ map ev q.
Proof. rewrite heappush_perm. simpl. apply elem_of_cons. Qed.

Lemma NoDup_map_heappush x q :
  NoDup (map ev (heappush x q)) <-> ev x ∉ map ev q /\ NoDup (map ev q).
Proof. rewrite heappush_perm. simpl. apply NoDup_cons. Qed.

Ltac fields :=
  cbn [now next_eid queue rng setup_gen procs users put_queue wait_times
       service_times busy_time trace at_time priority eid ev fst snd
       set_clock set_rng set_setup set_procs set_bank set_stats observe
       schedule finish] in *.

Ltac ops :=
  unfold setup_start, setup_loop, customer_start, customer_granted,
    customer_leave, request, release, trigger_put, expovariate, uniform,
    random.

(** Case analysis of a successful step: the head of the heap, by event. *)
Ltac step_inv H :=
  unfold step in H;
  match type of H with
  | context [queue ?s] =>
      let x := fresh "x" in
      let q := fresh "q" in
      let Hq := fresh "Hq" in
      destruct (queue s) as [|x q] eqn:Hq; [discriminate|];
      destruct x as [t pr id e]; cbn [ev at_time] in H;
      destruct e as [[|c]|[|c]|c|c|p [e|]]; repeat case_match; simplify_eq
  end.

Section Runs.

Variable R : PyRandom.
Variable cfg : config.

(** *** The clock *)

Lemma schedule_clock_ok e pr d s :
  0 <= d -> clock_ok s -> clock_ok (schedule e pr d s).
Proof.
  intros Hd [H1 H2]. split; fields.
  - by apply heappush_sorted.
  - rewrite heappush_perm. constructor; [fields; lra | done].
Qed.

Lemma step_clock_ok s s' : clock_ok s -> step R cfg s = Next s' -> clock_ok s'.
Proof.
  intros [Hs Hn] H. step_inv H.
  all: apply StronglySorted_inv in Hs as [Hs Hhd];
    assert (H0' : clock_ok (set_clock t q s)) by (split; fields; [done | exact Hhd]).
  all: ops; fields; repeat case_match; simplify_eq; fields.
  all: repeat first [ assumption | apply schedule_clock_ok; [lra || (by apply Qltb_false)|] ].
Qed.

(** *** First in, first out *)

Lemma step_fifo_ok s s' : fifo_ok s -> step R cfg s = Next s' -> fifo_ok s'.
Proof.
  unfold fifo_ok, enqueue_order, grant_order. intros Hs H. step_inv H.
  all: ops; fields; repeat case_match; simplify_eq; fields.
  all: rewrite ?omap_app; simpl; rewrite ?app_nil_r.
  all: try congruence.
  - by destruct (put_queue s).
  - rewrite <- app_assoc, Hs, <- app_assoc. simpl. by f_equal.
  - rewrite Hs, <- app_assoc. by f_equal.
  - by rewrite Hs, <- app_assoc.
Qed.

(** *** Heap, frames and resource agree *)

Lemma evs_schedule e pr d s : evs (schedule e pr d s) ≡ₚ e :: evs s.
Proof. unfold evs; fields. by rewrite heappush_perm. Qed.

Lemma elem_of_evs_schedule e' e pr d s :
  e' ∈ evs (schedule e pr d s) <-> e' = e \/ e' ∈ evs s.
Proof. rewrite evs_schedule. apply elem_of_cons. Qed.

Lemma trigger_put_cases s :
  (trigger_put cfg s = s /\
   (put_queue s = [] \/ (CASHIERS cfg <= Z.of_nat (length (users s)))%Z)) \/
  (exists c rest, put_queue s = c :: rest /\
     (Z.of_nat (length (users s)) < CASHIERS cfg)%Z /\
     trigger_put cfg s =
       schedule (Request c) NORMAL 0
         (observe (Granted c (now s)) (set_bank (users s ++ [c]) rest s))).
Proof.
  unfold trigger_put. destruct (put_queue s) as [|c rest]; [by left; auto|].
  destruct (Z.ltb_spec (Z.of_nat (length (users s))) (CASHIERS cfg)).
  - right. by exists c, rest.
  - left. auto.
Qed.

Lemma ev_ok_change g g' ps ps' us us' e :
  (owner e = Setup -> g' = g) ->
  (forall c, owner e = Customer c ->
     ps' !! c = ps !! c /\ (c ∈ us -> c ∈ us')) ->
  ev_ok g ps us e -> ev_ok g' ps' us' e.
Proof.
  intros Hg Hc.
  destruct e as [[|c]|[|c]|c|c|[|c] x]; simpl in *;
    try (rewrite Hg by done; tauto);
    destruct (Hc c eq_refl) as [-> Hu]; tauto.
Qed.

(** A customer that has not returned owns at most the event it waits
    for. *)
Lemma ev_ok_customer g ps us e (c : nat) (f : frame) :
  ev_ok g ps us e -> owner e = Customer c -> ps !! c = Some f ->
  match f with
  | AtStart => e = Initialize (Customer c)
  | AtRequest _ => e = Request c /\ c ∈ us
  | AtService _ => e = Timeout (Customer c)
  | Returned => True
  end.
Proof.
  intros He Ho Hf.
  destruct f, e as [[|c']|[|c']|c'|c'|[|c'] x]; simpl in *; simplify_eq;
    try done; naive_solver.
Qed.

Lemma ev_ok_bound g ps us e c :
  ev_ok g ps us e -> owner e = Customer c -> (c < length ps)%nat.
Proof.
  intros He Ho.
  destruct e as [[|c']|[|c']|c'|c'|[|c'] x]; simpl in *; simplify_eq;
    apply lookup_lt_is_Some; naive_solver.
Qed.

Lemma elem_of_list_remove c c' l :
  c' ∈ list_remove c l -> c' ∈ l.
Proof.
  induction l as [|x l IH]; simpl; [done|].
  destruct (Nat.eqb_spec x c); rewrite !elem_of_cons; naive_solver.
Qed.

Lemma elem_of_list_remove_ne c c' l :
  c' <> c -> c' ∈ l -> c' ∈ list_remove c l.
Proof.
  intros Hne. induction l as [|x l IH]; simpl; [done|].
  destruct (Nat.eqb_spec x c); rewrite !elem_of_cons; naive_solver.
Qed.

Lemma NoDup_list_remove c l : NoDup l -> NoDup (list_remove c l).
Proof.
  induction 1 as [|x l Hx Hl IH]; simpl; [constructor|].
  destruct (Nat.eqb_spec x c); [done|].
  constructor; [|done]. intros H. by apply elem_of_list_remove in H.
Qed.

Lemma not_elem_of_list_remove c l : NoDup l -> c ∉ list_remove c l.
Proof.
  induction 1 as [|x l Hx Hl IH]; simpl; [by intros ?%elem_of_nil|].
  destruct (Nat.eqb_spec x c); [by subst|].
  rewrite elem_of_cons. naive_solver.
Qed.

Lemma length_list_remove c l :
  c ∈ l -> S (length (list_remove c l)) = length l.
Proof.
  induction l as [|x l IH]; simpl; [by intros ?%elem_of_nil|].
  destruct (Nat.eqb_spec x c); [done|].
  rewrite elem_of_cons. intros [?|?]; [congruence|]. simpl. by rewrite IH.
Qed.

Lemma length_list_remove_le c l :
  (length (list_remove c l) <= length l)%nat.
Proof.
  induction l as [|x l IH]; simpl; [done|].
  destruct (Nat.eqb_spec x c); simpl; lia.
Qed.

Lemma ev_ok_setup g ps us e :
  ev_ok g ps us e -> owner e = Setup ->
  match g with
  | SetupStart => e = Initialize Setup
  | SetupLoop _ => e = Timeout Setup
  | SetupReturned => True
  end.
Proof.
  intros He Ho.
  destruct g, e as [[|c']|[|c']|c'|c'|[|c'] x]; simpl in *; simplify_eq;
    try done; naive_solver.
Qed.

Section Views.

Variable cap : Z.

Lemma wf_view_perm E E' g ps us pq :
  E ≡ₚ E' -> wf_view cap E g ps us pq -> wf_view cap E' g ps us pq.
Proof.
  intros HE [Hnd Hev Hund Hu Hwnd Hw Hcp].
  split; try done.
  - by rewrite <- HE.
  - intros e He. apply Hev. by rewrite HE.
  - intros c Hc. rewrite <- !HE. by apply Hu.
Qed.

(** The popped event of a customer that has not returned was its only
    event. *)
Lemma wf_view_own_customer e E g ps us pq (c : nat) (f : frame) :
  wf_view cap (e :: E) g ps us pq ->
  owner e = Customer c -> ps !! c = Some f -> f <> Returned ->
  forall e', e' ∈ E -> owner e' <> Customer c.
Proof.
  intros [Hnd Hev _ _ _ _ _] Ho Hf Hr e' He' Ho'.
  apply NoDup_cons in Hnd as [Hne _].
  pose proof (ev_ok_customer _ _ _ _ _ _ (Hev e ltac:(left)) Ho Hf) as H1.
  pose proof (ev_ok_customer _ _ _ _ _ _ (Hev e' ltac:(by right)) Ho' Hf) as H2.
  destruct f; try done; destruct_and?; simplify_eq; done.
Qed.

Lemma wf_view_own_setup e E g ps us pq :
  wf_view cap (e :: E) g ps us pq ->
  owner e = Setup -> g <> SetupReturned ->
  forall e', e' ∈ E -> owner e' <> Setup.
Proof.
  intros [Hnd Hev _ _ _ _ _] Ho Hr e' He' Ho'.
  apply NoDup_cons in Hnd as [Hne _].
  pose proof (ev_ok_setup _ _ _ _ (Hev e ltac:(left)) Ho) as H1.
  pose proof (ev_ok_setup _ _ _ _ (Hev e' ltac:(by right)) Ho') as H2.
  destruct g; try done; simplify_eq; done.
Qed.

(** An event that is neither a granted request nor a customer's timeout
    is popped. *)
Lemma wf_view_pop e E g ps us pq :
  wf_view cap (e :: E) g ps us pq ->
  (forall c, e <> Request c) -> (forall c, e <> Timeout (Customer c)) ->
  wf_view cap E g ps us pq.
Proof.
  intros [Hnd Hev Hund Hu Hwnd Hw Hcp] H1 H2.
  apply NoDup_cons in Hnd as [Hne Hnd].
  split; try done.
  - intros e' He'. apply Hev. by right.
  - intros c Hc. destruct (Hu c Hc) as [H|H]; apply elem_of_cons in H;
      naive_solver.
Qed.

(** [_do_put] grants the head of the put queue. *)
Lemma wf_view_grant E g ps us c rest :
  wf_view cap E g ps us (c :: rest) ->
  (Z.of_nat (length us) < cap)%Z ->
  wf_view cap (Request c :: E) g ps (us ++ [c]) rest.
Proof.
  intros [Hnd Hev Hund Hu Hwnd Hw Hcp] Hcap.
  destruct (Hw c) as [[a Ha] Hc]; [left|].
  apply NoDup_cons in Hwnd as [Hcr Hrest].
  assert (Hown : forall e, e ∈ E -> owner e <> Customer c).
  { intros e He Ho.
    pose proof (ev_ok_customer _ _ _ _ _ _ (Hev e He) Ho Ha) as H.
    simpl in H. tauto. }
  split.
  - apply NoDup_cons. split; [|done]. intros H. by apply (Hown _ H).
  - intros e [-> | He]%elem_of_cons.
    + split; [eauto|]. apply elem_of_app. right. left.
    + eapply ev_ok_change; [done| |by apply Hev].
      intros c' _. split; [done|]. intros ?. apply elem_of_app. by left.
  - apply NoDup_app. split_and!; [done| |apply NoDup_singleton].
    intros x Hx ->%list_elem_of_singleton. done.
  - intros c' [H | ->%list_elem_of_singleton]%elem_of_app.
    + destruct (Hu c' H); [left|right]; by right.
    + left. left.
  - done.
  - intros c' Hc'. destruct (Hw c') as [? ?]; [by right|].
    split; [done|]. rewrite elem_of_app, list_elem_of_singleton.
    intros [? | ->]; done.
  - right. rewrite length_app. simpl. lia.
Qed.

(** Lines 21-25: a started customer joins the put queue. *)
Lemma wf_view_enqueue E g ps us pq c a :
  wf_view cap (Initialize (Customer c) :: E) g ps us pq ->
  wf_view cap E g (<[c := AtRequest a]> ps) us (pq ++ [c]).
Proof.
  intros Hwf.
  assert (Hf : ps !! c = Some AtStart)
    by (apply (wf_evs _ _ _ _ _ _ Hwf (Initialize (Customer c))); left).
  pose proof (wf_view_own_customer _ _ _ _ _ _ _ _ Hwf eq_refl Hf
                ltac:(done)) as Hown.
  assert (Hlen : (c < length ps)%nat) by (apply lookup_lt_is_Some; eauto).
  destruct Hwf as [Hnd Hev Hund Hu Hwnd Hw Hcp].
  apply NoDup_cons in Hnd as [Hne Hnd].
  assert (Hcu : c ∉ us).
  { intros Hc. destruct (Hu c Hc) as [H|H]; apply elem_of_cons in H as [?|H];
      try done; by apply (Hown _ H). }
  split; try done.
  - intros e He. eapply ev_ok_change; [done| |apply Hev; by right].
    intros c' Ho. split; [|done]. apply list_lookup_insert_ne.
    intros ->. by apply (Hown _ He).
  - intros c' Hc'. destruct (Hu c' Hc') as [H|H]; apply elem_of_cons in H;
      naive_solver.
  - apply NoDup_app. split_and!; [done| |apply NoDup_singleton].
    intros x Hx ->%list_elem_of_singleton.
    destruct (Hw _ Hx) as [[? ?] _]. congruence.
  - intros c' [H | ->%list_elem_of_singleton]%elem_of_app.
    + destruct (Hw c' H) as [[a' Ha'] ?]. split; [|done]. exists a'.
      rewrite list_lookup_insert_ne; [done|]. intros ->. congruence.
    + split; [|done]. exists a. by apply list_lookup_insert_eq.
Qed.

(** Lines 26-33: a granted customer starts its service. *)
Lemma wf_view_service E g ps us pq c a a' :
  wf_view cap (Request c :: E) g ps us pq ->
  ps !! c = Some (AtRequest a) ->
  wf_view cap (Timeout (Customer c) :: E) g (<[c := AtService a']> ps) us pq.
Proof.
  intros Hwf Hf.
  pose proof (wf_view_own_customer _ _ _ _ _ _ _ _ Hwf eq_refl Hf
                ltac:(done)) as Hown.
  assert (Hlen : (c < length ps)%nat) by (apply lookup_lt_is_Some; eauto).
  destruct Hwf as [Hnd Hev Hund Hu Hwnd Hw Hcp].
  destruct (Hev (Request c)) as [_ Hcu]; [left|].
  apply NoDup_cons in Hnd as [Hne Hnd].
  split; try done.
  - apply NoDup_cons. split; [|done]. intros H. by apply (Hown _ H).
  - intros e [-> | He]%elem_of_cons.
    + split; [|done]. exists a'. by apply list_lookup_insert_eq.
    + eapply ev_ok_change; [done| |apply Hev; by right].
      intros c' Ho. split; [|done]. apply list_lookup_insert_ne.
      intros ->. by apply (Hown _ He).
  - intros c' Hc'. destruct (decide (c' = c)) as [->|Hne'].
    + right. left.
    + destruct (Hu c' Hc') as [H|H]; apply elem_of_cons in H as [?|H];
        simplify_eq; [left|right]; by right.
  - intros c' Hc'. destruct (Hw c' Hc') as [[a0 Ha0] ?]. split; [|done].
    exists a0. rewrite list_lookup_insert_ne; [done|]. intros ->. done.
Qed.

(** The [with] block is left: the unit is released and the generator
    ends. *)
Lemma wf_view_exit e E g ps us pq (c : nat) (f : frame) exc :
  wf_view cap (e :: E) g ps us pq ->
  owner e = Customer c -> ps !! c = Some f -> f <> Returned ->
  wf_view cap (ProcessEnd (Customer c) exc :: Release c :: E) g
    (<[c := Returned]> ps) (list_remove c us) pq.
Proof.
  intros Hwf Ho Hf Hr.
  pose proof (wf_view_own_customer _ _ _ _ _ _ _ _ Hwf Ho Hf Hr) as Hown.
  assert (Hlen : (c < length ps)%nat) by (apply lookup_lt_is_Some; eauto).
  destruct Hwf as [Hnd Hev Hund Hu Hwnd Hw Hcp].
  apply NoDup_cons in Hnd as [Hne Hnd].
  split; try done.
  - apply NoDup_cons. split.
    + intros [?|H]%elem_of_cons; [done|]. by apply (Hown _ H).
    + apply NoDup_cons. split; [|done]. intros H. by apply (Hown _ H).
  - intros e' [-> | [-> | He]%elem_of_cons]%elem_of_cons.
    + by apply list_lookup_insert_eq.
    + by apply list_lookup_insert_eq.
    + eapply ev_ok_change; [done| |apply Hev; by right].
      intros c' Ho'.
      assert (Hc : c' <> c) by (intros ->; by apply (Hown _ He)).
      split; [by apply list_lookup_insert_ne|].
      by apply elem_of_list_remove_ne.
  - by apply NoDup_list_remove.
  - intros c' Hc'.
    assert (Hc : c' <> c)
      by (intros ->; by apply (not_elem_of_list_remove c us)).
    apply elem_of_list_remove in Hc'.
    destruct (Hu c' Hc') as [H1|H1]; apply elem_of_cons in H1 as [H1|H1];
      try (subst e; simpl in Ho; congruence); [left|right]; by do 2 right.
  - intros c' Hc'. destruct (Hw c' Hc') as [[a0 Ha0] Hn]. split.
    + exists a0. rewrite list_lookup_insert_ne; [done|]. intros ->.
      pose proof (ev_ok_customer _ _ _ _ _ _ (Hev e ltac:(left)) Ho Ha0)
        as [_ ?].
      done.
    + intros H. by apply elem_of_list_remove in H.
  - destruct Hcp as [->|Hcp]; [by left|]. right.
    pose proof (length_list_remove_le c us). lia.
Qed.

(** The generator of [setup] ends, by return or by an exception. *)
Lemma wf_view_setup_end e E g ps us pq exc :
  wf_view cap (e :: E) g ps us pq ->
  owner e = Setup -> g <> SetupReturned ->
  wf_view cap (ProcessEnd Setup exc :: E) SetupReturned ps us pq.
Proof.
  intros Hwf Ho Hr.
  pose proof (wf_view_own_setup _ _ _ _ _ _ Hwf Ho Hr) as Hown.
  destruct Hwf as [Hnd Hev Hund Hu Hwnd Hw Hcp].
  apply NoDup_cons in Hnd as [Hne Hnd].
  split; try done.
  - apply NoDup_cons. split; [|done]. intros H. by apply (Hown _ H).
  - intros e' [-> | He]%elem_of_cons; [done|].
    eapply ev_ok_change; [|done|apply Hev; by right].
    intros Ho'. by destruct (Hown _ He).
  - intros c' Hc'. destruct (Hu c' Hc') as [H|H]; apply elem_of_cons in H as [?|H];
      simplify_eq; [left|right]; by right.
Qed.

(** Line 44: [setup] waits for its timeout. *)
Lemma wf_view_setup_wait e E g ps us pq i :
  wf_view cap (e :: E) g ps us pq ->
  owner e = Setup -> g <> SetupReturned ->
  wf_view cap (Timeout Setup :: E) (SetupLoop i) ps us pq.
Proof.
  intros Hwf Ho Hr.
  pose proof (wf_view_own_setup _ _ _ _ _ _ Hwf Ho Hr) as Hown.
  destruct Hwf as [Hnd Hev Hund Hu Hwnd Hw Hcp].
  apply NoDup_cons in Hnd as [Hne Hnd].
  split; try done.
  - apply NoDup_cons. split; [|done]. intros H. by apply (Hown _ H).
  - intros e' [-> | He]%elem_of_cons; [by exists i|].
    eapply ev_ok_change; [|done|apply Hev; by right].
    intros Ho'. by destruct (Hown _ He).
  - intros c' Hc'. destruct (Hu c' Hc') as [H|H]; apply elem_of_cons in H as [?|H];
      simplify_eq; [left|right]; by right.
Qed.

(** Line 43: a customer process is created. *)
Lemma wf_view_spawn E g ps us pq :
  wf_view cap E g ps us pq ->
  wf_view cap (Initialize (Customer (length ps)) :: E) g (ps ++ [AtStart])
    us pq.
Proof.
  intros [Hnd Hev Hund Hu Hwnd Hw Hcp].
  split; try done.
  - apply NoDup_cons. split; [|done]. intros H.
    pose proof (ev_ok_bound _ _ _ _ _ (Hev _ H) eq_refl). lia.
  - intros e' [-> | He]%elem_of_cons.
    + simpl. by rewrite lookup_app_r, Nat.sub_diag.
    + eapply ev_ok_change; [done| |by apply Hev].
      intros c' Ho'. split; [|done]. apply lookup_app_l.
      by eapply ev_ok_bound; [apply Hev|].
  - intros c' Hc'. destruct (Hu c' Hc'); [left|right]; by right.
  - intros c' Hc'. destruct (Hw c' Hc') as [[a0 Ha0] Hn]. split; [|done].
    exists a0. by apply lookup_app_l_Some.
Qed.

End Views.

Lemma map_ev_heappush x q : map ev (heappush x q) ≡ₚ ev x :: map ev q.
Proof. by rewrite heappush_perm. Qed.

Lemma initial_wf : wf cfg initial.
Proof.
  split; simpl; try done; try (by constructor).
  - apply NoDup_singleton.
  - by intros e ->%list_elem_of_singleton.
  - by intros c ?%elem_of_nil.
  - by intros c ?%elem_of_nil.
Qed.

Ltac view_norm :=
  eapply wf_view_perm;
  [ symmetry; repeat (rewrite map_ev_heappush; fields); reflexivity | ].

Lemma trigger_put_wf s : wf cfg s -> wf cfg (trigger_put cfg s).
Proof.
  intros Hwf.
  destruct (trigger_put_cases s) as [[-> _]|(c & rest & Hpq & Hcap & ->)];
    [done|].
  unfold wf, evs in *; fields. view_norm. rewrite Hpq in Hwf.
  by apply wf_view_grant.
Qed.

Lemma setup_loop_wf e i s :
  wf_view (CASHIERS cfg) (e :: evs s) (setup_gen s) (procs s) (users s)
    (put_queue s) ->
  owner e = Setup -> setup_gen s <> SetupReturned ->
  wf cfg (setup_loop R cfg i s).
Proof.
  intros Hwf Ho Hg. unfold wf, evs in *.
  ops; fields; repeat case_match; simplify_eq; fields; view_norm.
  1-2: eapply wf_view_setup_end; [|exact Ho|exact Hg];
    eapply wf_view_perm; [apply Permutation_swap|]; by apply wf_view_spawn.
  - eapply wf_view_setup_wait; [|exact Ho|exact Hg].
    eapply wf_view_perm; [apply Permutation_swap|]. by apply wf_view_spawn.
  - by eapply wf_view_setup_end.
Qed.

Lemma customer_start_eq c s :
  customer_start cfg c s = trigger_put cfg (enqueued c s).
Proof. unfold enqueued. ops; fields. by repeat case_match. Qed.

Lemma enqueued_wf t pr id c q s :
  wf cfg s ->
  queue s = {| at_time := t; priority := pr; eid := id;
               ev := Initialize (Customer c) |} :: q ->
  wf cfg (enqueued c (set_clock t q s)).
Proof.
  intros Hwf Hq. unfold wf, evs in *. rewrite Hq in Hwf. simpl in Hwf.
  unfold enqueued; fields. by apply wf_view_enqueue.
Qed.

Lemma step_wf s s' : wf cfg s -> step R cfg s = Next s' -> wf cfg s'.
Proof.
  intros Hwf H. step_inv H; unfold wf, evs in Hwf; rewrite Hq in Hwf;
    simpl in Hwf.
  - (* setup starts *)
    unfold setup_start. case_match.
    + unfold wf, evs; fields. view_norm.
      eapply wf_view_setup_end; [exact Hwf|done|]. fields. congruence.
    + eapply setup_loop_wf; unfold evs; fields; [exact Hwf|done|congruence].
  - (* a customer starts *)
    rewrite customer_start_eq. apply trigger_put_wf.
    unfold wf, evs, enqueued; fields. by apply wf_view_enqueue.
  - (* setup resumes *)
    eapply setup_loop_wf; unfold evs; fields; [exact Hwf|done|congruence].
  - (* a customer leaves *)
    unfold wf, evs; ops; fields. view_norm.
    eapply wf_view_exit; [exact Hwf|done|done|done].
  - (* a customer is granted *)
    unfold wf, evs; ops; fields; case_match; fields; view_norm.
    + eapply wf_view_exit; [exact Hwf|done|done|done].
    + by eapply wf_view_service.
  - (* a release event *)
    apply trigger_put_wf. unfold wf, evs; fields.
    eapply wf_view_pop; [exact Hwf|done|done].
  - (* a process event *)
    unfold wf, evs; fields. eapply wf_view_pop; [exact Hwf|done|done].
Qed.

Lemma reachable_wf s : reachable R cfg s -> wf cfg s.
Proof.
  induction 1 as [|s s' _ IH Hstep]; [apply initial_wf|by eapply step_wf].
Qed.

(** *** Timestamps of the trace *)

Lemma not_after_le n n' o : n <= n' -> not_after n o -> not_after n' o.
Proof. unfold not_after. destruct (obs_time o); [lra|done]. Qed.

Lemma step_now_le s s' : clock_ok s -> step R cfg s = Next s' -> now s <= now s'.
Proof.
  intros [_ Hn] H. step_inv H; apply Forall_cons in Hn as [Hn _]; fields.
  all: ops; fields; repeat case_match; simplify_eq; fields; done.
Qed.

Lemma initial_clock_ok : clock_ok initial.
Proof.
  split; simpl; repeat constructor. simpl. lra.
Qed.

Lemma reachable_clock_ok s : reachable R cfg s -> clock_ok s.
Proof.
  induction 1; [apply initial_clock_ok|by eapply step_clock_ok].
Qed.

Lemma step_past_ok s s' :
  clock_ok s -> past_ok s -> step R cfg s = Next s' -> past_ok s'.
Proof.
  intros Hc Hp H. pose proof (step_now_le _ _ Hc H) as Hle.
  assert (Hp' : Forall (not_after (now s')) (trace s))
    by (eapply Forall_impl; [exact Hp|]; intros o; by apply not_after_le).
  clear Hp Hc. unfold past_ok. step_inv H.
  all: revert Hp' Hle; ops; fields; repeat case_match; simplify_eq; fields;
    intros Hp' Hle; rewrite ?Forall_app, ?Forall_singleton;
    unfold not_after; simpl; repeat split; try done; try lra.
Qed.

Lemma reachable_past_ok s : reachable R cfg s -> past_ok s.
Proof.
  induction 1 as [|s s' Hr IH Hstep]; [by constructor|].
  eapply step_past_ok; [by apply reachable_clock_ok|done|done].
Qed.

Lemma StronglySorted_snoc {A} (P : A -> A -> Prop) l x :
  StronglySorted P l -> Forall (fun a => P a x) l ->
  StronglySorted P (l ++ [x]).
Proof.
  induction 1 as [|a l Hl IH Ha]; simpl; intros Hx.
  - repeat constructor.
  - apply Forall_cons in Hx as [Hax Hx]. constructor; [by apply IH|].
    apply Forall_app. split; [done|]. by constructor.
Qed.

Lemma grants_not_after n tr :
  Forall (not_after n) tr -> Forall (fun a : nat * Q => snd a <= n) (grants tr).
Proof.
  induction 1 as [|o tr Ho _ IH]; [constructor|].
  unfold grants. destruct o; simpl; try done. by constructor.
Qed.

Lemma step_grants_sorted s s' :
  clock_ok s -> past_ok s -> grants_sorted s -> step R cfg s = Next s' ->
  grants_sorted s'.
Proof.
  intros Hc Hp Hg H. pose proof (step_now_le _ _ Hc H) as Hle.
  assert (Hp' : Forall (fun a : nat * Q => snd a <= now s') (grants (trace s))).
  { apply grants_not_after. eapply Forall_impl; [exact Hp|].
    intros o. by apply not_after_le. }
  clear Hp Hc. unfold grants_sorted, grants in *. step_inv H.
  all: revert Hp' Hle; ops; fields; repeat case_match; simplify_eq; fields;
    intros Hp' Hle; rewrite ?omap_app; simpl; rewrite ?app_nil_r; try done.
  all: by apply StronglySorted_snoc.
Qed.

Lemma reachable_grants_sorted s : reachable R cfg s -> grants_sorted s.
Proof.
  induction 1 as [|s s' Hr IH Hstep]; [by constructor|].
  eapply step_grants_sorted;
    [by apply reachable_clock_ok|by apply reachable_past_ok|done|done].
Qed.

Lemma reachable_fifo_ok s : reachable R cfg s -> fifo_ok s.
Proof.
  induction 1 as [|s s' Hr IH Hstep]; [done|by eapply step_fifo_ok].
Qed.

(** *** Units held *)

Lemma step_count_ok s s' :
  wf cfg s -> count_ok s -> step R cfg s = Next s' -> count_ok s'.
Proof.
  unfold count_ok, grant_order, release_order. intros Hwf Hs H.
  step_inv H; unfold wf, evs in Hwf; rewrite Hq in Hwf; simpl in Hwf.
  all: try (assert (Hc : c ∈ users s)
              by (eapply (wf_evs _ _ _ _ _ _ Hwf (Timeout (Customer c))); left)).
  all: try (assert (Hc : c ∈ users s)
              by (eapply (wf_evs _ _ _ _ _ _ Hwf (Request c)); left)).
  all: ops; fields; repeat case_match; simplify_eq; fields.
  all: rewrite ?omap_app; simpl; rewrite ?app_nil_r, ?length_app; simpl;
    try lia.
  all: try (pose proof (length_list_remove _ _ Hc); lia).
Qed.

Lemma reachable_count_ok s : reachable R cfg s -> count_ok s.
Proof.
  induction 1 as [|s s' Hr IH Hstep]; [done|].
  eapply step_count_ok; [by apply reachable_wf|done|done].
Qed.

Lemma after_reachable k s s' :
  reachable R cfg s -> after R cfg k s = Some s' -> reachable R cfg s'.
Proof.
  revert s. induction k as [|k IH]; simpl; intros s Hs H; [by simplify_eq|].
  destruct (step R cfg s) as [s1| | |] eqn:Hstep; try done.
  eapply IH; [|exact H]. by eapply reach_step.
Qed.

(** C2.  At every state of a run, the number of customers that were
    granted a unit and have not released it (grants minus releases of the
    trace) is the length of [users], is at least 0 and at most
    [CASHIERS]. *)
Theorem capacity_invariant s :
  (1 <= CASHIERS cfg)%Z -> reachable R cfg s ->
  (0 <= held (trace s) <= CASHIERS cfg)%Z /\
  held (trace s) = Z.of_nat (length (users s)).
Proof.
  intros Hcap Hs. pose proof (reachable_count_ok _ Hs) as Hc.
  pose proof (wf_capacity _ _ _ _ _ _ (reachable_wf _ Hs)) as Hw.
  unfold held, count_ok in *. rewrite Hc.
  destruct Hw as [->|Hw]; simpl; lia.
Qed.

Lemma StronglySorted_lookup {A} (P : A -> A -> Prop) l i j x y :
  StronglySorted P l -> (i < j)%nat ->
  l !! i = Some x -> l !! j = Some y -> P x y.
Proof.
  intros Hl. revert i j. induction Hl as [|a l Hl IH Ha]; intros i j Hij Hi Hj.
  - done.
  - destruct j as [|j]; [lia|]. simpl in Hj. destruct i as [|i].
    + simpl in Hi. simplify_eq. rewrite Forall_forall in Ha. apply Ha.
      by eapply list_elem_of_lookup_2.
    + simpl in Hi. eapply IH; [|done|done]. lia.
Qed.


Lemma grant_order_grants tr : grant_order tr = map fst (grants tr).
Proof.
  unfold grant_order, grants.
  induction tr as [|o tr IH]; [done|].
  destruct o; simpl in *; try done. by f_equal.
Qed.


(** *** The life of a customer *)

Lemma hist_ok_other Q Q' pq pq' h c f :
  (c ∈ pq' <-> c ∈ pq) ->
  (forall x, x ∈ Q' -> ev x = Request c -> x ∈ Q) ->
  hist_ok Q pq h c f -> hist_ok Q' pq' h c f.
Proof.
  intros Hpq HQ. destruct f; simpl; try done.
  intros [t0 [[H1 H2]|[H1 (g & H2 & H3)]]]; exists t0; [left|right].
  - by rewrite Hpq.
  - rewrite Hpq. split; [done|]. exists g. split; [done|]. eauto.
Qed.

Lemma history_app c tr l : history c (tr ++ l) = history c tr ++ history c l.
Proof. apply List.filter_app. Qed.

Lemma elem_of_map_ev x q : x ∈ q -> ev x ∈ map ev q.
Proof. rewrite !list_elem_of_In. apply in_map. Qed.

Lemma trigger_put_hist s :
  wf cfg s -> hist_inv s -> hist_inv (trigger_put cfg s).
Proof.
  intros Hwf [Hh Hb].
  destruct (trigger_put_cases s) as [[-> _]|(h & rest & Hpq & Hcap & ->)];
    [done|].
  destruct Hwf as [Hnd Hev Hund Hu Hwnd Hw Hcp]. rewrite Hpq in *.
  destruct (Hw h) as [[a Ha] Hhu]; [left|].
  apply NoDup_cons in Hwnd as [Hhr Hrest].
  split; fields.
  - intros c f Hf. rewrite history_app. simpl.
    destruct (Nat.eqb_spec h c) as [->|Hne].
    + pose proof (Hh c f Hf) as H. rewrite Ha in Hf. simplify_eq. simpl in *.
      destruct H as [t0 [[_ ->]|[Hn _]]]; [|by destruct Hn; left].
      exists t0. right. split; [done|]. exists (now s). split; [done|].
      intros x [->|Hx]%elem_of_heappush Hx'; fields; [lra|].
      destruct Hhu.
      apply (Hev (Request c)). rewrite <- Hx'. by apply elem_of_map_ev.
    + rewrite app_nil_r. eapply hist_ok_other; [| |by apply Hh].
      * rewrite elem_of_cons. naive_solver.
      * intros x [->|Hx]%elem_of_heappush Hx'; fields; [congruence|done].
  - intros c Hc. rewrite history_app, Hb by done. simpl.
    destruct (Nat.eqb_spec h c) as [->|Hne]; [|done].
    apply lookup_lt_Some in Ha. lia.
Qed.

Lemma hist_inv_update s s' c f' l :
  procs s' = <[c := f']> (procs s) ->
  trace s' = trace s ++ l ->
  (forall c', c' <> c -> history c' l = []) ->
  (forall c', c' <> c -> c' ∈ put_queue s' <-> c' ∈ put_queue s) ->
  (forall x c', c' <> c -> x ∈ queue s' -> ev x = Request c' ->
     x ∈ queue s) ->
  hist_inv s ->
  (c < length (procs s))%nat ->
  hist_ok (queue s') (put_queue s') (history c (trace s) ++ history c l)
    c f' ->
  hist_inv s'.
Proof.
  intros Hp Ht Hl Hpq HQ [Hh Hb] Hlen Hc. split.
  - intros c' f Hf. rewrite Hp in Hf. rewrite Ht, history_app.
    destruct (decide (c' = c)) as [->|Hne].
    + pose proof (lookup_lt_Some _ _ _ Hf) as Hlt.
      rewrite length_insert in Hlt.
      rewrite list_lookup_insert_eq in Hf by done. by simplify_eq.
    + rewrite list_lookup_insert_ne in Hf by done.
      rewrite Hl, app_nil_r by done.
      apply (hist_ok_other (queue s) _ (put_queue s));
        [by apply Hpq|by eauto|by apply Hh].
  - intros c' Hc'. rewrite Hp, length_insert in Hc'.
    rewrite Ht, history_app, Hb by done. simpl.
    destruct (decide (c' = c)) as [->|Hne]; [lia|by apply Hl].
Qed.

Lemma hist_inv_queue s s' :
  procs s' = procs s -> put_queue s' = put_queue s -> trace s' = trace s ->
  (forall x c, x ∈ queue s' -> ev x = Request c -> x ∈ queue s) ->
  hist_inv s -> hist_inv s'.
Proof.
  intros Hp Hpq Ht HQ [Hh Hb]. split.
  - intros c f Hf. rewrite Hp in Hf. rewrite Hpq, Ht.
    apply (hist_ok_other (queue s) _ (put_queue s));
      [done|by eauto|by apply Hh].
  - intros c. rewrite Hp, Ht. apply Hb.
Qed.

Lemma setup_loop_hist i s : hist_inv s -> hist_inv (setup_loop R cfg i s).
Proof.
  intros [Hh Hb]. ops; fields; repeat case_match; simplify_eq; fields.
  4: { apply (hist_inv_queue s); [done|done|done| |by split]; fields.
       intros x c [->|Hx]%elem_of_heappush; fields; congruence. }
  all: split; fields.
  all: try (intros c f Hf; apply lookup_app_Some in Hf as [Hf|[Hlen Hf]];
    [ pose proof (lookup_lt_Some _ _ _ Hf) as Hlt;
      rewrite ?history_app; simpl;
      destruct (Nat.eqb_spec (length (procs s)) c); [lia|];
      rewrite ?app_nil_r;
      apply (hist_ok_other (queue s) _ (put_queue s)); [done| |by apply Hh];
      intros x; rewrite !elem_of_heappush; fields;
      intros [->|[->|Hx]]; fields; congruence
    | apply list_lookup_singleton_Some in Hf as [Hz <-];
      assert (c = length (procs s)) as -> by lia;
      rewrite ?history_app, (Hb (length (procs s))) by done; simpl;
      rewrite Nat.eqb_refl; by eexists ]).
  all: intros c; rewrite length_app; simpl; intros Hc;
    rewrite ?history_app, Hb by lia; simpl;
    destruct (Nat.eqb_spec (length (procs s)) c); [lia|done].
Qed.

Lemma hist_inv_pop x q s :
  queue s = x :: q -> hist_inv s -> hist_inv (set_clock (at_time x) q s).
Proof.
  intros Hq. apply hist_inv_queue; try done. fields. rewrite Hq.
  intros ? ? ? _. by right.
Qed.

Ltac other_customer :=
  let c' := fresh "c'" in
  let Hne := fresh "Hne" in
  intros c' Hne; simpl;
  repeat match goal with
    | |- context [(?a =? c')%nat] =>
        destruct (Nat.eqb_spec a c'); [congruence|]
    end; done.

Lemma step_hist_inv s s' :
  wf cfg s -> hist_inv s -> step R cfg s = Next s' -> hist_inv s'.
Proof.
  intros Hwf Hh H. step_inv H.
  - (* setup starts *)
    unfold setup_start. case_match.
    + apply (hist_inv_queue s); [done|done|done| |done]; fields.
      rewrite Hq. intros x c [->|Hx]%elem_of_heappush; fields;
        [congruence|by right].
    + apply setup_loop_hist, (hist_inv_pop _ _ _ Hq Hh).
  - (* a customer starts *)
    rewrite customer_start_eq.
    apply trigger_put_hist; [by eapply enqueued_wf|].
    pose proof (proj1 Hh c _ H0) as [t0 Ht0].
    eapply (hist_inv_update (set_clock t q s) _ c (AtRequest t)
              [Arrived c t; Enqueued c t]);
      [done|by unfold enqueued; fields; rewrite <- app_assoc| | |
      |by apply (hist_inv_pop _ _ _ Hq Hh)| |]; unfold enqueued; fields.
    + other_customer.
    + intros c' Hne. rewrite elem_of_app, list_elem_of_singleton.
      naive_solver.
    + by intros.
    + by eapply lookup_lt_Some.
    + rewrite Ht0. simpl. rewrite Nat.eqb_refl. simpl. exists t0. left.
      split; [|done]. apply elem_of_app. right. left.
  - (* setup resumes *)
    apply setup_loop_hist, (hist_inv_pop _ _ _ Hq Hh).
  - (* a customer leaves *)
    pose proof (proj1 Hh c _ H0) as (t0 & g & w & Ht0 & Hw).
    eapply (hist_inv_update s _ c Returned [Released c t]);
      [done|done| | | |done|by eapply lookup_lt_Some|]; ops; fields.
    + other_customer.
    + by intros.
    + intros x c' Hne. rewrite Hq, !elem_of_heappush; fields.
      intros [->|[->|Hx]]; fields; [done|congruence|by right].
    + rewrite Ht0. simpl. rewrite Nat.eqb_refl. by exists t0, arrive, g, w, t.
  - (* a customer is granted *)
    pose proof (proj1 Hh c _ H0) as [t0 [[Hc _]|[_ (g & Ht0 & Hg)]]].
    { unfold wf, evs in Hwf. rewrite Hq in Hwf. simpl in Hwf.
      destruct (wf_evs _ _ _ _ _ _ Hwf (Request c)) as [_ Hu]; [left|].
      by destruct (wf_waiting _ _ _ _ _ _ Hwf c Hc) as [_ []]. }
    assert (Htg : t == g) by (apply (Hg _ ltac:(rewrite Hq; left) eq_refl)).
    unfold customer_granted, uniform, random; fields. case_match.
    + eapply (hist_inv_update s _ c Returned
                [Waited c (t - arrive); Released c t]);
        [done|by ops; fields; rewrite <- app_assoc| | |
        |done|by eapply lookup_lt_Some|]; ops; fields.
      * other_customer.
      * by intros.
      * intros x c' Hne. rewrite Hq, !elem_of_heappush; fields.
        intros [->|[->|Hx]]; fields; [done|congruence|by right].
      * rewrite Ht0. simpl. rewrite Nat.eqb_refl.
        exists t0, arrive, g, (t - arrive), t. split; [done|]. lra.
    + eapply (hist_inv_update s _ c (AtService arrive)
                [Waited c (t - arrive)]);
        [done|done| | | |done|by eapply lookup_lt_Some|]; ops; fields.
      * other_customer.
      * by intros.
      * intros x c' Hne. rewrite Hq, !elem_of_heappush; fields.
        intros [->|Hx]; fields; [done|by right].
      * rewrite Ht0. simpl. rewrite Nat.eqb_refl.
        exists t0, g, (t - arrive). split; [done|]. lra.
  - (* a release event *)
    apply trigger_put_hist; [|apply (hist_inv_pop _ _ _ Hq Hh)].
    unfold wf, evs in *; fields. rewrite Hq in Hwf.
    eapply wf_view_pop; [exact Hwf|done|done].
  - (* a process event *)
    apply (hist_inv_pop _ _ _ Hq Hh).
Qed.

Lemma initial_hist_inv : hist_inv initial.
Proof. split; [by intros c f ?|done]. Qed.

Lemma reachable_hist_inv s : reachable R cfg s -> hist_inv s.
Proof.
  induction 1 as [|s s' Hr IH Hstep]; [apply initial_hist_inv|].
  eapply step_hist_inv; [by apply reachable_wf|done|done].
Qed.


(** *** Statistics *)

Lemma Qsum_snoc l x : Qsum (l ++ [x]) == Qsum l + x.
Proof. induction l as [|y l IH]; simpl; [lra|]. rewrite IH. lra. Qed.

Lemma uniform_range a b u :
  0 <= u -> u < 1 -> Qmin a b <= a + (b - a) * u /\ a + (b - a) * u <= Qmax a b.
Proof.
  intros H0 H1. destruct (Qlt_le_dec a b) as [Hab|Hab].
  - rewrite Q.min_l, Q.max_r by lra. split; nra.
  - rewrite Q.min_r, Q.max_l by lra. split; nra.
Qed.

Lemma step_stats_ok s s' :
  PyRandomOK R -> clock_ok s -> past_ok s -> hist_inv s ->
  stats_ok cfg s -> step R cfg s = Next s' -> stats_ok cfg s'.
Proof.
  intros HR Hc Hp [Hh _] [H1 H2 H3 H4] H.
  assert (Hle : forall x, x ∈ queue s -> now s <= at_time x)
    by (destruct Hc as [_ Hc]; by rewrite Forall_forall in Hc).
  step_inv H.
  5: { (* a customer is granted *)
    assert (Ha : arrive <= t).
    { specialize (Hle _ ltac:(left)). simpl in Hle.
      assert (Arrived c arrive ∈ trace s) as Hin.
      { specialize (Hh c _ H0). simpl in Hh.
        assert (Arrived c arrive ∈ history c (trace s)) as Hin
          by (destruct Hh as [t0 [[_ ->]|[_ (g & -> & _)]]];
              right; left).
        apply list_elem_of_In, List.filter_In in Hin as [Hin _].
        by apply list_elem_of_In. }
      unfold past_ok in Hp. rewrite Forall_forall in Hp.
      specialize (Hp _ Hin). unfold not_after in Hp. simpl in Hp. lra. }
    pose proof (uniform_range (fst (SERVICE_TIME cfg)) (snd (SERVICE_TIME cfg))
                  _ (proj1 (random_unit R HR (RANDOM_SEED cfg) (rng s)))
                  (proj2 (random_unit R HR (RANDOM_SEED cfg) (rng s)))) as Hu.
    unfold customer_granted, uniform, random, release; fields.
    case_match; split; fields; rewrite ?omap_app; simpl;
      rewrite ?app_nil_r, ?Qsum_snoc, ?Forall_app, ?Forall_singleton;
      try done; try (by rewrite H1); try (by rewrite H2);
      try (split; [done|lra]). }
  all: ops; fields; repeat case_match; simplify_eq; split; fields;
    rewrite ?omap_app; simpl; rewrite ?app_nil_r; done.
Qed.

Lemma initial_stats_ok : stats_ok cfg initial.
Proof. split; simpl; try done; by constructor. Qed.

Lemma reachable_stats_ok s :
  PyRandomOK R -> reachable R cfg s -> stats_ok cfg s.
Proof.
  intros HR. induction 1 as [|s s' Hr IH Hstep]; [apply initial_stats_ok|].
  eapply step_stats_ok; eauto using reachable_clock_ok, reachable_past_ok,
    reachable_hist_inv.
Qed.

(** *** Counting frames *)

Lemma wsum_app w ps ps' : wsum w (ps ++ ps') = (wsum w ps + wsum w ps')%nat.
Proof. unfold wsum. by rewrite map_app, list_sum_app. Qed.

Lemma wsum_insert w ps c f f' :
  ps !! c = Some f ->
  (wsum w (<[c := f']> ps) + w f = wsum w ps + w f')%nat.
Proof.
  revert c. induction ps as [|x ps IH]; intros [|c] Hc; simpl in *;
    simplify_eq; unfold wsum in *; simpl.
  - lia.
  - specialize (IH c Hc). lia.
Qed.

Lemma length_heappush x q : length (heappush x q) = S (length q).
Proof. by rewrite heappush_perm. Qed.

Lemma step_served_ok s s' :
  served_ok s -> step R cfg s = Next s' -> served_ok s'.
Proof.
  unfold served_ok. intros [H1 H2] H. step_inv H.
  all: ops; fields; repeat case_match; simplify_eq; fields.
  all: try match goal with
       | |- context [<[?c := ?f']> (procs _)] =>
           pose proof (wsum_insert served _ _ _ f' H0)
       end.
  all: rewrite ?wsum_app, ?length_app; unfold wsum in *; simpl in *; lia.
Qed.

Lemma reachable_served_ok s : reachable R cfg s -> served_ok s.
Proof.
  induction 1 as [|s s' Hr IH Hstep]; [done|by eapply step_served_ok].
Qed.

(** A state whose heap matches its frames never wedges. *)
Lemma step_not_stuck s : wf cfg s -> step R cfg s <> Stuck.
Proof.
  intros Hwf. unfold step. destruct (queue s) as [|x q] eqn:Hq; [done|].
  unfold wf, evs in Hwf. rewrite Hq in Hwf. simpl in Hwf.
  pose proof (wf_evs _ _ _ _ _ _ Hwf (ev x) ltac:(left)) as Hx.
  destruct (ev x) as [[|c]|[|c]|c|c|p [e|]]; simpl in *; fields;
    try done.
  - by rewrite Hx.
  - by rewrite Hx.
  - by destruct Hx as [i ->].
  - by destruct Hx as [[a ->] _].
  - by destruct Hx as [[a ->] _].
Qed.

Lemma step_raise s e s' :
  step R cfg s = Raise e s' -> exists p, ProcessEnd p (Some e) ∈ evs s.
Proof.
  unfold step, evs. destruct (queue s) as [|x q] eqn:Hq; [done|].
  destruct x as [t pr id x]. simpl.
  destruct x as [[|c]|[|c]|c|c|p [e'|]]; simpl; repeat case_match;
    intros; simplify_eq.
  exists p. left.
Qed.

Lemma step_empty s : step R cfg s = EmptySchedule -> queue s = [].
Proof.
  unfold step. destruct (queue s) as [|x q]; [done|].
  destruct (ev x) as [[|c]|[|c]|c|c|p [e|]]; repeat case_match; done.
Qed.

(** *** Units in use *)

Lemma count_heappush f x q :
  count f (map ev (heappush x q)) =
  ((if f (ev x) then 1 else 0) + count f (map ev q))%nat.
Proof.
  unfold count. induction q as [|y q IH]; simpl.
  - by destruct (f (ev x)).
  - destruct (key_lt x y); simpl.
    + by destruct (f (ev x)).
    + destruct (f (ev y)); simpl; rewrite IH;
        destruct (f (ev x)); simpl; lia.
Qed.

Lemma step_inuse_ok s s' :
  wf cfg s -> inuse_ok s -> step R cfg s = Next s' -> inuse_ok s'.
Proof.
  unfold inuse_ok, evs. intros Hwf Hs H.
  step_inv H; unfold wf, evs in Hwf; rewrite Hq in Hwf; simpl in Hwf.
  all: try (assert (Hc : c ∈ users s)
              by (eapply (wf_evs _ _ _ _ _ _ Hwf (Timeout (Customer c))); left);
            pose proof (length_list_remove _ _ Hc)).
  all: try (assert (Hc : c ∈ users s)
              by (eapply (wf_evs _ _ _ _ _ _ Hwf (Request c)); left);
            pose proof (length_list_remove _ _ Hc)).
  all: unfold count in Hs; simpl in Hs.
  all: ops; fields; repeat case_match; simplify_eq; fields.
  all: rewrite ?count_heappush, ?length_app; unfold count; simpl; lia.
Qed.

Lemma reachable_inuse_ok s : reachable R cfg s -> inuse_ok s.
Proof.
  induction 1 as [|s s' Hr IH Hstep]; [done|].
  eapply step_inuse_ok; [by apply reachable_wf|done|done].
Qed.

Lemma inflight_heappush n x q :
  inflight n (heappush x q) ==
  (if is_service (ev x) then at_time x - n else 0) + inflight n q.
Proof.
  induction q as [|y q IH]; simpl; [lra|].
  destruct (key_lt x y); simpl; [lra|]. rewrite IH. lra.
Qed.

Lemma inflight_shift n n' q :
  inflight n' q ==
  inflight n q -
  inject_Z (Z.of_nat (count is_service (map ev q))) * (n' - n).
Proof.
  unfold count. induction q as [|y q IH];
    cbn [inflight map List.filter length].
  { change (inject_Z (Z.of_nat 0)) with 0. lra. }
  rewrite IH. destruct (is_service (ev y)); [|lra].
  cbn [length]. rewrite Nat2Z.inj_succ. unfold Z.succ.
  rewrite inject_Z_plus. change (inject_Z 1) with 1. lra.
Qed.

(** *** Busy time *)

Section Capacity.

Hypothesis Hcap1 : (1 <= CASHIERS cfg)%Z.

Lemma load_advance s x q :
  queue s = x :: q -> clock_ok s -> wf cfg s -> inuse_ok s ->
  load_ok cfg s ->
  busy_time s <=
  inject_Z (CASHIERS cfg) * at_time x + inflight (at_time x) q.
Proof.
  intros Hq [_ Hc] Hwf Hu Hl.
  unfold load_ok, inuse_ok, wf, evs in *. rewrite Hq in *.
  change (map ev (x :: q)) with (ev x :: map ev q) in *.
  apply Forall_cons in Hc as [Hx _].
  pose proof (wf_capacity _ _ _ _ _ _ Hwf) as Hcap.
  assert (Hk : (Z.of_nat (count is_service (ev x :: map ev q)) <=
                CASHIERS cfg)%Z).
  { destruct Hcap as [Hnil|Hcap]; [rewrite Hnil in Hu; cbn [length] in Hu|];
      lia. }
  rewrite Zle_Qle in Hk.
  rewrite (inflight_shift (now s) (at_time x) q).
  cbn [inflight] in Hl. unfold count in *. cbn [List.filter] in Hk.
  set (k := inject_Z (Z.of_nat (length (List.filter is_service (map ev q))))) in *.
  set (cap := inject_Z (CASHIERS cfg)) in *.
  destruct (is_service (ev x)).
  - cbn [length] in Hk. rewrite Nat2Z.inj_succ in Hk. unfold Z.succ in Hk.
    rewrite inject_Z_plus in Hk. change (inject_Z 1) with 1 in Hk.
    fold k in Hk. nra.
  - fold k in Hk. nra.
Qed.

Ltac sign_cases :=
  repeat match goal with
    | H : Qltb _ _ = true |- _ => apply Qltb_true in H
    | H : Qltb _ _ = false |- _ => apply Qltb_false in H
    end.

Lemma step_load_ok s s' :
  clock_ok s -> wf cfg s -> inuse_ok s -> load_ok cfg s ->
  step R cfg s = Next s' -> load_ok cfg s'.
Proof.
  intros Hc Hwf Hu Hl H. unfold load_ok.
  step_inv H; pose proof (load_advance _ _ _ Hq Hc Hwf Hu Hl) as Ha;
    cbn [at_time] in Ha.
  all: ops; fields; repeat case_match; simplify_eq; fields; sign_cases;
    rewrite ?inflight_heappush; fields; cbn [is_service]; lra.
Qed.

Lemma reachable_load_ok s : reachable R cfg s -> load_ok cfg s.
Proof.
  induction 1 as [|s s' Hr IH Hstep].
  - unfold load_ok. simpl. lra.
  - eapply step_load_ok; eauto using reachable_clock_ok, reachable_wf,
      reachable_inuse_ok.
Qed.





Lemma env_run_idle fuel s s' :
  reachable R cfg s -> env_run R cfg fuel s = Idle s' ->
  reachable R cfg s' /\ queue s' = [].
Proof.
  revert s. induction fuel as [|fuel IH]; intros s Hs; simpl; [done|].
  destruct (step R cfg s) as [s1|e s1| |] eqn:Hstep; try done.
  - apply IH. by eapply reach_step.
  - intros [= <-]. split; [done|]. by apply step_empty.
Qed.


End Capacity.

(** *** Runs of a valid configuration *)

Section Valid.

Hypothesis HR : PyRandomOK R.
Hypothesis Hv : valid cfg.

Lemma delay_nonneg u :
  0 <= u -> u < 1 -> 0 <= - math_log R (1 - u) / (1 / INTERVAL cfg).
Proof.
  intros H0 H1. pose proof (valid_interval _ Hv) as Hi.
  pose proof (log_nonpos R HR (1 - u) ltac:(lra) ltac:(lra)) as Hl.
  apply Qle_shift_div_l.
  - apply Qlt_shift_div_l; lra.
  - lra.
Qed.

Lemma service_pos u :
  0 <= u -> u < 1 ->
  0 < fst (SERVICE_TIME cfg) +
      (snd (SERVICE_TIME cfg) - fst (SERVICE_TIME cfg)) * u.
Proof.
  intros H0 H1. pose proof (valid_service_lo _ Hv).
  pose proof (valid_service_hi _ Hv).
  pose proof (uniform_range (fst (SERVICE_TIME cfg))
                (snd (SERVICE_TIME cfg)) u H0 H1) as [Hu _].
  destruct (Q.min_spec (fst (SERVICE_TIME cfg)) (snd (SERVICE_TIME cfg)))
    as [[_ Hm]|[_ Hm]]; rewrite Hm in Hu; lra.
Qed.

(** With a valid configuration no branch that raises is taken. *)
Lemma setup_start_valid s : setup_start R cfg s = setup_loop R cfg 0 s.
Proof.
  unfold setup_start. pose proof (valid_cashiers _ Hv).
  destruct (Z.leb_spec (CASHIERS cfg) 0); [lia|done].
Qed.

Lemma setup_loop_valid i s :
  setup_loop R cfg i s =
  if (Z.of_nat i <? CUSTOMERS cfg)%Z then
    let c := length (procs s) in
    let d := - math_log R
                 (1 - random_stream R (RANDOM_SEED cfg) (rng s)) /
             (1 / INTERVAL cfg) in
    schedule (Timeout Setup) NORMAL d
      (observe (Delayed d (now s))
         (set_setup (SetupLoop i)
            (set_rng (S (rng s))
               (schedule (Initialize (Customer c)) URGENT 0
                  (observe (Spawned c (now s))
                     (set_procs (procs s ++ [AtStart]) s))))))
  else finish Setup None (set_setup SetupReturned s).
Proof.
  unfold setup_loop. case_match; [|done].
  pose proof (valid_interval _ Hv) as Hi.
  destruct (Qeq_bool (INTERVAL cfg) 0) eqn:E.
  { apply Qeq_bool_iff in E. lra. }
  unfold expovariate, random; fields.
  destruct (Qltb _ 0) eqn:E'; [|done].
  apply Qltb_true in E'.
  pose proof (delay_nonneg _
                (proj1 (random_unit R HR (RANDOM_SEED cfg) (rng s)))
                (proj2 (random_unit R HR (RANDOM_SEED cfg) (rng s)))).
  lra.
Qed.

Lemma customer_granted_valid c arrive s :
  customer_granted R cfg c arrive s =
  let wait := now s - arrive in
  let service_duration :=
    fst (SERVICE_TIME cfg) +
    (snd (SERVICE_TIME cfg) - fst (SERVICE_TIME cfg)) *
    random_stream R (RANDOM_SEED cfg) (rng s) in
  schedule (Timeout (Customer c)) NORMAL service_duration
    (set_procs (<[c := AtService arrive]> (procs s))
       (set_stats (wait_times s ++ [wait])
          (service_times s ++ [service_duration])
          (busy_time s + service_duration)
          (set_rng (S (rng s)) (observe (Waited c wait) s)))).
Proof.
  unfold customer_granted, uniform, random; fields.
  destruct (Qltb _ 0) eqn:E'; [|done].
  apply Qltb_true in E'.
  pose proof (service_pos _
                (proj1 (random_unit R HR (RANDOM_SEED cfg) (rng s)))
                (proj2 (random_unit R HR (RANDOM_SEED cfg) (rng s)))).
  lra.
Qed.

(** Case analysis of a step of a valid run. *)
Ltac vstep_inv H :=
  step_inv H;
  rewrite ?setup_start_valid, ?setup_loop_valid, ?customer_granted_valid,
    ?customer_start_eq;
  cbv zeta.

Lemma step_no_crash s s' :
  no_crash s -> step R cfg s = Next s' -> no_crash s'.
Proof.
  unfold no_crash, evs. intros Hs H. vstep_inv H.
  all: simpl in Hs.
  all: assert (Hs' : forall p e, ProcessEnd p (Some e) ∉ map ev q)
    by (intros p' e' Hin; apply (Hs p' e'); by right).
  all: unfold customer_leave, release, trigger_put, enqueued; fields;
    repeat case_match; fields; intros p' e'.
  all: rewrite ?elem_of_map_heappush; fields; naive_solver.
Qed.

(** **** Every waiting generator is waited for *)

Lemma frame_live_mono E E' pq pq' c f :
  (forall e, e ∈ E -> e ∈ E') ->
  (c ∈ pq -> c ∈ pq' \/ Request c ∈ E') ->
  frame_live E pq c f -> frame_live E' pq' c f.
Proof. intros HE Hpq. destruct f; simpl; naive_solver. Qed.

Lemma frame_live_pop e E pq c f :
  owner e <> Customer c \/ is_release e = true \/
    (exists p x, e = ProcessEnd p x) ->
  frame_live (e :: E) pq c f -> frame_live E pq c f.
Proof.
  intros He. destruct f; simpl; try done.
  - intros [<-|?]%elem_of_cons; [|done]. exfalso.
    destruct He as [He|[He|(p & x & He)]]; simpl in *; congruence.
  - intros [?|[<-|?]%elem_of_cons]; auto. exfalso.
    destruct He as [He|[He|(p & x & He)]]; simpl in *; congruence.
  - intros [<-|?]%elem_of_cons; [|done]. exfalso.
    destruct He as [He|[He|(p & x & He)]]; simpl in *; congruence.
Qed.

Lemma live_update s s' x q c f' :
  queue s = x :: q -> live cfg s ->
  (forall e, e ∈ map ev q -> e ∈ evs s') ->
  setup_gen s' = setup_gen s -> procs s' = <[c := f']> (procs s) ->
  owner (ev x) = Customer c ->
  (forall c', c' ∈ put_queue s -> c' ∈ put_queue s' \/ Request c' ∈ evs s') ->
  frame_live (evs s') (put_queue s') c f' ->
  live cfg s'.
Proof.
  intros Hq [L1 L2 L3 L4] HE Hg Hp Ho Hpq Hc.
  unfold evs in L1, L2, L4. rewrite Hq in L1, L2, L4. simpl in *.
  split; rewrite ?Hg, ?Hp, ?length_insert.
  - intros Hs. destruct (L1 Hs) as [Hin ->]. split; [|done].
    apply HE. apply elem_of_cons in Hin as [Hin|Hin]; [|done].
    rewrite <- Hin in Ho. done.
  - intros i Hs. destruct (L2 i Hs) as (Hin & ? & ?). split; [|done].
    apply HE. apply elem_of_cons in Hin as [Hin|Hin]; [|done].
    rewrite <- Hin in Ho. done.
  - done.
  - intros c' f Hf. destruct (decide (c' = c)) as [->|Hne].
    + pose proof (lookup_lt_Some _ _ _ Hf) as Hlt.
      rewrite length_insert in Hlt.
      rewrite list_lookup_insert_eq in Hf by done. by simplify_eq.
    + rewrite list_lookup_insert_ne in Hf by done.
      eapply frame_live_mono; [exact HE|by apply Hpq|].
      eapply frame_live_pop; [|by apply L4]. left. rewrite Ho. congruence.
Qed.

Lemma live_pop s x q :
  queue s = x :: q -> live cfg s ->
  is_release (ev x) = true \/ (exists p e, ev x = ProcessEnd p e) ->
  live cfg (set_clock (at_time x) q s).
Proof.
  intros Hq [L1 L2 L3 L4] Hx.
  unfold evs in L1, L2, L4. rewrite Hq in L1, L2, L4. simpl in *.
  split; unfold evs; fields.
  - intros Hs. destruct (L1 Hs) as [Hin ->]. split; [|done].
    apply elem_of_cons in Hin as [Hin|Hin]; [|done].
    rewrite <- Hin in Hx. naive_solver.
  - intros i Hs. destruct (L2 i Hs) as (Hin & ? & ?). split; [|done].
    apply elem_of_cons in Hin as [Hin|Hin]; [|done].
    rewrite <- Hin in Hx. naive_solver.
  - done.
  - intros c f Hf. eapply frame_live_pop; [|by apply L4]. by right.
Qed.

Lemma trigger_put_live s : wf cfg s -> live cfg s -> live cfg (trigger_put cfg s).
Proof.
  intros Hwf [L1 L2 L3 L4].
  destruct (trigger_put_cases s) as [[-> _]|(h & rest & Hpq & Hcap & ->)];
    [done|].
  assert (HE : forall e, e ∈ evs s ->
            e ∈ evs (schedule (Request h) NORMAL 0
                       (observe (Granted h (now s))
                          (set_bank (users s ++ [h]) rest s)))).
  { intros e He. unfold evs; fields. apply elem_of_map_heappush. by right. }
  split; fields.
  - intros Hs. destruct (L1 Hs). auto.
  - intros i Hs. destruct (L2 i Hs) as (? & ? & ?). auto.
  - done.
  - intros c f Hf. eapply frame_live_mono; [exact HE| |by apply L4].
    rewrite Hpq. intros [->|Hin]%elem_of_cons; [right|by left].
    unfold evs; fields. apply elem_of_map_heappush. by left.
Qed.

Lemma setup_loop_live i s e :
  setup_gen s <> SetupReturned -> owner e = Setup ->
  (forall c f, procs s !! c = Some f ->
     frame_live (e :: evs s) (put_queue s) c f) ->
  (Z.of_nat i <= CUSTOMERS cfg)%Z ->
  length (procs s) = i ->
  live cfg (setup_loop R cfg i s).
Proof.
  intros Hg Ho L4 Hi Hlen. rewrite setup_loop_valid. cbv zeta.
  case_match; split; unfold evs in *; fields; try done.
  - intros j [= <-]. split_and!.
    + apply elem_of_map_heappush. by left.
    + rewrite length_app. simpl. lia.
    + lia.
  - intros c f [Hf|[Hc Hf]]%lookup_app_Some.
    + eapply frame_live_mono; [| |eapply frame_live_pop; [|by apply L4]].
      * intros e' He'. rewrite !elem_of_map_heappush. auto.
      * auto.
      * left. rewrite Ho. done.
    + apply list_lookup_singleton_Some in Hf as [Hz <-]. simpl.
      assert (c = length (procs s)) as -> by lia.
      rewrite !elem_of_map_heappush. right. by left.
  - intros _. lia.
  - intros c f Hf.
    eapply frame_live_mono; [| |eapply frame_live_pop; [|by apply L4]].
    + intros e' He'. rewrite !elem_of_map_heappush. auto.
    + auto.
    + left. rewrite Ho. done.
Qed.

Lemma step_live s s' :
  wf cfg s -> live cfg s -> step R cfg s = Next s' -> live cfg s'.
Proof.
  intros Hwf Hl H. step_inv H.
  - (* setup starts *)
    destruct (live_start _ _ Hl H0) as [_ Hp]. rewrite setup_start_valid.
    eapply (setup_loop_live 0 _ (Initialize Setup)); fields;
      [congruence|done| | |by rewrite Hp].
    + intros c f Hf. pose proof (live_frames _ _ Hl c f Hf) as H.
      unfold evs in H. by rewrite Hq in H.
    + pose proof (valid_customers _ Hv). lia.
  - (* a customer starts *)
    rewrite customer_start_eq.
    apply trigger_put_live; [by eapply enqueued_wf|].
    eapply (live_update s _ _ q c (AtRequest t)); unfold enqueued, evs;
      fields; try done.
    + intros c' Hc'. left. apply elem_of_app. by left.
    + left. apply elem_of_app. right. left.
  - (* setup resumes *)
    destruct (live_loop _ _ Hl i H0) as (_ & Hlen & Hi).
    eapply (setup_loop_live (S i) _ (Timeout Setup)); fields;
      [congruence|done| |lia|done].
    intros c f Hf. pose proof (live_frames _ _ Hl c f Hf) as H.
    unfold evs in H. by rewrite Hq in H.
  - (* a customer leaves *)
    eapply (live_update s _ _ q c Returned); unfold customer_leave, release, evs;
      fields; try done.
    + intros e He. rewrite !elem_of_map_heappush. auto.
    + auto.
  - (* a customer is granted *)
    rewrite customer_granted_valid. cbv zeta.
    eapply (live_update s _ _ q c (AtService arrive)); unfold evs;
      fields; try done.
    + intros e He. rewrite !elem_of_map_heappush. auto.
    + auto.
    + apply elem_of_map_heappush. by left.
  - (* a release event *)
    apply trigger_put_live.
    + unfold wf, evs in *; fields. rewrite Hq in Hwf.
      eapply wf_view_pop; [exact Hwf|done|done].
    + apply (live_pop _ _ _ Hq Hl). by left.
  - (* a process event *)
    apply (live_pop _ _ _ Hq Hl). right. by eexists _, _.
Qed.

Lemma initial_live : live cfg initial.
Proof.
  split; simpl; try done.
  intros _. split; [|done]. unfold evs. simpl. left.
Qed.

Lemma reachable_live s : reachable R cfg s -> live cfg s.
Proof.
  induction 1 as [|s s' Hr IH Hstep]; [apply initial_live|].
  eapply step_live; [by apply reachable_wf|done|done].
Qed.

(** **** Waiting requests are served *)

Lemma releases_heappush x q :
  length (List.filter is_release (map ev (heappush x q))) =
  ((if is_release (ev x) then 1 else 0) +
   length (List.filter is_release (map ev q)))%nat.
Proof.
  induction q as [|y q IH]; simpl.
  - by destruct (is_release (ev x)).
  - destruct (key_lt x y); simpl.
    + by destruct (is_release (ev x)).
    + destruct (is_release (ev y)); simpl; rewrite IH;
        destruct (is_release (ev x)); simpl; lia.
Qed.

Lemma trigger_put_pressure s :
  (forall h rest, put_queue s = h :: rest -> rest <> [] ->
     (CASHIERS cfg <=
      Z.of_nat (length (users s) + 1 +
                length (List.filter is_release (evs s))))%Z) ->
  pressure cfg (trigger_put cfg s).
Proof.
  intros Hs.
  destruct (trigger_put_cases s)
    as [[-> [Hpq|Hcap]]|(h & rest & Hpq & Hcap & ->)]; unfold pressure, evs;
    fields.
  - done.
  - intros _. lia.
  - intros Hr. rewrite releases_heappush, length_app. simpl.
    specialize (Hs h rest Hpq Hr). unfold evs in Hs. lia.
Qed.

Lemma step_pressure s s' :
  wf cfg s -> pressure cfg s -> step R cfg s = Next s' -> pressure cfg s'.
Proof.
  intros Hwf Hp H. unfold pressure, evs in Hp. step_inv H; simpl in Hp.
  - (* setup starts *)
    rewrite setup_start_valid, setup_loop_valid. cbv zeta.
    case_match; unfold pressure, evs; fields;
      rewrite !releases_heappush; simpl; done.
  - (* a customer starts *)
    rewrite customer_start_eq. apply trigger_put_pressure.
    unfold enqueued, evs; fields. intros h rest Hpq Hr.
    assert (put_queue s <> []) as Hne.
    { intros Hnil. rewrite Hnil in Hpq. simpl in Hpq. by simplify_eq. }
    specialize (Hp Hne). lia.
  - (* setup resumes *)
    rewrite setup_loop_valid. cbv zeta.
    case_match; unfold pressure, evs; fields;
      rewrite !releases_heappush; simpl; done.
  - (* a customer leaves *)
    unfold wf, evs in Hwf. rewrite Hq in Hwf. simpl in Hwf.
    destruct (wf_evs _ _ _ _ _ _ Hwf (Timeout (Customer c))) as [_ Hc];
      [left|].
    pose proof (length_list_remove _ _ Hc).
    unfold pressure, evs, customer_leave, release; fields.
    rewrite !releases_heappush; simpl. intros Hne. specialize (Hp Hne). lia.
  - (* a customer is granted *)
    rewrite customer_granted_valid. cbv zeta. unfold pressure, evs; fields.
    rewrite !releases_heappush; simpl. done.
  - (* a release event *)
    apply trigger_put_pressure. unfold evs; fields. intros h rest Hpq Hr.
    assert (put_queue s <> []) as Hne by (by rewrite Hpq).
    specialize (Hp Hne). lia.
  - (* a process event *)
    unfold pressure, evs; fields. done.
Qed.

Lemma reachable_pressure s : reachable R cfg s -> pressure cfg s.
Proof.
  induction 1 as [|s s' Hr IH Hstep]; [by intros []|].
  eapply step_pressure; [by apply reachable_wf|done|done].
Qed.

Lemma reachable_no_crash s : reachable R cfg s -> no_crash s.
Proof.
  induction 1 as [|s s' Hr IH Hstep]; [|by eapply step_no_crash].
  intros p e. unfold evs. simpl. by intros ?%list_elem_of_singleton.
Qed.

(** **** The run ends *)

Lemma step_steps_left s s' :
  live cfg s -> step R cfg s = Next s' ->
  (steps_left cfg s' < steps_left cfg s)%nat.
Proof.
  intros Hl H. unfold steps_left. step_inv H.
  - (* setup starts *)
    rewrite setup_start_valid, setup_loop_valid. cbv zeta.
    fields. rewrite H0.
    match goal with |- context [(?a <? ?b)%Z] => destruct (Z.ltb_spec a b) end;
      fields; rewrite ?length_heappush, ?wsum_app; unfold wsum; simpl; lia.
  - (* a customer starts *)
    rewrite customer_start_eq.
    pose proof (wsum_insert pot _ _ _ (AtRequest t) H0). simpl in *.
    unfold trigger_put, enqueued; fields; repeat case_match; fields;
      rewrite ?length_heappush, ?length_app in *; simpl in *;
      try lia.
    + apply (f_equal length) in H1. rewrite length_app in H1. simpl in *. lia.
    + apply (f_equal length) in H1. rewrite length_app in H1. simpl in *. lia.
  - (* setup resumes *)
    destruct (live_loop _ _ Hl i H0) as (_ & _ & Hi).
    rewrite setup_loop_valid. cbv zeta.
    fields. rewrite H0.
    match goal with |- context [(?a <? ?b)%Z] => destruct (Z.ltb_spec a b) end;
      fields; rewrite ?length_heappush, ?wsum_app; unfold wsum; simpl; lia.
  - (* a customer leaves *)
    pose proof (wsum_insert pot _ _ _ Returned H0). simpl in *.
    unfold customer_leave, release; fields.
    rewrite ?length_heappush. lia.
  - (* a customer is granted *)
    rewrite customer_granted_valid. cbv zeta.
    pose proof (wsum_insert pot _ _ _ (AtService arrive) H0). simpl in *.
    fields. rewrite ?length_heappush. lia.
  - (* a release event *)
    unfold trigger_put; fields; repeat case_match; fields;
      rewrite ?length_heappush; simpl; try lia.
    all: match goal with H : put_queue _ = _ |- _ => rewrite H end;
      simpl; lia.
  - (* a process event *)
    fields. simpl. lia.
Qed.

Lemma env_run_ends fuel s :
  reachable R cfg s -> (steps_left cfg s < fuel)%nat ->
  exists s', env_run R cfg fuel s = Idle s' /\ reachable R cfg s' /\
             queue s' = [].
Proof.
  revert s. induction fuel as [|fuel IH]; intros s Hs Hf; [lia|].
  simpl. destruct (step R cfg s) as [s1|e s1| |] eqn:Hstep.
  - apply IH; [by eapply reach_step|].
    pose proof (step_steps_left _ _ (reachable_live _ Hs) Hstep). lia.
  - apply step_raise in Hstep as [p Hp].
    by destruct (reachable_no_crash _ Hs p e).
  - exists s. split_and!; [done|done|]. by apply step_empty.
  - by destruct (step_not_stuck _ (reachable_wf _ Hs)).
Qed.

(** When the schedule is empty every customer has been created and has
    returned. *)
Lemma idle_all_returned s :
  reachable R cfg s -> queue s = [] ->
  Z.of_nat (length (procs s)) = CUSTOMERS cfg /\
  Forall (fun f => f = Returned) (procs s) /\
  users s = [] /\ put_queue s = [].
Proof.
  intros Hs Hq.
  pose proof (reachable_wf _ Hs) as Hwf.
  pose proof (reachable_live _ Hs) as [L1 L2 L3 L4].
  pose proof (reachable_pressure _ Hs) as Hp.
  unfold wf, pressure, evs in *. rewrite Hq in *. simpl in *.
  assert (Hu : users s = []).
  { destruct (users s) as [|c us] eqn:E; [done|].
    destruct (wf_users _ _ _ _ _ _ Hwf c ltac:(left)) as [H|H];
      by apply elem_of_nil in H. }
  assert (Hpq : put_queue s = []).
  { destruct (put_queue s) as [|c pq] eqn:E; [done|].
    specialize (Hp ltac:(done)). rewrite Hu in Hp. simpl in Hp.
    pose proof (valid_cashiers _ Hv). lia. }
  split_and!; try done.
  - destruct (setup_gen s) as [|i|] eqn:E.
    + destruct (L1 eq_refl) as [H _]. by apply elem_of_nil in H.
    + destruct (L2 i eq_refl) as [H _]. by apply elem_of_nil in H.
    + by apply L3.
  - apply Forall_lookup. intros c f Hf. specialize (L4 c f Hf).
    destruct f; simpl in L4; try done.
    + by apply elem_of_nil in L4.
    + rewrite Hpq in L4. destruct L4 as [H|H]; by apply elem_of_nil in H.
    + by apply elem_of_nil in L4.
Qed.

(** **** The generator's clock and the last departure *)

Lemma Qsum_app l l' : Qsum (l ++ l') == Qsum l + Qsum l'.
Proof. induction l as [|y l IH]; simpl; [lra|]. rewrite IH. lra. Qed.

Ltac trace_norm :=
  unfold gen_events, gen_clock, delays, last_departure;
  rewrite ?List.filter_app, ?omap_app, ?fold_left_app; simpl;
  rewrite ?app_nil_r.

Lemma gen_ok_other s s' x q :
  queue s = x :: q -> clock_ok s -> gen_ok R cfg s ->
  is_future (ev x) = false ->
  now s' = at_time x ->
  length (procs s') = length (procs s) ->
  gen_events (trace s') = gen_events (trace s) ->
  gen_clock (trace s') = gen_clock (trace s) ->
  last_departure (trace s') = last_departure (trace s) ->
  (forall y, y ∈ queue s' ->
     y ∈ q \/ is_service (ev y) = true \/
     (at_time y == at_time x /\ is_future (ev y) = false)) ->
  (forall y, y ∈ q -> y ∈ queue s') ->
  gen_ok R cfg s'.
Proof.
  intros Hq [_ Hc] [G1 G2 G3 G4 G5 G6] Hx Hn Hp He Hg Hd HQ HQ'.
  rewrite Hq in *. apply Forall_cons in Hc as [Hnx _].
  assert (Hsx : is_setup_wait (ev x) = false)
    by (destruct (ev x) as [[|?]|[|?]|?|?|? ?]; done).
  pose proof (G3 x ltac:(left) Hx) as Hxb.
  split; rewrite ?Hn, ?Hp, ?He, ?Hg, ?Hd; try done.
  - intros y Hy Hs. destruct (HQ y Hy) as [Hin|[Hin|[_ Hin]]].
    + apply G2; [by right|done].
    + destruct (ev y) as [[|?]|[|?]|?|?|? ?]; done.
    + destruct (ev y) as [[|?]|[|?]|?|?|? ?]; done.
  - intros y Hy Hf. destruct (HQ y Hy) as [Hin|[Hin|[Hin _]]].
    + apply G3; [by right|done].
    + destruct (ev y) as [[|?]|[|?]|?|?|? ?]; done.
    + by rewrite Hin.
  - lra.
  - destruct G6 as [(y & Hy & Hs)|G6]; [left|right; lra].
    exists y. split; [|done]. apply HQ'.
    apply elem_of_cons in Hy as [->|Hy]; [congruence|done].
Qed.

Lemma trigger_put_gen_queue s y :
  y ∈ queue (trigger_put cfg s) ->
  y ∈ queue s \/ (at_time y == now s /\ is_future (ev y) = false).
Proof.
  destruct (trigger_put_cases s) as [[-> _]|(h & rest & Hpq & Hcap & ->)];
    [by left|]. fields.
  intros [->|Hy]%elem_of_heappush; [right|by left]. fields. split; [lra|done].
Qed.

Lemma trigger_put_queue_mono s y :
  y ∈ queue s -> y ∈ queue (trigger_put cfg s).
Proof.
  destruct (trigger_put_cases s) as [[-> _]|(h & rest & Hpq & Hcap & ->)];
    [done|]. fields. intros Hy. apply elem_of_heappush. by right.
Qed.

Lemma trigger_put_trace s :
  now (trigger_put cfg s) = now s /\
  procs (trigger_put cfg s) = procs s /\
  gen_events (trace (trigger_put cfg s)) = gen_events (trace s) /\
  gen_clock (trace (trigger_put cfg s)) = gen_clock (trace s) /\
  last_departure (trace (trigger_put cfg s)) = last_departure (trace s).
Proof.
  destruct (trigger_put_cases s) as [[-> _]|(h & rest & Hpq & Hcap & ->)];
    [done|]. fields. by trace_norm.
Qed.

Lemma setup_loop_gen i s x q :
  queue s = x :: q -> clock_ok s -> wf cfg s -> gen_ok R cfg s ->
  is_setup_wait (ev x) = true -> setup_gen s <> SetupReturned ->
  gen_ok R cfg (setup_loop R cfg i (set_clock (at_time x) q s)).
Proof.
  intros Hq [_ Hc] Hwf [(t0 & G1 & G1') G2 G3 G4 G5 G6] Hx Hg.
  unfold wf, evs in Hwf. rewrite Hq in *. simpl in Hwf.
  apply Forall_cons in Hc as [Hnx _].
  assert (Ho : owner (ev x) = Setup)
    by (destruct (ev x) as [[|?]|[|?]|?|?|? ?]; done).
  pose proof (wf_view_own_setup _ _ _ _ _ _ _ Hwf Ho Hg) as Hown.
  assert (Hq' : forall y, y ∈ q -> is_setup_wait (ev y) = false).
  { intros y Hy. destruct (is_setup_wait (ev y)) eqn:E; [|done].
    destruct (Hown (ev y) (elem_of_map_ev _ _ Hy)).
    destruct (ev y) as [[|?]|[|?]|?|?|? ?]; done. }
  pose proof (G2 x ltac:(left) Hx) as Ht.
  set (G := gen_clock (trace s)) in *.
  set (D := last_departure (trace s)) in *.
  pose proof (Q.le_max_l G D). pose proof (Q.le_max_r G D).
  rewrite setup_loop_valid. cbv zeta. case_match; fields.
  - (* one more round *)
    set (d := - math_log R (1 - random_stream R (RANDOM_SEED cfg) (rng s)) /
              (1 / INTERVAL cfg)).
    assert (Hd : 0 <= d)
      by (apply delay_nonneg; apply (random_unit R HR)).
    assert (HG : gen_clock ((trace s ++ [Spawned (length (procs s)) (at_time x)])
                              ++ [Delayed d (at_time x)]) == G + d).
    { trace_norm. fold (delays (trace s)). rewrite Qsum_snoc. done. }
    assert (HD : last_departure
                   ((trace s ++ [Spawned (length (procs s)) (at_time x)])
                      ++ [Delayed d (at_time x)]) = D) by (by trace_norm).
    set (tr' := (trace s ++ [Spawned (length (procs s)) (at_time x)])
                  ++ [Delayed d (at_time x)]) in *.
    pose proof (Q.le_max_l (gen_clock tr') (last_departure tr')).
    pose proof (Q.le_max_r (gen_clock tr') (last_departure tr')).
    assert (HM : Qmax G D <= Qmax (gen_clock tr') (last_departure tr')).
    { apply Q.max_lub; [|rewrite <- HD at 1; done]. lra. }
    split; fields; fold tr'.
    + exists (at_time x + d). split; [|lra].
      unfold tr'. trace_norm. rewrite <- app_assoc. simpl.
      rewrite length_app. simpl. rewrite Nat.add_1_r.
      apply (arrivals_snoc _ _ _ _ t0); [exact G1|lra|done|by eexists].
    + intros y. rewrite !elem_of_heappush; fields.
      intros [->|[->|Hy]] Hs; fields; [lra|done|].
      by rewrite (Hq' y Hy) in Hs.
    + intros y. rewrite !elem_of_heappush; fields.
      intros [->|[->|Hy]] Hf; fields; [done|lra|].
      pose proof (G3 y ltac:(by right) Hf). lra.
    + lra.
    + rewrite HD. lra.
    + left. eexists. split; [apply elem_of_heappush; by left|done].
  - (* the generator returns *)
    split; fields; fold G D.
    + by exists t0.
    + intros y. rewrite !elem_of_heappush; fields.
      intros [->|Hy] Hs; fields; [done|].
      by rewrite (Hq' y Hy) in Hs.
    + intros y. rewrite !elem_of_heappush; fields.
      intros [->|Hy] Hf; fields; [lra|].
      apply G3; [by right|done].
    + lra.
    + lra.
    + right. lra.
Qed.

Lemma step_gen_ok s s' :
  clock_ok s -> wf cfg s -> gen_ok R cfg s -> step R cfg s = Next s' ->
  gen_ok R cfg s'.
Proof.
  intros Hc Hwf Hg H. step_inv H.
  - (* setup starts *)
    rewrite setup_start_valid.
    eapply (setup_loop_gen 0 s (Build_item t pr id (Initialize Setup)) q);
      [exact Hq|done|done|done|done|].
    fields. congruence.
  - (* a customer starts *)
    rewrite customer_start_eq.
    destruct (trigger_put_trace (enqueued c (set_clock t q s)))
      as (E1 & E2 & E3 & E4 & E5).
    eapply (gen_ok_other s _ _ q); [exact Hq|done|done|done| | | | | | |].
    + by rewrite E1.
    + rewrite E2. unfold enqueued; fields. by rewrite length_insert.
    + rewrite E3. unfold enqueued; fields. by trace_norm.
    + rewrite E4. unfold enqueued; fields. by trace_norm.
    + rewrite E5. unfold enqueued; fields. by trace_norm.
    + intros y [Hy|Hy]%trigger_put_gen_queue; [by left|right; by right].
    + intros y Hy. by apply trigger_put_queue_mono.
  - (* setup resumes *)
    eapply (setup_loop_gen (S i) s (Build_item t pr id (Timeout Setup)) q);
      [exact Hq|done|done|done|done|].
    fields. congruence.
  - (* a customer leaves *)
    destruct Hc as [_ Hc]. destruct Hg as [(t0 & G1 & G1') G2 G3 G4 G5 G6].
    rewrite Hq in *. apply Forall_cons in Hc as [Hnx _]. simpl in Hnx.
    unfold customer_leave, release; fields.
    set (G := gen_clock (trace s)) in *.
    set (D := last_departure (trace s)) in *.
    assert (HG : gen_clock (trace s ++ [Released c t]) = G) by (by trace_norm).
    assert (HD : last_departure (trace s ++ [Released c t]) = Qmax D t)
      by (by trace_norm).
    pose proof (Q.le_max_l G D). pose proof (Q.le_max_r G D).
    pose proof (Q.le_max_l G (Qmax D t)). pose proof (Q.le_max_r G (Qmax D t)).
    pose proof (Q.le_max_l D t). pose proof (Q.le_max_r D t).
    assert (HM : Qmax G D <= Qmax G (Qmax D t))
      by (apply Q.max_lub; lra).
    split; fields; rewrite ?HG, ?HD.
    + exists t0. rewrite length_insert. split; [|done]. by trace_norm.
    + intros y. rewrite !elem_of_heappush; fields.
      intros [->|[->|Hy]] Hs; fields; [done|done|].
      apply G2; [by right|done].
    + intros y. rewrite !elem_of_heappush; fields.
      intros [->|[->|Hy]] Hf; fields; [lra|lra|].
      pose proof (G3 y ltac:(by right) Hf). lra.
    + lra.
    + apply Q.max_lub; lra.
    + destruct G6 as [(y & Hy & Hs)|G6]; [left|right; lra].
      exists y. split; [|done]. rewrite !elem_of_heappush.
      apply elem_of_cons in Hy as [->|Hy]; [done|auto].
  - (* a customer is granted *)
    rewrite customer_granted_valid. cbv zeta.
    eapply (gen_ok_other s _ _ q); [exact Hq|done|done|done| | | | | | |];
      fields; try done.
    + by rewrite length_insert.
    + by trace_norm.
    + by trace_norm.
    + by trace_norm.
    + intros y [->|Hy]%elem_of_heappush; [right; by left|by left].
    + intros y Hy. apply elem_of_heappush. by right.
  - (* a release event *)
    destruct (trigger_put_trace (set_clock t q s))
      as (E1 & E2 & E3 & E4 & E5).
    eapply (gen_ok_other s _ _ q); [exact Hq|done|done|done| | | | | | |].
    + by rewrite E1.
    + by rewrite E2.
    + by rewrite E3.
    + by rewrite E4.
    + by rewrite E5.
    + intros y [Hy|Hy]%trigger_put_gen_queue; [by left|right; by right].
    + intros y Hy. by apply trigger_put_queue_mono.
  - (* a process event *)
    eapply (gen_ok_other s _ _ q); [exact Hq|done|done|done| | | | | | |];
      fields; try done. by left.
Qed.

Lemma initial_gen_ok : gen_ok R cfg initial.
Proof.
  split; simpl.
  - exists 0. split; [constructor|done].
  - intros x ->%list_elem_of_singleton _. simpl. unfold gen_clock. simpl. lra.
  - intros x ->%list_elem_of_singleton. done.
  - unfold gen_clock, last_departure. simpl. apply Q.le_max_l.
  - unfold last_departure. simpl. lra.
  - left. eexists. split; [left|done].
Qed.

Lemma reachable_gen_ok s : reachable R cfg s -> gen_ok R cfg s.
Proof.
  induction 1 as [|s s' Hr IH Hstep]; [apply initial_gen_ok|].
  eapply step_gen_ok; eauto using reachable_clock_ok, reachable_wf.
Qed.

(** **** The whole run *)

Lemma wsum_served_returned ps :
  Forall (fun f => f = Returned) ps -> wsum served ps = length ps.
Proof.
  unfold wsum. induction 1 as [|f ps -> _ IH]; simpl; [done|]. by rewrite IH.
Qed.

Lemma Qsum_pos l m :
  0 < m -> l <> [] -> Forall (fun x => m <= x) l -> 0 < Qsum l.
Proof.
  intros Hm Hl H. induction H as [|x l Hx H IH]; [done|]. simpl.
  destruct l as [|y l]; [simpl; lra|]. specialize (IH ltac:(done)). lra.
Qed.

Lemma run_ends fuel :
  enough cfg fuel ->
  exists s, env_run R cfg fuel initial = Idle s /\ reachable R cfg s /\
            queue s = [].
Proof.
  intros Hf. apply env_run_ends; [constructor|].
  unfold enough in Hf. unfold steps_left, wsum. simpl. lia.
Qed.

(** At the end of the run no statistic is missing and the divisor of
    line 67 is positive, so the report is produced. *)
Lemma idle_report s :
  reachable R cfg s -> queue s = [] ->
  Z.of_nat (length (wait_times s)) = CUSTOMERS cfg /\
  Z.of_nat (length (service_times s)) = CUSTOMERS cfg /\
  0 < busy_time s /\
  busy_time s <= now s * inject_Z (CASHIERS cfg) /\
  report cfg s =
    Done {| entities_served := CUSTOMERS cfg;
            avg_wait := Qsum (wait_times s) / Qlen (wait_times s);
            avg_service := Qsum (service_times s) / Qlen (service_times s);
            total_time := now s;
            utilization :=
              busy_time s / (now s * inject_Z (CASHIERS cfg)) * 100;
            waits := wait_times s;
            services := service_times s |}.
Proof.
  intros Hs Hq.
  destruct (idle_all_returned _ Hs Hq) as (Hn & Hr & _ & _).
  destruct (reachable_served_ok _ Hs) as [Hw Hsv].
  rewrite (wsum_served_returned _ Hr) in Hw.
  pose proof (reachable_stats_ok _ HR Hs) as [_ Hb _ Hrange].
  pose proof (reachable_load_ok (valid_cashiers _ Hv) _ Hs) as Hl.
  unfold load_ok in Hl. rewrite Hq in Hl. simpl in Hl.
  pose proof (valid_customers _ Hv) as Hc.
  assert (Hpos : 0 < busy_time s).
  { rewrite Hb.
    apply (Qsum_pos _ (Qmin (fst (SERVICE_TIME cfg)) (snd (SERVICE_TIME cfg)))).
    - pose proof (valid_service_lo _ Hv). pose proof (valid_service_hi _ Hv).
      destruct (Q.min_spec (fst (SERVICE_TIME cfg)) (snd (SERVICE_TIME cfg)))
        as [[_ Hm]|[_ Hm]]; rewrite Hm; done.
    - intros Hnil. rewrite Hnil in Hsv. simpl in Hsv. lia.
    - eapply Forall_impl; [exact Hrange|]. by intros x [? _]. }
  split_and!; try lia; try done; [lra|].
  unfold report.
  destruct (wait_times s) as [|w ws] eqn:Ew; [simpl in *; lia|].
  destruct (service_times s) as [|v vs] eqn:Ev; [simpl in *; lia|].
  destruct (Qeq_bool _ 0) eqn:E; [|done].
  apply Qeq_bool_iff in E. lra.
Qed.

Lemma run_report fuel :
  enough cfg fuel ->
  exists s, env_run R cfg fuel initial = Idle s /\ reachable R cfg s /\
            queue s = [] /\ run_simulation R cfg fuel = report cfg s.
Proof.
  intros Hf. destruct (run_ends fuel Hf) as (s & Hrun & Hs & Hq).
  exists s. split_and!; try done. unfold run_simulation. by rewrite Hrun.
Qed.

Lemma run_done fuel :
  enough cfg fuel -> exists r, run_simulation R cfg fuel = Done r.
Proof.
  intros Hf. destruct (run_report fuel Hf) as (s & _ & Hs & Hq & ->).
  destruct (idle_report s Hs Hq) as (_ & _ & _ & _ & ->). by eexists.
Qed.


(** C6, as the program has it.  The generator first spawns a customer and
    only then draws the exponential delay (mean [INTERVAL]) and waits for
    it: customer 0 is spawned at time 0 before any delay is drawn, every
    later customer when the delay drawn after its predecessor has passed,
    and one more delay follows the last spawn; when the run ends there
    were exactly [CUSTOMERS] such rounds. *)
Theorem generator_spawns_then_waits :
  (forall s, reachable R cfg s ->
     exists t, arrivals R cfg (gen_events (trace s)) (length (procs s)) t) /\
  (forall fuel, enough cfg fuel ->
     exists s t, env_run R cfg fuel initial = Idle s /\
                 arrivals R cfg (gen_events (trace s))
                   (Z.to_nat (CUSTOMERS cfg)) t).
Proof.
  split.
  - intros s Hs. destruct (gen_shape _ _ _ (reachable_gen_ok _ Hs))
      as (t & Ht & _). by exists t.
  - intros fuel Hf. destruct (run_ends fuel Hf) as (s & Hrun & Hs & Hq).
    destruct (gen_shape _ _ _ (reachable_gen_ok _ Hs)) as (t & Ht & _).
    destruct (idle_all_returned _ Hs Hq) as (Hn & _).
    exists s, t. split; [done|]. rewrite <- Hn, Nat2Z.id. done.
Qed.

Lemma arrivals_delays l n t :
  arrivals R cfg l n t -> length (delays l) = n /\ t == gen_clock l.
Proof.
  induction 1 as [|l n t t' d Ha [IH1 IH2] Ht Hd _].
  - split; [done|]. unfold gen_clock. simpl. lra.
  - unfold gen_clock, delays in *. rewrite omap_app, length_app. simpl.
    split; [lia|]. rewrite Qsum_snoc. lra.
Qed.

Lemma delays_gen_events tr : delays (gen_events tr) = delays tr.
Proof.
  unfold delays, gen_events. induction tr as [|o tr IH]; [done|].
  destruct o; simpl in *; try done. by f_equal.
Qed.

(** The general half of C9: the total time of a completed run is the
    later of the generator's finish time (the sum of its [CUSTOMERS]
    delays) and the last departure. *)
Lemma elapsed_time fuel :
  enough cfg fuel ->
  exists s r, env_run R cfg fuel initial = Idle s /\
              run_simulation R cfg fuel = Done r /\
              length (delays (trace s)) = Z.to_nat (CUSTOMERS cfg) /\
              total_time r ==
                Qmax (gen_clock (trace s)) (last_departure (trace s)).
Proof.
  intros Hf. destruct (run_report fuel Hf) as (s & Hrun & Hs & Hq & ->).
  destruct (idle_report s Hs Hq) as (_ & _ & _ & _ & ->).
  destruct (reachable_gen_ok _ Hs) as [(t & G1 & _) _ _ G4 G5 G6].
  destruct (idle_all_returned _ Hs Hq) as (Hn & _).
  exists s. eexists. split_and!; [done|done| |]; simpl.
  - apply arrivals_delays in G1 as [G1 _].
    rewrite delays_gen_events in G1. rewrite G1, <- Hn, Nat2Z.id. done.
  - destruct G6 as [(x & Hx & _)|G6];
      [rewrite Hq in Hx; by apply elem_of_nil in Hx|].
    apply Qle_antisym; [done|]. apply Q.max_lub; done.
Qed.

End Valid.

End Runs.

(* ------------------------------------------------------------------ *)
(** ** Reproducibility *)

Section Reproducible.

Variables R1 R2 : PyRandom.
Variable cfg : config.

Hypothesis same_stream :
  forall k, random_stream R1 (RANDOM_SEED cfg) k =
            random_stream R2 (RANDOM_SEED cfg) k.
Hypothesis same_log : forall x, math_log R1 x = math_log R2 x.



End Reproducible.




(* ------------------------------------------------------------------ *)
(** ** Utilization *)


(* ------------------------------------------------------------------ *)
(** ** Configurations *)

Lemma steady_random_ok : PyRandomOK steady_random.
Proof. split; intros; simpl; lra. Qed.

Lemma three_customers_valid : valid three_customers.
Proof. split; simpl; lia || lra. Qed.


Lemma three_customers_midway_reachable :
  reachable steady_random three_customers three_customers_midway.
Proof.
  apply (after_reachable _ _ 12 initial); [constructor|].
  vm_compute. reflexivity.
Qed.

(** C7, as the program has it.  The program validates nothing itself.  A
    capacity that is not positive is refused by [simpy.Resource] when
    [setup] first runs (ValueError); a count that is not positive lets the
    run end with no customer and [statistics.mean] fails (StatisticsError);
    an interval of zero fails in [1.0 / interval] after the first customer
    was created (ZeroDivisionError).  Any other fault is not detected: a
    configuration with positive capacity, count, interval and service
    bounds completes, also when the bounds are given as (max, min). *)
Theorem configuration_errors R cfg fuel :
  ((CASHIERS cfg <= 0)%Z -> (2 <= fuel)%nat ->
   run_simulation R cfg fuel = Failed ValueError) /\
  ((1 <= CASHIERS cfg)%Z -> (CUSTOMERS cfg <= 0)%Z -> (3 <= fuel)%nat ->
   run_simulation R cfg fuel = Failed StatisticsError) /\
  ((1 <= CASHIERS cfg)%Z -> (1 <= CUSTOMERS cfg)%Z -> INTERVAL cfg == 0 ->
   (3 <= fuel)%nat ->
   run_simulation R cfg fuel = Failed ZeroDivisionError) /\
  (PyRandomOK R -> valid cfg -> enough cfg fuel ->
   exists r, run_simulation R cfg fuel = Done r).
Proof.
  split_and!.
  - intros Hc Hf. destruct fuel as [|[|fuel]]; try lia.
    unfold run_simulation. cbn [env_run]. unfold step at 1. simpl.
    unfold setup_start. destruct (Z.leb_spec (CASHIERS cfg) 0); [|lia].
    unfold step. simpl. reflexivity.
  - intros Hc Hn Hf. destruct fuel as [|[|[|fuel]]]; try lia.
    unfold run_simulation. cbn [env_run]. unfold step at 1. simpl.
    unfold setup_start. destruct (Z.leb_spec (CASHIERS cfg) 0); [lia|].
    unfold setup_loop. destruct (Z.ltb_spec (Z.of_nat 0) (CUSTOMERS cfg));
      [lia|].
    unfold step. simpl. reflexivity.
  - intros Hc Hn Hi Hf. destruct fuel as [|[|[|fuel]]]; try lia.
    unfold run_simulation. cbn [env_run]. unfold step at 1. simpl.
    unfold setup_start. destruct (Z.leb_spec (CASHIERS cfg) 0); [lia|].
    unfold setup_loop. destruct (Z.ltb_spec (Z.of_nat 0) (CUSTOMERS cfg));
      [|lia].
    apply Qeq_bool_iff in Hi. rewrite Hi.
    unfold step at 1. simpl. unfold customer_start, request, trigger_put.
    simpl. destruct (Z.ltb_spec (Z.of_nat 0) (CASHIERS cfg)); [|lia].
    unfold step. simpl. reflexivity.
  - intros HR Hv Hf. by apply run_done.
Qed.

Lemma enough_three_customers : enough three_customers 21.
Proof. unfold enough. simpl. lia. Qed.

(* ------------------------------------------------------------------ *)
(** ** The scenario of three customers and one cashier *)

(** C8, as the program has it.  With one cashier and three customers
    arriving at 0, 1 and 2, each served for 3 time units, the recorded
    waits are 0, 2 and 4 and the run ends at time 9, when the third
    customer leaves (0 + 3 + 3 + 3). *)
Theorem three_customers_scenario :
  exists s r,
    env_run steady_random three_customers 21 initial = Idle s /\
    run_simulation steady_random three_customers 21 = Done r /\
    Forall2 Qeq (arrival_times (trace s)) [0; 1; 2] /\
    Forall2 Qeq (services r) [3; 3; 3] /\
    Forall2 Qeq (waits r) [0; 2; 4] /\
    total_time r == 9.
Proof.
  do 2 eexists. split; [vm_compute; reflexivity|].
  split; [vm_compute; reflexivity|].
  split_and!; repeat constructor; reflexivity.
Qed.

(** C8 as stated fails: the run does not end at time 8. *)
Lemma three_customers_do_not_end_at_8 :
  exists r, run_simulation steady_random three_customers 21 = Done r /\
            ~ total_time r == 8.
Proof.
  eexists. split; [vm_compute; reflexivity|]. simpl. intros H. discriminate H.
Qed.

(* ------------------------------------------------------------------ *)
(** ** Total time *)

(** C9.  When the run returns, the total time is the later of the
    generator's own finish time (the sum of its [CUSTOMERS] delays, the
    last of them awaited after the last customer was spawned) and the last
    departure; and the total time can exceed the last departure: with one
    customer served for 3 and a delay of 10 the run ends at 10. *)
Theorem total_time_is_later_of_generator_and_departure :
  (forall R cfg fuel,
     PyRandomOK R -> valid cfg -> enough cfg fuel ->
     exists s r,
       env_run R cfg fuel initial = Idle s /\
       run_simulation R cfg fuel = Done r /\
       length (delays (trace s)) = Z.to_nat (CUSTOMERS cfg) /\
       total_time r ==
         Qmax (gen_clock (trace s)) (last_departure (trace s))) /\
  (exists s r,
     env_run steady_random late_generator 9 initial = Idle s /\
     run_simulation steady_random late_generator 9 = Done r /\
     last_departure (trace s) == 3 /\ total_time r == 10).
Proof.
  split.
  - intros R cfg fuel HR Hv Hf. by apply elapsed_time.
  - do 2 eexists. split; [vm_compute; reflexivity|].
    split; [vm_compute; reflexivity|]. split; reflexivity.
Qed.

(* ------------------------------------------------------------------ *)
(** ** Where the program differs from the specification's wording *)

(** C6 as stated fails: the first customer is spawned before any delay is
    drawn. *)
Lemma first_customer_has_no_delay :
  reachable steady_random app_config first_round /\
  ~ delay_before_every_spawn (trace first_round).
Proof.
  split.
  - apply (after_reachable _ _ 1 initial); [constructor|].
    vm_compute. reflexivity.
  - intros H.
    assert (E : exists d, trace first_round =
                          [] ++ Spawned 0 0 :: [Delayed d 0])
      by (eexists; vm_compute; reflexivity).
    destruct E as [d E]. destruct (H _ _ _ _ E) as (d' & t' & Hin).
    by apply elem_of_nil in Hin.
Qed.

(** C7 as stated fails: service bounds given as (max, min) are not
    rejected, the run completes. *)
Lemma swapped_bounds_accepted :
  invalid_configuration swapped_bounds /\
  exists r, run_simulation steady_random swapped_bounds 21 = Done r.
Proof.
  split.
  - do 3 right. simpl. lra.
  - eexists. vm_compute. reflexivity.
Qed.

(* ------------------------------------------------------------------ *)
(** ** The theorems at work *)


Lemma capacity_invariant_witness :
  (0 <= held (trace three_customers_midway) <= CASHIERS three_customers)%Z /\
  held (trace three_customers_midway) =
  Z.of_nat (length (users three_customers_midway)).
Proof.
  apply (capacity_invariant steady_random three_customers
           three_customers_midway);
    [simpl; lia|apply three_customers_midway_reachable].
Defined.




Lemma generator_spawns_then_waits_witness :
  (forall s, reachable steady_random three_customers s ->
     exists t, arrivals steady_random three_customers (gen_events (trace s))
                 (length (procs s)) t) /\
  (forall fuel, enough three_customers fuel ->
     exists s t, env_run steady_random three_customers fuel initial = Idle s /\
                 arrivals steady_random three_customers
                   (gen_events (trace s))
                   (Z.to_nat (CUSTOMERS three_customers)) t).
Proof.
  apply (generator_spawns_then_waits steady_random three_customers
           steady_random_ok three_customers_valid).
Defined.

Lemma configuration_errors_witness :
  exists r, run_simulation steady_random three_customers 21 = Done r.
Proof.
  apply (proj2 (proj2 (proj2
           (configuration_errors steady_random three_customers 21))));
    [apply steady_random_ok|apply three_customers_valid
    |apply enough_three_customers].
Defined.

Lemma total_time_witness :
  exists s r,
    env_run steady_random three_customers 21 initial = Idle s /\
    run_simulation steady_random three_customers 21 = Done r /\
    length (delays (trace s)) = Z.to_nat (CUSTOMERS three_customers) /\
    total_time r == Qmax (gen_clock (trace s)) (last_departure (trace s)).
Proof.
  apply (proj1 total_time_is_later_of_generator_and_departure
           steady_random three_customers 21%nat steady_random_ok
           three_customers_valid enough_three_customers).
Defined.


(* ------------------------------------------------------------------ *)
(** ** The order of events on the heap *)

(** An urgent event scheduled now goes to the front of a heap of normal
    events. *)
Lemma heappush_urgent x q :
  priority x = URGENT ->
  Forall (fun y => at_time x <= at_time y /\ priority y = NORMAL) q ->
  heappush x q = x :: q.
Proof.
  intros Hx Hq. destruct q as [|y q]; [done|]. simpl.
  apply Forall_cons in Hq as [[Ht Hp] _].
  unfold key_lt. rewrite Hx, Hp.
  destruct (at_time x ?= at_time y) eqn:E; [done|done|].
  apply Qgt_alt in E. lra.
Qed.

(** A normal event goes behind an urgent one that is not later. *)
Lemma heappush_behind x y q :
  at_time y <= at_time x -> priority y = URGENT -> priority x = NORMAL ->
  heappush x (y :: q) = y :: heappush x q.
Proof.
  intros Ht Hy Hx. simpl. unfold key_lt. rewrite Hx, Hy.
  destruct (at_time x ?= at_time y) eqn:E; [done| |done].
  apply Qlt_alt in E. lra.
Qed.

Lemma omap_cons {A B} (f : A -> option B) x l :
  omap f (x :: l) =
  match f x with Some y => y :: omap f l | None => omap f l end.
Proof. done. Qed.

Lemma omap_heappush_None {A} (f : event -> option A) x q :
  f (ev x) = None -> omap f (map ev (heappush x q)) = omap f (map ev q).
Proof.
  intros Hx. induction q as [|y q IH]; cbn [heappush map].
  - by rewrite omap_cons, Hx.
  - destruct (key_lt x y); cbn [map]; rewrite !omap_cons.
    + by rewrite Hx.
    + by rewrite IH.
Qed.

Lemma omap_map_ev_nil {A} (f : event -> option A) q :
  Forall (fun y => f (ev y) = None) q -> omap f (map ev q) = [].
Proof.
  induction 1 as [|y q Hy _ IH]; cbn [map]; [done|].
  by rewrite omap_cons, Hy.
Qed.

(** A normal event scheduled now, with the next event id, goes behind
    every event of the present time: the events scheduled without delay
    keep the order in which they were scheduled. *)
Lemma omap_heappush_now {A} (f : event -> option A) n k e q :
  StronglySorted time_le q -> Forall (fun y => n <= at_time y) q ->
  heap_view n k q ->
  (forall y, y ∈ q -> f (ev y) <> None -> is_timeout (ev y) = false) ->
  omap f (map ev (heappush {| at_time := n + 0; priority := NORMAL;
                              eid := k; ev := e |} q)) =
  omap f (map ev q) ++ omap f [e].
Proof.
  intros Hs Hn Hh Hf. induction Hs as [|y q Hs IH Hy]; [done|].
  apply Forall_cons in Hn as [Hny Hn]. apply Forall_cons in Hh as [Hhy Hh].
  cbn [heappush]. destruct (key_lt _ y) eqn:K.
  - assert (Hlt : n < at_time y).
    { unfold key_lt in K. cbn [at_time priority eid] in K.
      destruct (n + 0 ?= at_time y) eqn:E; [|apply Qlt_alt in E; lra|done].
      destruct Hhy as (Hp & He & _). rewrite Hp in K.
      destruct (prio_of (ev y)) as [|[|p]] eqn:Hpr; simpl in K;
        try done.
      - apply Nat.ltb_lt in K. lia.
      - by destruct (ev y). }
    assert (Hnone : Forall (fun z => f (ev z) = None) (y :: q)).
    { apply Forall_forall. intros z Hz.
      destruct (f (ev z)) eqn:Hfz; [exfalso|done].
      assert (Hzt : at_time y <= at_time z).
      { apply elem_of_cons in Hz as [->|Hz]; [lra|].
        rewrite Forall_forall in Hy. by apply Hy. }
      assert (Hz' : at_time z == n).
      { assert (Hv : heap_view n k (y :: q)) by (by constructor).
        unfold heap_view in Hv. rewrite Forall_forall in Hv.
        apply (Hv z Hz). apply Hf; [done|congruence]. }
      lra. }
    change (map ev ({| at_time := n + 0; priority := NORMAL; eid := k;
                       ev := e |} :: y :: q))
      with ([e] ++ map ev (y :: q)).
    by rewrite omap_app, (omap_map_ev_nil f (y :: q)), app_nil_r.
  - cbn [map]. rewrite !omap_cons, IH; [by destruct (f (ev y))|done|done|].
    intros z Hz. apply Hf. by right.
Qed.

Lemma clock_ok_pop x q s :
  queue s = x :: q -> clock_ok s -> clock_ok (set_clock (at_time x) q s).
Proof.
  intros Hq [Hs Hn]. rewrite Hq in *.
  apply StronglySorted_inv in Hs as [Hs Hhd]. split; fields; [done|exact Hhd].
Qed.

Lemma heap_view_push n k e pr d q :
  pr = prio_of e -> (is_timeout e = false -> d == 0) -> heap_view n k q ->
  heap_view n (S k)
    (heappush {| at_time := n + d; priority := pr; eid := k; ev := e |} q).
Proof.
  intros -> Hd Hq. unfold heap_view. rewrite heappush_perm. constructor; fields.
  - split_and!; [done|lia|]. intros He. rewrite (Hd He). lra.
  - eapply Forall_impl; [exact Hq|]. intros y (H1 & H2 & H3).
    split_and!; [done|lia|done].
Qed.

Lemma heap_ok_pop x q s :
  queue s = x :: q -> clock_ok s -> heap_ok s ->
  heap_ok (set_clock (at_time x) q s).
Proof.
  intros Hq [Hs Hn] Hh. unfold heap_ok, heap_view in *. fields.
  rewrite Hq in *.
  apply StronglySorted_inv in Hs as [_ Hhd]. apply Forall_cons in Hn as [Hx _].
  apply Forall_cons in Hh as [_ Hh]. rewrite Forall_forall in Hh, Hhd.
  apply Forall_forall. intros y Hy. destruct (Hh y Hy) as (H1 & H2 & H3).
  split_and!; [done|done|]. intros Ht. specialize (H3 Ht).
  specialize (Hhd y Hy). unfold time_le in Hhd. lra.
Qed.

Ltac heap_push :=
  repeat (apply heap_view_push;
          [reflexivity | first [by intros | intros; lra] | ]).

Section Order.

Variable R : PyRandom.
Variable cfg : config.

Lemma step_heap_ok s s' :
  clock_ok s -> heap_ok s -> step R cfg s = Next s' -> heap_ok s'.
Proof.
  intros Hc Hh H. step_inv H.
  all: pose proof (heap_ok_pop _ _ _ Hq Hc Hh) as Hp; clear Hh;
    unfold heap_ok in *; fields.
  all: ops; fields; repeat case_match; simplify_eq; fields; heap_push; done.
Qed.

Lemma initial_heap_ok : heap_ok initial.
Proof.
  unfold heap_ok, heap_view. simpl. constructor; [|constructor].
  simpl. split_and!; [done|lia|intros _; lra].
Qed.

Lemma reachable_heap_ok s : reachable R cfg s -> heap_ok s.
Proof.
  induction 1 as [|s s' Hr IH Hstep]; [apply initial_heap_ok|].
  eapply step_heap_ok; [by eapply reachable_clock_ok|done|done].
Qed.

End Order.

(** *** Customers start in the order of their creation *)

Lemma not_elem_of_insert {A} (l : list A) i x y :
  x ∉ l -> x <> y -> x ∉ <[i:=y]> l.
Proof.
  intros Hl Hy [j Hj]%list_elem_of_lookup.
  apply list_lookup_insert_Some in Hj as [(-> & -> & _)|[_ Hj]]; [done|].
  apply Hl. by eapply list_elem_of_lookup_2.
Qed.

Lemma arrive_settled x q ps enq :
  arrive_view (x :: q) ps enq ->
  (forall c, ev x <> Initialize (Customer c)) -> settled ps enq.
Proof.
  intros [H|(x' & q' & ps' & Hq & _ & Hx & _)] Hne; [done|].
  simplify_eq. by destruct (Hne (length ps')).
Qed.

Lemma arrive_start x q ps enq c :
  arrive_view (x :: q) ps enq -> ev x = Initialize (Customer c) ->
  ps !! c = Some AtStart ->
  exists ps', ps = ps' ++ [AtStart] /\ c = length ps' /\ settled ps' enq.
Proof.
  intros [[_ H]|(x' & q' & ps' & Hq & -> & Hx & Hs)] Hev Hc.
  - destruct H. by eapply list_elem_of_lookup_2.
  - simplify_eq. rewrite Hev in Hx. simplify_eq. by exists ps'.
Qed.

Lemma no_urgent cap e E g ps us pq :
  wf_view cap (e :: E) g ps us pq -> owner e = Setup ->
  g <> SetupReturned -> AtStart ∉ ps ->
  forall e', e' ∈ E -> prio_of e' = NORMAL.
Proof.
  intros Hwf Ho Hg Hps e' He'. destruct e' as [[|c]| | | |]; try done.
  - by destruct (wf_view_own_setup _ _ _ _ _ _ _ Hwf Ho Hg _ He').
  - destruct Hps. eapply list_elem_of_lookup_2.
    apply (wf_evs _ _ _ _ _ _ Hwf (Initialize (Customer c))). by right.
Qed.

Section Arrive.

Variable R : PyRandom.
Variable cfg : config.

Lemma setup_loop_arrive i s :
  settled (procs s) (enqueue_order (trace s)) ->
  Forall (fun y => now s <= at_time y /\ priority y = NORMAL) (queue s) ->
  arrive_ok (setup_loop R cfg i s).
Proof.
  intros Hs Hq.
  assert (Hq' : Forall (fun y => now s + 0 <= at_time y /\
                                 priority y = NORMAL) (queue s)).
  { eapply Forall_impl; [exact Hq|]. simpl. intros y [? ?].
    split; [lra|done]. }
  unfold arrive_ok, arrive_view, enqueue_order in *.
  ops; fields; repeat case_match; simplify_eq; fields.
  4: by left.
  all: right; rewrite ?omap_app; simpl; rewrite ?app_nil_r.
  all: rewrite (heappush_urgent _ (queue s)) by (done || exact Hq').
  all: rewrite heappush_behind;
    [|simpl; try lra; match goal with H : Qltb _ _ = false |- _ =>
        apply Qltb_false in H; lra end|done|done].
  all: by eexists _, _, (procs s).
Qed.

Lemma trigger_put_settled s :
  settled (procs s) (enqueue_order (trace s)) ->
  settled (procs (trigger_put cfg s))
    (enqueue_order (trace (trigger_put cfg s))).
Proof.
  destruct (trigger_put_cases cfg s) as [[-> _]|(c & rest & _ & _ & ->)];
    [done|].
  fields. unfold enqueue_order. by rewrite omap_app, app_nil_r.
Qed.

Lemma step_arrive_ok s s' :
  wf cfg s -> clock_ok s -> heap_ok s -> arrive_ok s ->
  step R cfg s = Next s' -> arrive_ok s'.
Proof.
  intros Hwf Hc Hh Ha H. unfold arrive_ok in Ha.
  step_inv H.
  all: try (apply arrive_settled in Ha; [|done]).
  all: pose proof (clock_ok_pop _ _ _ Hq Hc) as [_ Hcp].
  all: pose proof (heap_ok_pop _ _ _ Hq Hc Hh) as Hhp.
  all: unfold wf, evs in Hwf; rewrite Hq in Hwf; simpl in Hwf.
  all: unfold heap_ok, heap_view in Hhp; fields.
  - (* setup starts *)
    assert (Hn : Forall (fun y => t <= at_time y /\ priority y = NORMAL) q).
    { rewrite Forall_forall in Hcp, Hhp. apply Forall_forall. intros y Hy.
      split; [by apply Hcp|]. destruct (Hhp y Hy) as [-> _].
      eapply no_urgent; [exact Hwf|done|congruence|by destruct Ha|].
      by apply elem_of_map_ev. }
    unfold setup_start. case_match.
    + left. exact Ha.
    + by apply setup_loop_arrive.
  - (* a customer starts *)
    destruct (arrive_start _ _ _ _ c Ha eq_refl H0)
      as (ps' & Hps & -> & Henq & Hns).
    rewrite customer_start_eq. left. apply trigger_put_settled.
    unfold enqueued, enqueue_order in *; fields. rewrite Hps.
    rewrite !omap_app. simpl. split.
    + rewrite length_insert, length_app, Henq. simpl.
      by rewrite app_nil_r, Nat.add_1_r, seq_S.
    + rewrite insert_app_r_alt, Nat.sub_diag by done. simpl.
      by intros [?|?%list_elem_of_singleton]%elem_of_app.
  - (* setup resumes *)
    assert (Hn : Forall (fun y => t <= at_time y /\ priority y = NORMAL) q).
    { rewrite Forall_forall in Hcp, Hhp. apply Forall_forall. intros y Hy.
      split; [by apply Hcp|]. destruct (Hhp y Hy) as [-> _].
      eapply no_urgent; [exact Hwf|done|congruence|by destruct Ha|].
      by apply elem_of_map_ev. }
    by apply setup_loop_arrive.
  - (* a customer leaves *)
    left. destruct Ha as [Ha1 Ha2]. unfold enqueue_order. ops; fields.
    rewrite omap_app, app_nil_r. split; [by rewrite length_insert|].
    by apply not_elem_of_insert.
  - (* a customer is granted *)
    left. destruct Ha as [Ha1 Ha2]. unfold enqueue_order.
    ops; fields; case_match; fields; rewrite ?omap_app; simpl;
      rewrite ?app_nil_r; (split; [by rewrite length_insert|]);
      by apply not_elem_of_insert.
  - (* a release event *)
    left. by apply trigger_put_settled.
  - (* a process event *)
    by left.
Qed.

Lemma initial_arrive_ok : arrive_ok initial.
Proof. left. split; [done|]. by intros ?%elem_of_nil. Qed.

Lemma reachable_arrive_ok s : reachable R cfg s -> arrive_ok s.
Proof.
  induction 1 as [|s s' Hr IH Hstep]; [apply initial_arrive_ok|].
  eapply step_arrive_ok; [by eapply reachable_wf|by eapply reachable_clock_ok
    |by eapply reachable_heap_ok|done|done].
Qed.

End Arrive.

(** *** Granted customers resume in the order of the grants *)

Section Requests.

Variable R : PyRandom.
Variable cfg : config.

Lemma trigger_put_req s :
  clock_ok s -> heap_ok s -> req_ok s -> req_ok (trigger_put cfg s).
Proof.
  intros [Hs Hn] Hh Hr.
  destruct (trigger_put_cases cfg s) as [[-> _]|(c & rest & _ & _ & ->)];
    [done|].
  unfold req_ok, evs, grant_order, wait_order in *; fields.
  rewrite !omap_app. simpl. rewrite app_nil_r.
  rewrite (omap_heappush_now req_of (now s) (next_eid s));
    [|done|done|exact Hh|].
  - simpl. by rewrite Hr, app_assoc.
  - intros y _ Hy. by destruct (ev y).
Qed.

Lemma step_req_ok s s' :
  clock_ok s -> heap_ok s -> req_ok s -> step R cfg s = Next s' -> req_ok s'.
Proof.
  intros Hc Hh Hr H. step_inv H.
  all: pose proof (clock_ok_pop _ _ _ Hq Hc) as Hcp.
  all: pose proof (heap_ok_pop _ _ _ Hq Hc Hh) as Hhp.
  all: unfold req_ok, evs in Hr; rewrite Hq in Hr; cbn [map ev] in Hr;
    rewrite omap_cons in Hr; cbn [req_of] in Hr.
  2: { rewrite customer_start_eq. apply trigger_put_req; [exact Hcp|exact Hhp|].
       unfold req_ok, evs, enqueued, grant_order, wait_order in *; fields.
       rewrite !omap_app. simpl. by rewrite !app_nil_r. }
  5: { by apply trigger_put_req. }
  all: unfold req_ok, evs, grant_order, wait_order in *.
  all: ops; fields; repeat case_match; simplify_eq; fields.
  all: rewrite ?omap_heappush_None by done.
  all: rewrite ?omap_app; simpl; rewrite ?app_nil_r; try done.
  all: by rewrite Hr, <- app_assoc.
Qed.

Lemma reachable_req_ok s : reachable R cfg s -> req_ok s.
Proof.
  induction 1 as [|s s' Hr IH Hstep]; [done|].
  eapply step_req_ok; [by eapply reachable_clock_ok
    |by eapply reachable_heap_ok|done|done].
Qed.

End Requests.

(** *** The statistics are listed by customer *)

Lemma seq_prefix a k (l l' : list nat) :
  seq a k = l ++ l' -> l = seq a (length l).
Proof.
  revert a k. induction l as [|x l IH]; intros a [|k] H; simpl in *;
    try discriminate; try done.
  injection H as -> H. f_equal. by eapply IH.
Qed.


Lemma wait_order_waits tr : wait_order tr = (waits_of tr).*1.
Proof.
  unfold wait_order, waits_of. induction tr as [|o tr IH]; [done|].
  rewrite !omap_cons. destruct o; simpl; try done. by f_equal.
Qed.

Lemma waited_waits tr : omap waited_of tr = (waits_of tr).*2.
Proof.
  unfold waits_of. induction tr as [|o tr IH]; [done|].
  rewrite !omap_cons. destruct o; simpl; try done. by f_equal.
Qed.

Section Listed.

Variable R : PyRandom.
Variable cfg : config.

Lemma step_waits_listed s s' :
  wait_times s = omap waited_of (trace s) -> step R cfg s = Next s' ->
  wait_times s' = omap waited_of (trace s').
Proof.
  intros Hw H. step_inv H.
  all: ops; fields; repeat case_match; simplify_eq; fields.
  all: rewrite ?omap_app; simpl; rewrite ?app_nil_r; try done.
  all: by rewrite Hw.
Qed.

Lemma reachable_waits_listed s :
  reachable R cfg s -> wait_times s = omap waited_of (trace s).
Proof.
  induction 1 as [|s s' Hr IH Hstep]; [done|by eapply step_waits_listed].
Qed.

(** The customers in the order of their creation: those that recorded a
    wait, those granted and not yet resumed, those waiting, and then those
    that have not arrived. *)
Lemma served_sequence s :
  reachable R cfg s ->
  exists k, seq 0 k =
            wait_order (trace s) ++ omap req_of (evs s) ++ put_queue s.
Proof.
  intros Hs. pose proof (reachable_fifo_ok _ _ _ Hs) as Hf.
  pose proof (reachable_req_ok _ _ _ Hs) as Hr.
  pose proof (reachable_arrive_ok _ _ _ Hs) as Ha.
  unfold fifo_ok, req_ok, arrive_ok in *. rewrite Hr in Hf.
  rewrite <- app_assoc in Hf. rewrite <- Hf.
  destruct Ha as [[-> _]|(x & q & ps' & _ & _ & _ & -> & _)]; by eexists.
Qed.

Lemma wait_order_seq s :
  reachable R cfg s ->
  wait_order (trace s) = seq 0 (length (wait_times s)).
Proof.
  intros Hs. destruct (served_sequence s Hs) as [k Hk].
  apply seq_prefix in Hk. rewrite Hk at 1. f_equal.
  rewrite (reachable_waits_listed s Hs), wait_order_waits, waited_waits.
  by rewrite !length_fmap.
Qed.

Lemma waits_zip s :
  reachable R cfg s ->
  waits_of (trace s) = zip (seq 0 (length (wait_times s))) (wait_times s).
Proof.
  intros Hs. rewrite <- (wait_order_seq s Hs).
  rewrite (reachable_waits_listed s Hs) at 1.
  by rewrite wait_order_waits, waited_waits, zip_fst_snd.
Qed.

Lemma wait_lookup s c w :
  reachable R cfg s -> wait_times s !! c = Some w <-> Waited c w ∈ trace s.
Proof.
  intros Hs. pose proof (waits_zip s Hs) as Hw.
  assert (Hiff : Waited c w ∈ trace s <-> (c, w) ∈ waits_of (trace s)).
  { unfold waits_of. rewrite list_elem_of_omap. split.
    - intros H. by exists (Waited c w).
    - intros (o & Ho & Heq). destruct o; simpl in Heq; by simplify_eq. }
  rewrite Hiff, Hw, list_elem_of_lookup. split.
  - intros H. exists c. apply lookup_zip_Some. split; [|done].
    apply lookup_seq. split; [done|]. by eapply lookup_lt_Some.
  - intros [i [[-> _]%lookup_seq Hi]%lookup_zip_Some]. done.
Qed.

(** X1.  The i-th entry of [wait_times] is the wait of the i-th customer
    created (the one named "Customer i+1"): the waits recorded so far, with
    the customers that recorded them, are the entries of [wait_times]
    paired with 0, 1, 2, ...; [service_times] has an entry for the same
    customers; and a wait stands at index [c] exactly if customer [c]
    recorded it. *)
Theorem waits_listed_by_customer s :
  reachable R cfg s ->
  waits_of (trace s) = zip (seq 0 (length (wait_times s))) (wait_times s) /\
  length (service_times s) = length (wait_times s) /\
  forall c w, wait_times s !! c = Some w <-> Waited c w ∈ trace s.
Proof.
  intros Hs. split_and!; [by apply waits_zip| |].
  - apply (reachable_served_ok R cfg s Hs).
  - intros c w. by apply wait_lookup.
Qed.

End Listed.

(* ------------------------------------------------------------------ *)
(** ** The record of a customer *)

Lemma elem_of_history c o tr :
  o ∈ history c tr <-> o ∈ tr /\ about c o = true.
Proof.
  unfold history. rewrite !list_elem_of_In, List.filter_In. done.
Qed.

Lemma customer_record s c :
  hist_inv s ->
  exists t0 a g w r k,
    history c (trace s) = take k (record c t0 a g w r) /\
    ((5 <= k)%nat -> w == g - a) /\
    (procs s !! c = None -> k = 0%nat) /\
    (procs s !! c = Some AtStart -> k = 1%nat) /\
    (forall a', procs s !! c = Some (AtRequest a') ->
       a' = a /\ (k = 3%nat /\ c ∈ put_queue s \/ k = 4%nat /\ c ∉ put_queue s /\
       forall x, x ∈ queue s -> ev x = Request c -> at_time x == g)) /\
    (forall a', procs s !! c = Some (AtService a') -> a' = a /\ k = 5%nat) /\
    (procs s !! c = Some Returned -> k = 6%nat).
Proof.
  intros [Hh Hb]. destruct (procs s !! c) as [f|] eqn:Hf.
  - specialize (Hh c f Hf). destruct f; simpl in Hh.
    + destruct Hh as [t0 ->]. exists t0, 0, 0, 0, 0, 1%nat.
      split_and!; try done; lia.
    + destruct Hh as [t0 [[Hc ->]|[Hc (g & -> & Hg)]]].
      * exists t0, arrive, 0, 0, 0, 3%nat.
        split_and!; try done; try lia; intros a' ?; simplify_eq; auto.
      * exists t0, arrive, g, 0, 0, 4%nat.
        split_and!; try done; try lia; intros a' ?; simplify_eq; auto 6.
    + destruct Hh as (t0 & g & w & -> & Hw). exists t0, arrive, g, w, 0, 5%nat.
      split_and!; try done; intros a' ?; by simplify_eq.
    + destruct Hh as (t0 & a & g & w & r & -> & Hw).
      exists t0, a, g, w, r, 6%nat. split_and!; done.
  - apply lookup_ge_None in Hf. rewrite (Hb c Hf).
    exists 0, 0, 0, 0, 0, 0%nat. split_and!; try done; lia.
Qed.

Lemma elem_of_take_record o k c t0 a g w r :
  o ∈ take k (record c t0 a g w r) ->
  (o = Spawned c t0 /\ (1 <= k)%nat) \/ (o = Arrived c a /\ (2 <= k)%nat) \/
  (o = Enqueued c a /\ (3 <= k)%nat) \/ (o = Granted c g /\ (4 <= k)%nat) \/
  (o = Waited c w /\ (5 <= k)%nat) \/ (o = Released c r /\ (6 <= k)%nat).
Proof.
  unfold record. intros (i & Hi & Hk)%elem_of_take.
  destruct i as [|[|[|[|[|[|i]]]]]]; simpl in Hi; simplify_eq;
    auto 10 with lia.
Qed.

Lemma lookup_take_record k c t0 a g w r i o :
  record c t0 a g w r !! i = Some o -> (i < k)%nat ->
  o ∈ take k (record c t0 a g w r).
Proof.
  intros Hi Hk. apply list_elem_of_lookup. exists i.
  by rewrite lookup_take_lt.
Qed.

Lemma in_record s c o t0 a g w r k :
  history c (trace s) = take k (record c t0 a g w r) ->
  o ∈ trace s -> about c o = true ->
  (o = Spawned c t0 /\ (1 <= k)%nat) \/ (o = Arrived c a /\ (2 <= k)%nat) \/
  (o = Enqueued c a /\ (3 <= k)%nat) \/ (o = Granted c g /\ (4 <= k)%nat) \/
  (o = Waited c w /\ (5 <= k)%nat) \/ (o = Released c r /\ (6 <= k)%nat).
Proof.
  intros Hh Ho Ha. apply elem_of_take_record. rewrite <- Hh.
  by apply elem_of_history.
Qed.

Lemma record_in s c o t0 a g w r k i :
  history c (trace s) = take k (record c t0 a g w r) ->
  record c t0 a g w r !! i = Some o -> (i < k)%nat -> o ∈ trace s.
Proof.
  intros Hh Hi Hk.
  assert (H : o ∈ history c (trace s))
    by (rewrite Hh; by eapply lookup_take_record).
  by apply elem_of_history in H as [H _].
Qed.

Ltac in_rec Hh H :=
  apply (in_record _ _ _ _ _ _ _ _ _ Hh) in H; [|simpl; apply Nat.eqb_refl];
  destruct H as [[? ?]|[[? ?]|[[? ?]|[[? ?]|[[? ?]|[? ?]]]]]]; simplify_eq.




Lemma released_unique s c r r' :
  hist_inv s -> Released c r ∈ trace s -> Released c r' ∈ trace s -> r = r'.
Proof.
  intros Hs H1 H2.
  destruct (customer_record s c Hs) as (t0 & a0 & g0 & w' & r0 & k & Hh & _).
  in_rec Hh H1. by in_rec Hh H2.
Qed.

Lemma spawned_unique s c t t' :
  hist_inv s -> Spawned c t ∈ trace s -> Spawned c t' ∈ trace s -> t = t'.
Proof.
  intros Hs H1 H2.
  destruct (customer_record s c Hs) as (t0 & a0 & g0 & w' & r0 & k & Hh & _).
  in_rec Hh H1. by in_rec Hh H2.
Qed.

(** What a frame says about the trace so far. *)
Lemma frame_record s c f o :
  hist_inv s -> procs s !! c = Some f -> o ∈ trace s -> about c o = true ->
  match f with
  | AtStart => exists t0, o = Spawned c t0
  | AtRequest a =>
      (exists t0, o = Spawned c t0) \/ o = Arrived c a \/ o = Enqueued c a \/
      (exists g, o = Granted c g /\ c ∉ put_queue s /\
                 forall x, x ∈ queue s -> ev x = Request c -> at_time x == g)
  | AtService a =>
      (exists t0, o = Spawned c t0) \/ o = Arrived c a \/ o = Enqueued c a \/
      (exists g, o = Granted c g) \/ (exists w, o = Waited c w)
  | Returned => True
  end.
Proof.
  intros Hs Hf Ho Ha.
  destruct (customer_record s c Hs)
    as (t0 & a & g & w & r & k & Hh & _ & _ & H1 & H2 & H3 & _).
  apply (in_record _ _ _ _ _ _ _ _ _ Hh) in Ho; [|done].
  destruct f; [| | |done].
  - rewrite (H1 Hf) in Ho. naive_solver lia.
  - destruct (H2 _ Hf) as [-> [[-> ?]|(-> & ? & ?)]]; naive_solver lia.
  - destruct (H3 _ Hf) as [-> ->]. naive_solver lia.
Qed.

(* ------------------------------------------------------------------ *)
(** ** Service in the order of creation *)

Section Prompt.

Variable R : PyRandom.
Variable cfg : config.

Lemma grant_order_seq s :
  reachable R cfg s ->
  grant_order (trace s) = seq 0 (length (grant_order (trace s))).
Proof.
  intros Hs. destruct (served_sequence R cfg s Hs) as [k Hk].
  rewrite app_assoc, <- (reachable_req_ok R cfg s Hs) in Hk.
  by apply seq_prefix in Hk.
Qed.

Lemma enqueue_order_seq s :
  reachable R cfg s ->
  enqueue_order (trace s) = seq 0 (length (enqueue_order (trace s))).
Proof.
  intros Hs. destruct (served_sequence R cfg s Hs) as [k Hk].
  rewrite app_assoc, <- (reachable_req_ok R cfg s Hs),
    <- (reachable_fifo_ok R cfg s Hs) in Hk.
  rewrite <- Hk. by rewrite length_seq.
Qed.

Lemma grants_lookup s c g :
  reachable R cfg s -> Granted c g ∈ trace s ->
  grants (trace s) !! c = Some (c, g).
Proof.
  intros Hs Hg.
  assert (Hin : (c, g) ∈ grants (trace s)).
  { unfold grants. apply list_elem_of_omap. by exists (Granted c g). }
  apply list_elem_of_lookup in Hin as [i Hi].
  assert (Hc : grant_order (trace s) !! i = Some c)
    by (by rewrite grant_order_grants, list_lookup_fmap, Hi).
  rewrite (grant_order_seq s Hs) in Hc. apply lookup_seq in Hc as [-> _].
  done.
Qed.

(** X2.  Customers are served in the order in which [setup] created
    them: they join the put queue as 0, 1, 2, ..., they are granted in that
    order, and a customer created earlier is granted no later than one
    created after it. *)
Theorem served_in_order_of_creation s :
  reachable R cfg s ->
  enqueue_order (trace s) = seq 0 (length (enqueue_order (trace s))) /\
  grant_order (trace s) = seq 0 (length (grant_order (trace s))) /\
  forall c c' g g', (c < c')%nat ->
    Granted c g ∈ trace s -> Granted c' g' ∈ trace s -> g <= g'.
Proof.
  intros Hs. split_and!; [by apply enqueue_order_seq|by apply grant_order_seq|].
  intros c c' g g' Hlt Hc Hc'.
  apply (StronglySorted_lookup _ _ c c' (c, g) (c', g')
           (reachable_grants_sorted R cfg s Hs) Hlt);
    by apply grants_lookup.
Qed.

(** *** The first [CASHIERS] customers *)







End Prompt.

(* ------------------------------------------------------------------ *)
(** ** Departures *)


Section Depart.

Variable R : PyRandom.
Variable cfg : config.








End Depart.

(* ------------------------------------------------------------------ *)
(** ** Arrivals *)

Lemma spawn_same s s' l :
  spawn_ok s -> trace s' = trace s ++ l ->
  Forall (fun o => is_entry o = false) l -> AtStart ∉ procs s' ->
  spawn_ok s'.
Proof.
  intros [H1 H2] Ht Hl Hps. rewrite Forall_forall in Hl. split.
  - intros c t0 a. rewrite Ht.
    intros [Hc|Hc]%elem_of_app; [|by specialize (Hl _ Hc)].
    intros [Ha|Ha]%elem_of_app; [|by specialize (Hl _ Ha)]. by eapply H1.
  - intros c t0 Hc. destruct Hps. by eapply list_elem_of_lookup_2.
Qed.

Lemma arrivals_spawn R cfg l n t c t0 :
  arrivals R cfg l n t -> Spawned c t0 ∈ l ->
  (c < n)%nat /\ t0 == Qsum (take c (delays l)).
Proof.
  induction 1 as [|l n t t' d Hl IH Ht Hd He]; [by intros ?%elem_of_nil|].
  destruct (arrivals_delays _ _ _ _ _ Hl) as [Hlen Hclock].
  unfold delays in *. rewrite omap_app. simpl.
  intros [Hc|Hc]%elem_of_app.
  - destruct (IH Hc) as [Hlt Heq]. split; [lia|].
    by rewrite take_app_le by lia.
  - apply elem_of_cons in Hc as [Hc|Hc]; [|by apply list_elem_of_singleton in Hc].
    simplify_eq. split; [lia|].
    rewrite take_app_length'  by done. unfold gen_clock, delays in Hclock.
    by rewrite Ht, Hclock.
Qed.

Lemma arrivals_nonneg R cfg l n t :
  arrivals R cfg l n t -> Forall (fun d => 0 <= d) (delays l).
Proof.
  induction 1 as [|l n t t' d Hl IH Ht Hd He]; [constructor|].
  unfold delays in *. rewrite omap_app. simpl. apply Forall_app.
  split; [done|]. by repeat constructor.
Qed.

Section Spawn.

Variable R : PyRandom.
Variable cfg : config.

Lemma trigger_put_spawn s :
  AtStart ∉ procs s -> spawn_ok s -> spawn_ok (trigger_put cfg s).
Proof.
  intros Hps Hp.
  destruct (trigger_put_cases cfg s) as [[-> _]|(h & rest & _ & _ & ->)];
    [done|].
  eapply spawn_same; [exact Hp|fields; reflexivity|by repeat constructor|done].
Qed.

Lemma spawn_new s s' l :
  hist_inv s -> AtStart ∉ procs s -> spawn_ok s ->
  procs s' = procs s ++ [AtStart] ->
  trace s' = trace s ++ Spawned (length (procs s)) (now s') :: l ->
  Forall (fun o => is_entry o = false) l ->
  spawn_ok s'.
Proof.
  intros [_ Hb] Hps [H1 H2] Hp Ht Hl. rewrite Forall_forall in Hl.
  assert (Hnew : forall o, o ∈ trace s -> about (length (procs s)) o = false).
  { intros o Ho. destruct (about _ o) eqn:E; [|done].
    assert (o ∈ history (length (procs s)) (trace s)) as Hin
      by (by apply elem_of_history).
    rewrite Hb in Hin by done. by apply elem_of_nil in Hin. }
  assert (Hsp : forall t0, Spawned (length (procs s)) t0 ∉ trace s).
  { intros t0 Hin. apply Hnew in Hin. simpl in Hin.
    by rewrite Nat.eqb_refl in Hin. }
  assert (Har : forall a, Arrived (length (procs s)) a ∉ trace s).
  { intros t0 Hin. apply Hnew in Hin. simpl in Hin.
    by rewrite Nat.eqb_refl in Hin. }
  split.
  - intros c t0 a. rewrite Ht, !elem_of_app, !elem_of_cons.
    intros [Hc|[Hc|Hc]] [Ha|[Ha|Ha]]; simplify_eq.
    + by eapply H1.
    + by specialize (Hl _ Ha).
    + by destruct (Har a).
    + by specialize (Hl _ Ha).
    + by specialize (Hl _ Hc).
    + by specialize (Hl _ Hc).
  - intros c t0. rewrite Hp, Ht.
    intros [Hc|[Hle Hc]]%lookup_app_Some;
      [destruct Hps; by eapply list_elem_of_lookup_2|].
    apply list_lookup_singleton_Some in Hc as [Hc _].
    assert (c = length (procs s)) as -> by lia.
    rewrite elem_of_app, elem_of_cons. intros [Hin|[Hin|Hin]].
    + by destruct (Hsp t0).
    + by simplify_eq.
    + by specialize (Hl _ Hin).
Qed.

Lemma setup_loop_spawn i s :
  hist_inv s -> AtStart ∉ procs s -> spawn_ok s ->
  spawn_ok (setup_loop R cfg i s).
Proof.
  intros Hh Hps Hp.
  ops; fields; repeat case_match; simplify_eq.
  4: { eapply spawn_same; [done|fields; symmetry; apply app_nil_r
                          |constructor|done]. }
  all: eapply spawn_new;
    [done|done|done|reflexivity|fields; rewrite <- ?app_assoc; reflexivity
    |by repeat constructor].
Qed.

Lemma step_spawn_ok s s' :
  reachable R cfg s -> spawn_ok s -> step R cfg s = Next s' -> spawn_ok s'.
Proof.
  intros Hs Hp H.
  pose proof (reachable_hist_inv R cfg s Hs) as Hh.
  pose proof (reachable_arrive_ok R cfg s Hs) as Ha.
  pose proof (reachable_heap_ok R cfg s Hs) as Hheap.
  pose proof (reachable_clock_ok R cfg s Hs) as Hc.
  unfold arrive_ok in Ha. step_inv H.
  all: try (apply arrive_settled in Ha as [_ Ha]; [|done]).
  - (* setup starts *)
    unfold setup_start. case_match.
    + eapply spawn_same; [exact Hp|fields; symmetry; apply app_nil_r
                         |constructor|done].
    + apply setup_loop_spawn; [by eapply hist_inv_pop|done|].
      eapply spawn_same; [exact Hp|fields; symmetry; apply app_nil_r
                         |constructor|done].
  - (* a customer starts *)
    destruct (arrive_start _ _ _ _ c Ha eq_refl H0)
      as (ps' & Hps & -> & _ & Hns).
    assert (Ht : t == now s).
    { unfold heap_ok, heap_view in Hheap. rewrite Hq in Hheap.
      apply Forall_cons in Hheap as [(_ & _ & Ht) _]. by apply Ht. }
    rewrite customer_start_eq.
    assert (Hps' : AtStart ∉ procs (enqueued (length ps') (set_clock t q s))).
    { unfold enqueued; fields.
      rewrite Hps, insert_app_r_alt, Nat.sub_diag by done. simpl.
      by intros [?|?%list_elem_of_singleton]%elem_of_app. }
    apply trigger_put_spawn; [done|]. destruct Hp as [H1 H2].
    split; [|intros c t0 Hc0; destruct Hps'; by eapply list_elem_of_lookup_2].
    unfold enqueued; fields. intros c t0 a.
    rewrite ?elem_of_app, ?elem_of_cons, ?elem_of_nil. intros Hc0 Ha'.
    assert (Hc1 : Spawned c t0 ∈ trace s) by naive_solver.
    assert (Ha1 : Arrived c a ∈ trace s \/ (c = length ps' /\ a = t))
      by naive_solver.
    destruct Ha1 as [Ha1|[-> ->]]; [by eapply H1|].
    by rewrite (H2 _ _ H0 Hc1).
  - (* setup resumes *)
    apply setup_loop_spawn; [by eapply hist_inv_pop|done|].
    eapply spawn_same; [exact Hp|fields; symmetry; apply app_nil_r
                       |constructor|done].
  - (* a customer leaves *)
    eapply spawn_same; [exact Hp|ops; fields; reflexivity
                       |by repeat constructor|].
    ops; fields. by apply not_elem_of_insert.
  - (* a customer is granted *)
    ops; fields; case_match;
      (eapply spawn_same; [exact Hp|fields; rewrite <- ?app_assoc; reflexivity
                          |by repeat constructor|]);
      fields; by apply not_elem_of_insert.
  - (* a release event *)
    apply trigger_put_spawn; [done|].
    eapply spawn_same; [exact Hp|fields; symmetry; apply app_nil_r
                       |constructor|done].
  - (* a process event *)
    eapply spawn_same; [exact Hp|fields; symmetry; apply app_nil_r
                       |constructor|done].
Qed.

Lemma reachable_spawn_ok s : reachable R cfg s -> spawn_ok s.
Proof.
  induction 1 as [|s s' Hr IH Hstep]; [|by eapply step_spawn_ok].
  split; [by intros c t0 a ?%elem_of_nil|by intros c t0 ?].
Qed.

Lemma arrival_is_spawn s c a :
  reachable R cfg s -> Arrived c a ∈ trace s ->
  exists t0, Spawned c t0 ∈ trace s /\ a == t0.
Proof.
  intros Hs Ha. pose proof (reachable_hist_inv R cfg s Hs) as Hh.
  destruct (customer_record s c Hh) as (t0 & a0 & g0 & w' & r0 & k & Hk & _).
  pose proof Ha as Ha'. in_rec Hk Ha'.
  assert (Hsp : Spawned c t0 ∈ trace s)
    by (eapply (record_in _ _ _ _ _ _ _ _ _ 0 Hk); [done|lia]).
  exists t0. split; [done|].
  by apply (proj1 (reachable_spawn_ok s Hs) c t0 a0).
Qed.

Lemma arrival_sum s c a :
  PyRandomOK R -> valid cfg -> reachable R cfg s ->
  Arrived c a ∈ trace s ->
  (c < length (delays (trace s)))%nat /\
  a == Qsum (take c (delays (trace s))).
Proof.
  intros HR Hv Hs Ha. destruct (arrival_is_spawn s c a Hs Ha) as (t0 & Hsp & Heq).
  destruct (gen_shape _ _ _ (reachable_gen_ok R cfg HR Hv s Hs)) as (t & Harr & _).
  assert (Hin : Spawned c t0 ∈ gen_events (trace s)).
  { unfold gen_events. apply list_elem_of_In, List.filter_In.
    split; [by apply list_elem_of_In|done]. }
  destruct (arrivals_spawn _ _ _ _ _ _ _ Harr Hin) as [Hlt Ht0].
  destruct (arrivals_delays _ _ _ _ _ Harr) as [Hlen _].
  rewrite delays_gen_events in Ht0, Hlen. split; [lia|]. by rewrite Heq.
Qed.

(** X4.  On a valid configuration no inter-arrival delay is negative and
    customer [c] arrives (reads [env.now] at line 21) at the sum of the
    first [c] delays drawn by [setup]: customer 0 at time 0, and each next
    customer one delay after the one before it. *)
Theorem arrival_is_sum_of_delays s c a :
  PyRandomOK R -> valid cfg -> reachable R cfg s ->
  Arrived c a ∈ trace s ->
  Forall (fun d => 0 <= d) (delays (trace s)) /\
  (c < length (delays (trace s)))%nat /\
  a == Qsum (take c (delays (trace s))).
Proof.
  intros HR Hv Hs Ha. split; [|by apply arrival_sum].
  destruct (gen_shape _ _ _ (reachable_gen_ok R cfg HR Hv s Hs))
    as (t & Harr & _).
  rewrite <- delays_gen_events. by eapply arrivals_nonneg.
Qed.

End Spawn.

(* ------------------------------------------------------------------ *)
(** ** The outcome of a run *)

Lemma filter_none {A} (f : A -> bool) l :
  (forall x, x ∈ l -> f x = false) -> List.filter f l = [].
Proof.
  induction l as [|x l IH]; intros H; simpl; [done|].
  rewrite (H x) by left. apply IH. intros y Hy. apply H. by right.
Qed.


Lemma Qlen_pos l : l <> [] -> 0 < Qlen l.
Proof.
  intros Hl. unfold Qlen. destruct l as [|x l]; [done|].
  change 0 with (inject_Z 0). rewrite <- Zlt_Qlt. simpl length. lia.
Qed.

Section Outcome.

Variable R : PyRandom.
Variable cfg : config.

(** X5.  On a valid configuration no cashier stands idle while a customer
    waits: whenever the put queue is not empty, every unit is in use or
    being handed over by a release event, every release event on the heap
    lies at the present time, and so, whenever the next event is later
    than now, all [CASHIERS] units are in use. *)
Theorem no_idle_cashier_while_waiting s :
  PyRandomOK R -> valid cfg -> reachable R cfg s -> put_queue s <> [] ->
  (CASHIERS cfg <=
   Z.of_nat (length (users s) + count is_release (evs s)))%Z /\
  (forall x, x ∈ queue s -> is_release (ev x) = true -> at_time x == now s) /\
  ((forall x, x ∈ queue s -> now s < at_time x) ->
   Z.of_nat (length (users s)) = CASHIERS cfg).
Proof.
  intros HR Hv Hs Hpq.
  pose proof (reachable_pressure R cfg HR Hv s Hs Hpq) as Hp.
  pose proof (reachable_heap_ok R cfg s Hs) as Hh.
  unfold heap_ok, heap_view in Hh. rewrite Forall_forall in Hh.
  assert (Hrel : forall x, x ∈ queue s -> is_release (ev x) = true ->
                           at_time x == now s).
  { intros x Hx Hr. destruct (Hh x Hx) as (_ & _ & Hn). apply Hn.
    by destruct (ev x). }
  split_and!; [exact Hp|exact Hrel|]. intros Hlater.
  assert (Hnone : List.filter is_release (evs s) = []).
  { apply filter_none. intros e He. destruct (is_release e) eqn:E; [|done].
    unfold evs in He. apply list_elem_of_fmap in He as (x & -> & Hx).
    pose proof (Hrel x Hx E). specialize (Hlater x Hx). lra. }
  rewrite Hnone in Hp. simpl in Hp.
  pose proof (wf_capacity _ _ _ _ _ _ (reachable_wf R cfg s Hs)) as [Hu|Hu].
  - rewrite Hu in *. simpl in *. pose proof (valid_cashiers _ Hv). lia.
  - lia.
Qed.

(** X6.  On a valid configuration the run ends with the bank empty: when
    [env.run()] returns, every customer process has returned, nobody holds
    a cashier, nobody waits, each of the [CUSTOMERS] customers was granted
    once, in the order of creation, and released once. *)
Theorem run_ends_with_bank_empty fuel :
  PyRandomOK R -> valid cfg -> enough cfg fuel ->
  exists s, env_run R cfg fuel initial = Idle s /\
    Forall (fun f => f = Returned) (procs s) /\
    users s = [] /\ put_queue s = [] /\
    grant_order (trace s) = seq 0 (Z.to_nat (CUSTOMERS cfg)) /\
    release_order (trace s) ≡ₚ seq 0 (Z.to_nat (CUSTOMERS cfg)).
Proof.
  intros HR Hv Hf. destruct (run_ends R cfg HR Hv fuel Hf) as (s & Hrun & Hs & Hq).
  destruct (idle_all_returned R cfg HR Hv s Hs Hq) as (Hn & Hret & Hu & Hpq).
  pose proof (reachable_count_ok R cfg s Hs) as Hc.
  assert (Hlen : length (grant_order (trace s)) = Z.to_nat (CUSTOMERS cfg)).
  { pose proof (reachable_fifo_ok R cfg s Hs) as Hfifo.
    pose proof (reachable_arrive_ok R cfg s Hs) as Ha.
    unfold fifo_ok, arrive_ok in *. rewrite Hpq, app_nil_r in Hfifo.
    rewrite <- Hfifo.
    destruct Ha as [[-> _]|(x & q & ps' & Hx & _)]; [|by rewrite Hq in Hx].
    rewrite length_seq. lia. }
  unfold count_ok in Hc. rewrite Hu, Hlen in Hc. simpl in Hc.
  exists s. split_and!; try done.
  - by rewrite (grant_order_seq R cfg s Hs), Hlen.
  - symmetry. apply submseteq_length_Permutation; [|rewrite length_seq; lia].
    apply NoDup_submseteq; [apply NoDup_seq|]. intros c Hcn.
    apply elem_of_seq in Hcn.
    destruct (lookup_lt_is_Some_2 (procs s) c) as [f Hfr]; [lia|].
    rewrite Forall_forall in Hret.
    rewrite (Hret f (list_elem_of_lookup_2 _ _ _ Hfr)) in Hfr.
    destruct (customer_record s c (reachable_hist_inv R cfg s Hs))
      as (t0 & a & g & w & r & k & Hk & _ & _ & _ & _ & _ & H6).
    rewrite (H6 Hfr) in Hk. unfold release_order.
    apply list_elem_of_omap. exists (Released c r). split; [|done].
    eapply (record_in _ _ _ _ _ _ _ _ _ 5 Hk); [done|lia].
Qed.




Lemma step_draws_ok s s' :
  PyRandomOK R -> valid cfg -> draws_ok s -> step R cfg s = Next s' ->
  draws_ok s'.
Proof.
  intros HR Hv Hd H. unfold draws_ok, delays in *. step_inv H.
  all: rewrite ?(setup_start_valid R cfg Hv), ?(setup_loop_valid R cfg HR Hv),
    ?(customer_granted_valid R cfg HR Hv), ?customer_start_eq; cbv zeta.
  all: unfold customer_leave, release, trigger_put, enqueued; fields;
    repeat case_match; fields; rewrite ?omap_app, ?length_app; simpl; lia.
Qed.

Lemma reachable_draws_ok s :
  PyRandomOK R -> valid cfg -> reachable R cfg s -> draws_ok s.
Proof.
  intros HR Hv. induction 1 as [|s s' Hr IH Hstep]; [done|].
  by eapply step_draws_ok.
Qed.

(** X10.  On a valid configuration the program takes one number of the
    random stream for every inter-arrival delay and one for every service
    time, and so [2 * CUSTOMERS] numbers in a whole run. *)
Theorem random_numbers_consumed :
  PyRandomOK R -> valid cfg ->
  (forall s, reachable R cfg s ->
     rng s = (length (delays (trace s)) + length (service_times s))%nat) /\
  (forall fuel, enough cfg fuel ->
     exists s, env_run R cfg fuel initial = Idle s /\
               rng s = (2 * Z.to_nat (CUSTOMERS cfg))%nat).
Proof.
  intros HR Hv. split; [intros s Hs; by apply reachable_draws_ok|].
  intros fuel Hf.
  destruct (run_ends R cfg HR Hv fuel Hf) as (s & Hrun & Hs & Hq).
  destruct (idle_report R cfg HR Hv s Hs Hq) as (_ & Hsv & _).
  destruct (idle_all_returned R cfg HR Hv s Hs Hq) as (Hn & _).
  destruct (gen_shape _ _ _ (reachable_gen_ok R cfg HR Hv s Hs)) as (t & Harr & _).
  destruct (arrivals_delays _ _ _ _ _ Harr) as [Hlen _].
  rewrite delays_gen_events in Hlen.
  exists s. split; [done|]. rewrite (reachable_draws_ok s HR Hv Hs). lia.
Qed.



End Outcome.

(* ------------------------------------------------------------------ *)
(** ** One cashier *)

Lemma handover_same s s' :
  handover_ok s -> (forall o, o ∈ trace s -> o ∈ trace s') ->
  (forall y c, y ∈ queue s' -> ev y = Release c -> y ∈ queue s) ->
  handover_ok s'.
Proof.
  intros Hp Ht Hq y c Hy Hev.
  destruct (Hp y c (Hq y c Hy Hev) Hev) as (r & Hr & Heq).
  exists r. split; [by apply Ht|done].
Qed.

Lemma handover_release s s' c :
  handover_ok s -> (forall o, o ∈ trace s -> o ∈ trace s') ->
  Released c (now s') ∈ trace s' ->
  (forall y c', y ∈ queue s' -> ev y = Release c' ->
     y ∈ queue s \/ (c' = c /\ at_time y == now s')) ->
  handover_ok s'.
Proof.
  intros Hp Ht Hc Hq y c' Hy Hev. destruct (Hq y c' Hy Hev) as [Hin|[-> Heq]].
  - destruct (Hp y c' Hin Hev) as (r & Hr & Hreq).
    exists r. split; [by apply Ht|done].
  - exists (now s'). split; [done|by symmetry].
Qed.

Section Handover.

Variable R : PyRandom.
Variable cfg : config.

Ltac hand_frame Hp Hq :=
  eapply handover_same;
  [ exact Hp
  | fields; intros ? ?; rewrite ?elem_of_app; auto
  | fields; intros ? ?; rewrite ?elem_of_heappush;
    intros ?; repeat match goal with H : _ \/ _ |- _ => destruct H end;
    subst; fields; intros; first [done | rewrite Hq; by right] ].

Ltac hand_release Hp Hq :=
  eapply handover_release;
  [ exact Hp
  | fields; intros ? ?; rewrite ?elem_of_app; auto
  | fields; rewrite ?elem_of_app, ?elem_of_cons; auto 10
  | fields; intros ? ?; rewrite ?elem_of_heappush;
    intros ?; repeat match goal with H : _ \/ _ |- _ => destruct H end;
    subst; fields; intros;
    first [done | left; rewrite Hq; by right
          | right; split; [congruence|lra] ] ].

Lemma trigger_put_handover s :
  handover_ok s -> handover_ok (trigger_put cfg s).
Proof.
  intros Hp.
  destruct (trigger_put_cases cfg s) as [[-> _]|(h & rest & _ & _ & ->)];
    [done|].
  eapply handover_same; [exact Hp| |]; fields.
  - intros o Ho. apply elem_of_app. by left.
  - intros y c [->|Hy]%elem_of_heappush; fields; done.
Qed.

Lemma step_handover_ok s s' :
  handover_ok s -> step R cfg s = Next s' -> handover_ok s'.
Proof.
  intros Hp H. step_inv H.
  - ops; fields; repeat case_match; simplify_eq; hand_frame Hp Hq.
  - rewrite customer_start_eq. apply trigger_put_handover.
    unfold enqueued. hand_frame Hp Hq.
  - ops; fields; repeat case_match; simplify_eq; hand_frame Hp Hq.
  - unfold customer_leave, release. hand_release Hp Hq.
  - ops; fields; case_match; [hand_release Hp Hq|hand_frame Hp Hq].
  - apply trigger_put_handover. hand_frame Hp Hq.
  - hand_frame Hp Hq.
Qed.

Lemma reachable_handover_ok s : reachable R cfg s -> handover_ok s.
Proof.
  induction 1 as [|s s' Hr IH Hstep]; [|by eapply step_handover_ok].
  intros y c [->|[]%elem_of_nil]%elem_of_cons. done.
Qed.

End Handover.


Section Single.

Variable R : PyRandom.
Variable cfg : config.
Hypothesis HR : PyRandomOK R.
Hypothesis Hv : valid cfg.
Hypothesis Hone : CASHIERS cfg = 1%Z.












(** While somebody waits and a unit is free, a release event is on the
    heap. *)
Lemma pending_release s :
  reachable R cfg s -> put_queue s <> [] ->
  (Z.of_nat (length (users s)) < CASHIERS cfg)%Z ->
  exists y c, y ∈ queue s /\ ev y = Release c.
Proof.
  intros Hs Hpq Hu. pose proof (reachable_pressure R cfg HR Hv s Hs Hpq) as Hp.
  destruct (List.filter is_release (evs s)) as [|e l] eqn:E;
    [simpl in Hp; lia|].
  assert (Hin : e ∈ List.filter is_release (evs s)) by (rewrite E; left).
  apply list_elem_of_In, List.filter_In in Hin as [Hin He].
  apply list_elem_of_In in Hin. unfold evs in Hin.
  apply list_elem_of_fmap in Hin as (y & -> & Hy).
  destruct (ev y) eqn:Hev; try done. by exists y, c.
Qed.







End Single.

(* ------------------------------------------------------------------ *)
(** ** When units are granted *)

Lemma cause_ok_same s s' l :
  cause_ok s -> trace s' = trace s ++ l ->
  (forall c g, Granted c g ∉ l) -> (forall c a, Arrived c a ∉ l) ->
  cause_ok s'.
Proof.
  intros Hp Ht Hl1 Hl2 c a g. rewrite Ht.
  intros [Ha|Ha]%elem_of_app; [|by destruct (Hl2 _ _ Ha)].
  intros [Hg|Hg]%elem_of_app; [|by destruct (Hl1 _ _ Hg)].
  destruct (Hp c a g Ha Hg) as [Hle [?|(c' & r & Hr & Heq)]];
    (split; [done|]); [by left|right].
  exists c', r. rewrite elem_of_app. auto.
Qed.

Section Cause.

Variable R : PyRandom.
Variable cfg : config.
Hypothesis HR : PyRandomOK R.
Hypothesis Hv : valid cfg.

Lemma trigger_put_cause s :
  cause_ok s ->
  (forall h rest a, put_queue s = h :: rest ->
     (Z.of_nat (length (users s)) < CASHIERS cfg)%Z -> Arrived h a ∈ trace s ->
     a <= now s /\
     (now s == a \/ exists c' r, Released c' r ∈ trace s /\ r == now s)) ->
  cause_ok (trigger_put cfg s).
Proof.
  intros Hp Hnew.
  destruct (trigger_put_cases cfg s) as [[-> _]|(h & rest & Hpq & Hcap & ->)];
    [done|].
  intros c a g. fields.
  intros [Ha|Ha]%elem_of_app; [|by apply list_elem_of_singleton in Ha].
  intros [Hg|Hg]%elem_of_app.
  - destruct (Hp c a g Ha Hg) as [Hle [?|(c' & r & Hr & Heq)]];
      (split; [done|]); [by left|right].
    exists c', r. rewrite elem_of_app. auto.
  - apply list_elem_of_singleton in Hg. simplify_eq.
    destruct (Hnew _ _ _ Hpq Hcap Ha) as [Hle [?|(c' & r & Hr & Heq)]];
      (split; [done|]); [by left|right].
    exists c', r. rewrite elem_of_app. auto.
Qed.

Ltac cause_frame Hp :=
  eapply cause_ok_same;
  [ exact Hp
  | fields; rewrite <- ?app_assoc; first [reflexivity | symmetry; apply app_nil_r]
  | intros ? ?; rewrite ?elem_of_app, ?elem_of_cons, ?elem_of_nil; naive_solver
  | intros ? ?; rewrite ?elem_of_app, ?elem_of_cons, ?elem_of_nil; naive_solver ].

Lemma step_cause_ok s s' :
  reachable R cfg s -> cause_ok s -> step R cfg s = Next s' -> cause_ok s'.
Proof.
  intros Hs Hp H.
  pose proof (reachable_hist_inv R cfg s Hs) as Hh.
  pose proof (reachable_heap_ok R cfg s Hs) as Hheap.
  pose proof (reachable_handover_ok R cfg s Hs) as Hhand.
  pose proof (pending_release R cfg HR Hv s Hs) as Hpend.
  pose proof (reachable_past_ok R cfg s Hs) as Hpast.
  pose proof (reachable_clock_ok R cfg s Hs) as Hclock.
  unfold past_ok in Hpast. rewrite Forall_forall in Hpast.
  assert (Hle : forall x q, queue s = x :: q -> now s <= at_time x).
  { intros x q Hq. destruct Hclock as [_ Hn]. rewrite Hq in Hn.
    by apply Forall_cons in Hn as [Hn _]. }
  assert (Hnow : forall y, y ∈ queue s -> is_timeout (ev y) = false ->
                           at_time y == now s).
  { unfold heap_ok, heap_view in Hheap. rewrite Forall_forall in Hheap.
    intros y Hy. by destruct (Hheap y Hy) as (_ & _ & ?). }
  step_inv H.
  all: rewrite ?(setup_start_valid R cfg Hv), ?(setup_loop_valid R cfg HR Hv),
    ?(customer_granted_valid R cfg HR Hv), ?customer_start_eq; cbv zeta.
  - (* setup starts *)
    case_match; cause_frame Hp.
  - (* a customer starts *)
    assert (Ht : t == now s) by (by apply (Hnow _ ltac:(left))).
    assert (Hold : forall a, Arrived c a ∉ trace s).
    { intros a Ha.
      by destruct (frame_record s c _ _ Hh H0 Ha ltac:(simpl; apply Nat.eqb_refl)). }
    apply trigger_put_cause.
    + unfold enqueued. intros c0 a g. fields. rewrite <- app_assoc.
      intros [Ha|Ha]%elem_of_app [Hg|Hg]%elem_of_app.
      * destruct (Hp c0 a g Ha Hg) as [Hag [?|(c' & r & Hr & Heq)]];
          (split; [done|]); [by left|right].
        exists c', r. rewrite elem_of_app. auto.
      * rewrite ?elem_of_app, ?elem_of_cons, ?elem_of_nil in Hg. naive_solver.
      * assert (c0 = c) as -> by
          (rewrite ?elem_of_app, ?elem_of_cons, ?elem_of_nil in Ha; naive_solver).
        by destruct (frame_record s c _ _ Hh H0 Hg
                       ltac:(simpl; apply Nat.eqb_refl)).
      * rewrite ?elem_of_app, ?elem_of_cons, ?elem_of_nil in Hg. naive_solver.
    + unfold enqueued; fields. intros h rest a Hpq Hcap.
      rewrite <- app_assoc. intros [Ha|Ha]%elem_of_app.
      * (* an earlier customer is granted: a release is pending *)
        destruct (put_queue s) as [|h' rest'] eqn:E; simpl in Hpq; simplify_eq.
        { by destruct (Hold a). }
        destruct (Hpend ltac:(done) Hcap) as (y & c' & Hy & Hev).
        destruct (Hhand y c' ltac:(by rewrite Hq) Hev) as (r & Hr & Heq).
        pose proof (Hpast _ Ha) as Hat. unfold not_after in Hat. simpl in Hat.
        split; [lra|].
        right. exists c', r. rewrite !elem_of_app. split; [auto|].
        rewrite Heq, Ht. apply Hnow; [done|by rewrite Hev].
      * rewrite ?elem_of_app, ?elem_of_cons, ?elem_of_nil in Ha.
        destruct Ha as [[?|[]]|[?|[]]]; simplify_eq. split; [lra|by left].
  - (* setup resumes *)
    case_match; cause_frame Hp.
  - (* a customer leaves *)
    unfold customer_leave, release. cause_frame Hp.
  - (* a customer is granted *)
    cause_frame Hp.
  - (* a release event *)
    apply trigger_put_cause; [cause_frame Hp|].
    fields. intros h rest a Hpq Hcap Ha.
    pose proof (Hpast _ Ha) as Hat. unfold not_after in Hat. simpl in Hat.
    pose proof (Hle _ _ eq_refl) as Hnt. simpl in Hnt. split; [lra|]. right.
    destruct (Hhand {| at_time := t; priority := pr; eid := id;
                       ev := Release c |} c ltac:(rewrite Hq; left) eq_refl)
      as (r & Hr & Heq).
    by exists c, r.
  - (* a process event *)
    cause_frame Hp.
Qed.

Lemma reachable_cause_ok s : reachable R cfg s -> cause_ok s.
Proof.
  induction 1 as [|s s' Hr IH Hstep]; [|by eapply step_cause_ok].
  by intros c a g ?%elem_of_nil.
Qed.

(** X13.  On a valid configuration a customer is granted a cashier not
    before its arrival, and either at its arrival or at the very time some
    customer released a cashier. *)
Theorem grants_follow_arrivals_and_releases s c a g :
  reachable R cfg s -> Arrived c a ∈ trace s -> Granted c g ∈ trace s ->
  a <= g /\ (g == a \/ exists c' r, Released c' r ∈ trace s /\ r == g).
Proof. intros Hs. apply (reachable_cause_ok s Hs). Qed.

End Cause.

(* ------------------------------------------------------------------ *)
(** ** Who holds the cashiers *)

Section Users.

Variable R : PyRandom.
Variable cfg : config.
Hypothesis HR : PyRandomOK R.
Hypothesis Hv : valid cfg.

(** X14.  On a valid configuration the customers in [users] of the
    resource are exactly those that were granted a cashier and have not
    released it. *)
Theorem users_are_granted_and_not_released s c :
  reachable R cfg s ->
  c ∈ users s <->
  (exists g, Granted c g ∈ trace s) /\ forall r, Released c r ∉ trace s.
Proof.
  intros Hs. pose proof (reachable_hist_inv R cfg s Hs) as Hh.
  pose proof (reachable_wf R cfg s Hs) as Hwf.
  pose proof (reachable_live R cfg HR Hv s Hs) as [_ _ _ Hl].
  destruct (customer_record s c Hh)
    as (t0 & a & g & w & r & k & Hk & _ & Hnone & Hst & Hrq & Hsv & H6).
  split.
  - intros Hc.
    assert (Hk4 : (4 <= k < 6)%nat).
    { destruct (wf_users _ _ _ _ _ _ Hwf c Hc) as [He|He];
        apply (wf_evs _ _ _ _ _ _ Hwf) in He; simpl in He.
      - destruct He as [[a' Ha'] _].
        destruct (Hrq _ Ha') as [_ [[_ Hpq]|[-> _]]]; [|lia].
        by destruct (wf_waiting _ _ _ _ _ _ Hwf c Hpq) as [_ []].
      - destruct He as [[a' Ha'] _]. destruct (Hsv _ Ha') as [_ ->]. lia. }
    split.
    + exists g. eapply (record_in _ _ _ _ _ _ _ _ _ 3 Hk); [done|lia].
    + intros r' Hr'. in_rec Hk Hr'. lia.
  - intros [[g' Hg] Hno]. pose proof Hg as Hg'. in_rec Hk Hg'.
    destruct (procs s !! c) as [f|] eqn:Hf; [|specialize (Hnone eq_refl); lia].
    specialize (Hl c f Hf). destruct f; simpl in Hl.
    + specialize (Hst eq_refl). lia.
    + destruct (Hrq _ eq_refl) as [_ [[? _]|(_ & Hnq & _)]]; [lia|].
      destruct Hl as [Hl|Hl]; [done|].
      by destruct (wf_evs _ _ _ _ _ _ Hwf _ Hl) as [_ Hin].
    + by destruct (wf_evs _ _ _ _ _ _ Hwf _ Hl) as [_ Hin].
    + rewrite (H6 eq_refl) in Hk. destruct (Hno r).
      eapply (record_in _ _ _ _ _ _ _ _ _ 5 Hk); [done|lia].
Qed.

End Users.

(** X15.  The books of the resource are kept straight on every
    configuration: no customer holds two cashiers or is queued twice, a
    queued customer holds no cashier, and whoever holds a cashier or is
    queued is a customer that [setup] has created. *)
Theorem bank_books_are_consistent R cfg s :
  reachable R cfg s ->
  NoDup (users s) /\ NoDup (put_queue s) /\
  (forall c, c ∈ put_queue s -> c ∉ users s) /\
  (forall c, c ∈ users s \/ c ∈ put_queue s -> (c < length (procs s))%nat).
Proof.
  intros Hs. destruct (reachable_wf R cfg s Hs) as [_ Hev Hund Hu Hwnd Hw _].
  split_and!; [done|done| |].
  - intros c Hc. by destruct (Hw c Hc).
  - intros c [Hc|Hc].
    + destruct (Hu c Hc) as [He|He]; apply Hev in He; simpl in He;
        destruct He as [[a Ha] _]; by eapply lookup_lt_Some.
    + destruct (Hw c Hc) as [[a Ha] _]. by eapply lookup_lt_Some.
Qed.

(* ------------------------------------------------------------------ *)
(** ** Where the customers are *)

Lemma wsum_unstarted_none ps : AtStart ∉ ps -> wsum unstarted ps = 0%nat.
Proof.
  unfold wsum. induction ps as [|f ps IH]; [done|].
  intros H. rewrite not_elem_of_cons in H. destruct H as [Hf Hps].
  specialize (IH Hps). simpl in *. rewrite IH. by destruct f.
Qed.

(** X16.  On every configuration the customers are conserved: each
    customer that [setup] has created has left the bank, holds a cashier,
    waits in the queue of the resource, or has not run yet; and at most
    one customer, the one created last, has not run yet. *)
Theorem customers_are_conserved R cfg s :
  reachable R cfg s ->
  length (procs s) =
    (length (release_order (trace s)) + length (users s) +
     length (put_queue s) + wsum unstarted (procs s))%nat /\
  (wsum unstarted (procs s) <= 1)%nat.
Proof.
  intros Hr.
  pose proof (reachable_fifo_ok R cfg s Hr) as Hf.
  pose proof (reachable_count_ok R cfg s Hr) as Hc.
  pose proof (reachable_arrive_ok R cfg s Hr) as Ha.
  unfold fifo_ok in Hf. unfold count_ok in Hc.
  apply (f_equal length) in Hf. rewrite length_app in Hf.
  destruct Ha as [[He Hn]|(x & q & ps' & _ & Hps & _ & He & Hn)].
  - rewrite He, length_seq in Hf.
    rewrite (wsum_unstarted_none _ Hn). lia.
  - rewrite He, length_seq in Hf. rewrite Hps, wsum_app, length_app.
    rewrite (wsum_unstarted_none _ Hn). unfold wsum. simpl. lia.
Qed.

(* ------------------------------------------------------------------ *)
(** ** Service bounds below zero *)

Lemma frame_failed_mono E E' c f :
  (forall e, e ∈ E -> e ∈ E') -> frame_failed E c f -> frame_failed E' c f.
Proof. destruct f; simpl; auto. Qed.

Section Service.

Variable R : PyRandom.
Variable cfg : config.

Lemma live_service st s : live (with_service st cfg) s <-> live cfg s.
Proof. split; intros [L1 L2 L3 L4]; by constructor. Qed.

(** Only the resumption of a granted customer reads [SERVICE_TIME]. *)
Lemma step_service st s :
  (forall x q c, queue s = x :: q -> ev x <> Request c) ->
  step R (with_service st cfg) s = step R cfg s.
Proof.
  intros Hs. unfold step. destruct (queue s) as [|x q]; [done|].
  specialize (Hs x q). destruct (ev x) as [[|c]|[|c]|c|c|p [e|]]; try done.
  by destruct (Hs c).
Qed.

(** The events behind the head of the heap are still there after the
    step. *)
Lemma step_keeps s s' x q :
  queue s = x :: q -> step R cfg s = Next s' ->
  forall e0, e0 ∈ map ev q -> e0 ∈ evs s'.
Proof.
  intros Hq0 H e0 He. step_inv H.
  all: unfold evs; ops; fields; repeat case_match; simplify_eq; fields.
  all: rewrite ?elem_of_map_heappush; auto.
Qed.

End Service.

Section Negative.

Variable R : PyRandom.
Variable cfg : config.
Hypothesis HR : PyRandomOK R.
Hypothesis Hcap : (1 <= CASHIERS cfg)%Z.
Hypothesis Hn : (1 <= CUSTOMERS cfg)%Z.
Hypothesis Hi : 0 < INTERVAL cfg.
Hypothesis Hlo : fst (SERVICE_TIME cfg) < 0.
Hypothesis Hhi : snd (SERVICE_TIME cfg) < 0.

Lemma positive_service_valid : valid (with_service (1, 1) cfg).
Proof. constructor; simpl; done || lra. Qed.

(** [setup] runs as on a valid configuration. *)
Lemma setup_start_pos s : setup_start R cfg s = setup_loop R cfg 0 s.
Proof.
  exact (setup_start_valid R (with_service (1, 1) cfg)
           positive_service_valid s).
Qed.

Lemma setup_loop_pos i s :
  setup_loop R cfg i s =
  if (Z.of_nat i <? CUSTOMERS cfg)%Z then
    let c := length (procs s) in
    let d := - math_log R
                 (1 - random_stream R (RANDOM_SEED cfg) (rng s)) /
             (1 / INTERVAL cfg) in
    schedule (Timeout Setup) NORMAL d
      (observe (Delayed d (now s))
         (set_setup (SetupLoop i)
            (set_rng (S (rng s))
               (schedule (Initialize (Customer c)) URGENT 0
                  (observe (Spawned c (now s))
                     (set_procs (procs s ++ [AtStart]) s))))))
  else finish Setup None (set_setup SetupReturned s).
Proof.
  exact (setup_loop_valid R (with_service (1, 1) cfg) HR
           positive_service_valid i s).
Qed.

Lemma service_neg u :
  0 <= u -> u < 1 ->
  fst (SERVICE_TIME cfg) +
  (snd (SERVICE_TIME cfg) - fst (SERVICE_TIME cfg)) * u < 0.
Proof. intros H0 H1. nra. Qed.

(** A customer that is granted a cashier draws a negative service time:
    the timeout raises, the [with] block releases the cashier. *)
Lemma customer_granted_neg c arrive s :
  customer_granted R cfg c arrive s =
  let wait := now s - arrive in
  let service_duration :=
    fst (SERVICE_TIME cfg) +
    (snd (SERVICE_TIME cfg) - fst (SERVICE_TIME cfg)) *
    random_stream R (RANDOM_SEED cfg) (rng s) in
  finish (Customer c) (Some ValueError)
    (release c
       (set_procs (<[c := Returned]> (procs s))
          (set_stats (wait_times s ++ [wait])
             (service_times s ++ [service_duration])
             (busy_time s + service_duration)
             (set_rng (S (rng s)) (observe (Waited c wait) s))))).
Proof.
  unfold customer_granted, uniform, random; fields.
  destruct (Qltb _ 0) eqn:E'; [done|].
  apply Qltb_false in E'.
  pose proof (service_neg _
                (proj1 (random_unit R HR (RANDOM_SEED cfg) (rng s)))
                (proj2 (random_unit R HR (RANDOM_SEED cfg) (rng s)))).
  lra.
Qed.

Ltac nstep_inv H :=
  step_inv H;
  rewrite ?setup_start_pos, ?setup_loop_pos, ?customer_granted_neg,
    ?customer_start_eq;
  cbv zeta.

(** A step on an event other than a request is a step of the valid
    configuration. *)
Ltac other_event H Hq Hx :=
  rewrite step_service; [exact H|];
  let x' := fresh "x" in
  let q' := fresh "q" in
  let c' := fresh "c" in
  let Hq' := fresh "Hq" in
  intros x' q' c' Hq'; rewrite Hq in Hq'; simplify_eq; by rewrite Hx.

Lemma step_only_value_errors s s' :
  only_value_errors s -> step R cfg s = Next s' -> only_value_errors s'.
Proof.
  unfold only_value_errors, evs. intros Hs H. nstep_inv H.
  all: simpl in Hs.
  all: assert (Hs' : forall p e, ProcessEnd p (Some e) ∈ map ev q ->
                       e = ValueError)
    by (intros p' e' Hin; apply (Hs p' e'); by right).
  all: unfold customer_leave, release, trigger_put, enqueued; fields;
    repeat case_match; fields; intros p' e'.
  all: rewrite ?elem_of_map_heappush; fields; naive_solver.
Qed.

Lemma step_failed_ok s s' :
  failed_ok s -> step R cfg s = Next s' -> failed_ok s'.
Proof.
  intros Hs H. pose proof H as Hstep.
  intros c0 f0 Hf0.
  unfold step in H.
  destruct (queue s) as [|x q] eqn:Hq; [discriminate|].
  pose proof (step_keeps R cfg s s' x q Hq Hstep) as Hk.
  assert (Hold : forall c f, procs s !! c = Some f ->
            (forall p, ev x <> ProcessEnd p (Some ValueError)) ->
            frame_failed (evs s') c f).
  { intros c f Hf Hx. specialize (Hs c f Hf). unfold evs in Hs.
    rewrite Hq in Hs. simpl in Hs. destruct f; simpl in *; try done.
    apply Hk. apply elem_of_cons in Hs as [Hs|Hs]; [|done].
    by destruct (Hx (Customer c)). }
  destruct x as [t pr id e]; cbn [ev at_time] in *.
  destruct e as [[|c]|[|c]|c|c|p [e|]]; repeat case_match; simplify_eq.
  all: rewrite ?setup_start_pos, ?setup_loop_pos, ?customer_granted_neg,
    ?customer_start_eq in *; cbv zeta in *.
  all: unfold customer_leave, release, enqueued, trigger_put in *;
    repeat case_match; fields.
  all: try (apply lookup_app_Some in Hf0 as [Hf0|[_ Hf0]];
            [|by apply list_lookup_singleton_Some in Hf0 as [_ <-]]).
  all: try (apply list_lookup_insert_Some in Hf0 as [(-> & <- & _)|[_ Hf0]]).
  all: try (by apply (Hold _ _ Hf0)).
  all: try exact I.
  - match goal with H : procs s !! _ = Some (AtService _) |- _ =>
      destruct (Hs _ _ H) end.
  - unfold frame_failed, evs; fields. rewrite !elem_of_map_heappush. by left.
Qed.

Lemma step_live_neg s s' :
  wf cfg s -> live cfg s -> step R cfg s = Next s' -> live cfg s'.
Proof.
  intros Hwf Hl H.
  destruct (queue s) as [|x q] eqn:Hq; [by unfold step in H; rewrite Hq in H|].
  destruct (ev x) as [p1|p1|c1|c1|p1 e1] eqn:Hx.
  1,2,4,5: apply (live_service cfg (1, 1));
    apply (step_live R _ HR positive_service_valid s s');
    [exact Hwf|by apply live_service|other_event H Hq Hx].
  step_inv H; simpl in Hx; simplify_eq.
  rewrite customer_granted_neg. cbv zeta.
  eapply (live_update cfg s _ _ _ c1 Returned); unfold release, evs;
    fields; try done.
  - intros e He. rewrite !elem_of_map_heappush. auto.
  - auto.
Qed.

Lemma step_pressure_neg s s' :
  wf cfg s -> pressure cfg s -> step R cfg s = Next s' -> pressure cfg s'.
Proof.
  intros Hwf Hp H.
  destruct (queue s) as [|x q] eqn:Hq; [by unfold step in H; rewrite Hq in H|].
  destruct (ev x) as [p1|p1|c1|c1|p1 e1] eqn:Hx.
  1,2,4,5: apply (step_pressure R _ HR positive_service_valid s s');
    [exact Hwf|exact Hp|other_event H Hq Hx].
  unfold pressure, evs in Hp. rewrite Hq in Hp. simpl in Hp.
  unfold wf, evs in Hwf. rewrite Hq in Hwf. simpl in Hwf.
  step_inv H; simpl in Hx; simplify_eq.
  rewrite customer_granted_neg. cbv zeta.
  destruct (wf_evs _ _ _ _ _ _ Hwf (Request c1)) as [_ Hc]; [left|].
  pose proof (length_list_remove _ _ Hc).
  unfold pressure, evs, release; fields.
  rewrite !releases_heappush; simpl. intros Hne. specialize (Hp Hne). lia.
Qed.

Lemma step_steps_left_neg s s' :
  live cfg s -> step R cfg s = Next s' ->
  (steps_left cfg s' < steps_left cfg s)%nat.
Proof.
  intros Hl H.
  destruct (queue s) as [|x q] eqn:Hq; [by unfold step in H; rewrite Hq in H|].
  destruct (ev x) as [p1|p1|c1|c1|p1 e1] eqn:Hx.
  1,2,4,5: apply (step_steps_left R _ HR positive_service_valid s s');
    [by apply live_service|other_event H Hq Hx].
  unfold steps_left. rewrite Hq.
  step_inv H; simpl in Hx; simplify_eq.
  rewrite customer_granted_neg. cbv zeta.
  match goal with H : procs _ !! _ = Some (AtRequest _) |- _ =>
    pose proof (wsum_insert pot _ _ _ Returned H) end.
  simpl in *. unfold release; fields. rewrite ?length_heappush. lia.
Qed.

Lemma initial_failing : failing cfg initial.
Proof.
  constructor.
  - apply initial_wf.
  - apply initial_live.
  - by intros H.
  - intros p e H. unfold evs, initial in H. simpl in H.
    apply list_elem_of_singleton in H. discriminate.
  - intros c f H. done.
Qed.

Lemma step_failing s s' :
  failing cfg s -> step R cfg s = Next s' -> failing cfg s'.
Proof.
  intros [H1 H2 H3 H4 H5] H. constructor.
  - by eapply step_wf.
  - by eapply step_live_neg.
  - by eapply step_pressure_neg.
  - by eapply step_only_value_errors.
  - by eapply step_failed_ok.
Qed.

(** The schedule does not run empty: the first customer would have
    returned, and then its exception is on the heap. *)
Lemma failing_not_empty s : failing cfg s -> queue s <> [].
Proof.
  intros [Hwf [L1 L2 L3 L4] Hp He Hf] Hq.
  unfold wf, pressure, failed_ok, evs in *. rewrite Hq in *. simpl in *.
  assert (Hu : users s = []).
  { destruct (users s) as [|c us] eqn:E; [done|].
    destruct (wf_users _ _ _ _ _ _ Hwf c ltac:(left)) as [H|H];
      by apply elem_of_nil in H. }
  assert (Hpq : put_queue s = []).
  { destruct (put_queue s) as [|c pq] eqn:E; [done|].
    specialize (Hp ltac:(done)). rewrite Hu in Hp. simpl in Hp. lia. }
  assert (Hlen : Z.of_nat (length (procs s)) = CUSTOMERS cfg).
  { destruct (setup_gen s) as [|i|] eqn:E.
    + destruct (L1 eq_refl) as [H _]. by apply elem_of_nil in H.
    + destruct (L2 i eq_refl) as [H _]. by apply elem_of_nil in H.
    + by apply L3. }
  destruct (procs s) as [|f ps] eqn:E; [simpl in Hlen; lia|].
  specialize (L4 0%nat f eq_refl). specialize (Hf 0%nat f eq_refl).
  destruct f; simpl in *.
  - by apply elem_of_nil in L4.
  - rewrite Hpq in L4. destruct L4 as [H|H]; by apply elem_of_nil in H.
  - done.
  - by apply elem_of_nil in Hf.
Qed.

Lemma env_run_fails fuel s :
  failing cfg s -> (steps_left cfg s < fuel)%nat ->
  exists s', env_run R cfg fuel s = Crashed ValueError s'.
Proof.
  revert s. induction fuel as [|fuel IH]; intros s Hs Hf; [lia|].
  simpl. destruct (step R cfg s) as [s1|e s1| |] eqn:Hstep.
  - apply IH; [by eapply step_failing|].
    pose proof (step_steps_left_neg _ _ (failing_live _ _ Hs) Hstep). lia.
  - pose proof Hstep as Hr. apply step_raise in Hr as [p Hp].
    rewrite (failing_errors _ _ Hs p e Hp). by eexists.
  - apply step_empty in Hstep. by destruct (failing_not_empty s Hs).
  - by destruct (step_not_stuck R cfg s (failing_wf _ _ Hs)).
Qed.

(** X17.  Service bounds that are both negative stop the run with
    [ValueError]: with at least one cashier and one customer and a
    positive mean interval, the first customer that is granted a cashier
    asks for a timeout with a negative delay, and [env.run()] raises its
    exception, whatever the random numbers are. *)
Theorem negative_service_is_an_error fuel :
  enough cfg fuel -> run_simulation R cfg fuel = Failed ValueError.
Proof.
  intros Hf. unfold run_simulation.
  destruct (env_run_fails fuel initial) as [s' ->];
    [apply initial_failing| |done].
  unfold enough in Hf. unfold steps_left, wsum. simpl. lia.
Qed.

End Negative.

(* ------------------------------------------------------------------ *)
(** ** The further theorems at work *)

Lemma three_customers_end_reachable :
  reachable steady_random three_customers three_customers_end.
Proof.
  refine (proj1 (env_run_idle steady_random three_customers 21 initial
                   three_customers_end (reach_initial _ _) _)).
  vm_compute. reflexivity.
Qed.



(** Membership in a list that computes. *)
Ltac in_list :=
  apply list_elem_of_In; vm_compute;
  repeat first [left; reflexivity | right].

Lemma waits_listed_by_customer_witness :
  waits_of (trace three_customers_end) =
    zip (seq 0 (length (wait_times three_customers_end)))
      (wait_times three_customers_end) /\
  length (service_times three_customers_end) =
    length (wait_times three_customers_end) /\
  forall c w, wait_times three_customers_end !! c = Some w <->
              Waited c w ∈ trace three_customers_end.
Proof.
  apply (waits_listed_by_customer steady_random three_customers
           three_customers_end three_customers_end_reachable).
Defined.

Lemma served_in_order_of_creation_witness :
  enqueue_order (trace three_customers_end) =
    seq 0 (length (enqueue_order (trace three_customers_end))) /\
  grant_order (trace three_customers_end) =
    seq 0 (length (grant_order (trace three_customers_end))) /\
  forall c c' g g', (c < c')%nat ->
    Granted c g ∈ trace three_customers_end ->
    Granted c' g' ∈ trace three_customers_end -> g <= g'.
Proof.
  apply (served_in_order_of_creation steady_random three_customers
           three_customers_end three_customers_end_reachable).
Defined.


Lemma arrival_is_sum_of_delays_witness :
  exists a,
    Arrived 2 a ∈ trace three_customers_end /\
    Forall (fun d => 0 <= d) (delays (trace three_customers_end)) /\
    (2 < length (delays (trace three_customers_end)))%nat /\
    a == Qsum (take 2 (delays (trace three_customers_end))).
Proof.
  exists (8 # 4).
  assert (Ha : Arrived 2 (8 # 4) ∈ trace three_customers_end) by in_list.
  split; [exact Ha|].
  apply (arrival_is_sum_of_delays steady_random three_customers
           three_customers_end 2%nat (8 # 4) steady_random_ok
           three_customers_valid three_customers_end_reachable Ha).
Defined.

Lemma no_idle_cashier_while_waiting_witness :
  (CASHIERS three_customers <=
   Z.of_nat (length (users three_customers_midway) +
             count is_release (evs three_customers_midway)))%Z /\
  (forall x, x ∈ queue three_customers_midway -> is_release (ev x) = true ->
     at_time x == now three_customers_midway) /\
  ((forall x, x ∈ queue three_customers_midway ->
      now three_customers_midway < at_time x) ->
   Z.of_nat (length (users three_customers_midway)) =
   CASHIERS three_customers).
Proof.
  apply (no_idle_cashier_while_waiting steady_random three_customers
           three_customers_midway steady_random_ok three_customers_valid
           three_customers_midway_reachable).
  vm_compute. discriminate.
Defined.

Lemma run_ends_with_bank_empty_witness :
  exists s, env_run steady_random three_customers 21 initial = Idle s /\
    Forall (fun f => f = Returned) (procs s) /\
    users s = [] /\ put_queue s = [] /\
    grant_order (trace s) = seq 0 (Z.to_nat (CUSTOMERS three_customers)) /\
    release_order (trace s) ≡ₚ seq 0 (Z.to_nat (CUSTOMERS three_customers)).
Proof.
  apply (run_ends_with_bank_empty steady_random three_customers 21
           steady_random_ok three_customers_valid enough_three_customers).
Defined.




Lemma random_numbers_consumed_witness :
  (forall s, reachable steady_random three_customers s ->
     rng s = (length (delays (trace s)) + length (service_times s))%nat) /\
  (forall fuel, enough three_customers fuel ->
     exists s, env_run steady_random three_customers fuel initial = Idle s /\
               rng s = (2 * Z.to_nat (CUSTOMERS three_customers))%nat).
Proof.
  apply (random_numbers_consumed steady_random three_customers
           steady_random_ok three_customers_valid).
Defined.



Lemma grants_follow_arrivals_and_releases_witness :
  exists a g,
    Arrived 1 a ∈ trace three_customers_end /\
    Granted 1 g ∈ trace three_customers_end /\
    a <= g /\
    (g == a \/ exists c' r, Released c' r ∈ trace three_customers_end /\
                            r == g).
Proof.
  exists (2 # 2), (6 # 2).
  assert (Ha : Arrived 1 (2 # 2) ∈ trace three_customers_end) by in_list.
  assert (Hg : Granted 1 (6 # 2) ∈ trace three_customers_end) by in_list.
  do 2 (split; [assumption|]).
  apply (grants_follow_arrivals_and_releases steady_random three_customers
           steady_random_ok three_customers_valid three_customers_end 1%nat
           (2 # 2) (6 # 2) three_customers_end_reachable Ha Hg).
Defined.

Lemma users_are_granted_and_not_released_witness :
  1%nat ∈ users three_customers_midway <->
  (exists g, Granted 1 g ∈ trace three_customers_midway) /\
  forall r, Released 1 r ∉ trace three_customers_midway.
Proof.
  apply (users_are_granted_and_not_released steady_random three_customers
           steady_random_ok three_customers_valid three_customers_midway
           1%nat three_customers_midway_reachable).
Defined.

Lemma bank_books_are_consistent_witness :
  NoDup (users three_customers_midway) /\
  NoDup (put_queue three_customers_midway) /\
  (forall c, c ∈ put_queue three_customers_midway ->
             c ∉ users three_customers_midway) /\
  (forall c, c ∈ users three_customers_midway \/
             c ∈ put_queue three_customers_midway ->
             (c < length (procs three_customers_midway))%nat).
Proof.
  apply (bank_books_are_consistent steady_random three_customers
           three_customers_midway three_customers_midway_reachable).
Defined.

Lemma customers_are_conserved_witness :
  length (procs three_customers_midway) =
    (length (release_order (trace three_customers_midway)) +
     length (users three_customers_midway) +
     length (put_queue three_customers_midway) +
     wsum unstarted (procs three_customers_midway))%nat /\
  (wsum unstarted (procs three_customers_midway) <= 1)%nat.
Proof.
  apply (customers_are_conserved steady_random three_customers
           three_customers_midway three_customers_midway_reachable).
Defined.

Lemma negative_service_is_an_error_witness :
  run_simulation steady_random negative_service 21 = Failed ValueError.
Proof.
  apply (negative_service_is_an_error steady_random negative_service
           steady_random_ok);
    [simpl; lia|simpl; lia|simpl; lra|simpl; lra|simpl; lra|].
  unfold enough. simpl. lia.
Defined.
